(** * Runner: a bounded-concurrency task queue (src/Runner.ts)

    A shallow embedding of the [Runner] class and of the asynchronous
    execution of [runAll], followed by the properties of the run that the
    specification states.

    Modelling conventions.

    - JavaScript numbers that the class uses as counters are integers and
      are modelled in [Z]; [tolerance] may also be [Infinity].
    - An [async] call runs synchronously up to its first [await].  A call of
      [runTask] is therefore split in two: [runTask], the part up to
      [await cb(index, label)], and [resume], everything after the [await]
      (the [try] continuation, [catch] and [finally]).  Which suspended call
      is resumed next is chosen by the scheduler.
    - A task callback is modelled by what awaiting it gives, as a function
      of the arguments it is called with: [Returns v] or [Throws e].  A
      callback that throws before returning its promise is the schedule in
      which the task is settled before any other event; this is why the
      iterations of the spawning loop are events too.
    - A listener is a function of the caller: it may return or throw.  What
      the listeners called by a dispatch do is given to [#emit] as a
      [Raise]: nothing, or which call throws and what.  An error thrown in
      the [catch] block escapes the call of [runTask]; if the spawning loop
      attached its [.catch] handler to that call, the handler runs later,
      as a step of its own, and otherwise the rejection stays unhandled.
    - The steps of a run come in two layers.  An [Event] is a step in which
      every listener that is called returns; [step] and [exec] run events.
      An [Action] is any step: an event, the resumption of a call in which
      a listener throws, the run of a [.catch] handler, or the construction
      elsewhere of a Runner that is not verbose, which replaces the module's
      [log]; [act] and [perform] run actions.
    - Listeners and task callbacks do not call back into the Runner, and
      nothing else touches its fields during a run.  [duration] (a
      difference of two [performance.now()] readings) is left out of the
      outcome records.
    - Console output is kept as a list of abstract lines: which call printed
      and with which data, without colours. *)

From Stdlib Require Import ZArith List String Bool Lia Permutation.
From Stdlib Require Import DecimalString.
Import ListNotations.
Local Open Scope Z_scope.

Set Implicit Arguments.

(* ------------------------------------------------------------------ *)
(** ** Values and records *)

(** The JavaScript values a task can produce or throw. *)
Inductive JsValue : Type :=
| JsUndefined
| JsNull
| JsNumber (z : Z)
| JsString (s : string)
| JsError (message : string)     (* new Error(message) *)
| JsObject (id : nat).

(** [v instanceof Error] *)
Definition instanceof_Error (v : JsValue) : bool :=
  match v with
  | JsError _ => true
  | _ => false
  end.

(** A number that is an integer or [Infinity] (the [tolerance] option). *)
Inductive Num : Type :=
| Fin (z : Z)
| Infinity.

(** [n > t] for an integer [n]. *)
Definition gt (n : Z) (t : Num) : bool :=
  match t with
  | Fin k => k <? n
  | Infinity => false
  end.

(** The template-literal rendering of an integer. *)
Definition to_string (n : Z) : string := NilZero.string_of_int (Z.to_int n).

(** [meta] of [TaskResult] and [TaskError]. *)
Record Meta : Type := {
  index : Z;
  label : option string
}.

(** [TaskEvent<T> = TaskResult<T> | TaskError]: both have the fields
    [result], [error] and [meta]; a [TaskResult] has [error: null], a
    [TaskError] has [result: null]. *)
Record TaskEvent : Type := {
  result : JsValue;
  error : JsValue;
  meta : Meta
}.

(** What [await cb(index, label)] gives. *)
Inductive Awaited : Type :=
| Returns (v : JsValue)
| Throws (e : JsValue).

(** [Task<T> = (index: number, label?: string) => Promise<T>] *)
Definition Task : Type := Z -> option string -> Awaited.

(** An element of [queue]: [{ cb, label }]. *)
Record TaskObj : Type := {
  cb : Task;
  task_label : option string
}.

(** A listener is known by its identity. *)
Definition Listener : Type := nat.

Inductive EventName : Type :=
| taskCompleted
| taskFailed.

(** [#listeners = { taskCompleted: [], taskFailed: [] }] *)
Record Listeners : Type := {
  on_taskCompleted : list Listener;
  on_taskFailed : list Listener
}.

Definition listeners_for (ls : Listeners) (event : EventName) : list Listener :=
  match event with
  | taskCompleted => on_taskCompleted ls
  | taskFailed => on_taskFailed ls
  end.

(** [RunnerOptions]: the module-level defaults object has every field; *)
Record RunnerOptions : Type := {
  o_verbose : bool;
  o_tolerance : Num;
  onTaskComplete : option Listener;
  onTaskFailed : option Listener
}.

(** the [options] argument of the constructor may have any of them. *)
Record OptionsArg : Type := {
  arg_verbose : option bool;
  arg_tolerance : option Num;
  arg_onTaskComplete : option Listener;
  arg_onTaskFailed : option Listener
}.

(** The fields of a [Runner] instance. *)
Record Runner : Type := {
  concurrentLimit : Z;
  queue : list TaskObj;
  numActive : Z;
  numComplete : Z;
  verbose : bool;
  tolerance : Num;
  abort : bool;
  listeners : Listeners;
  completeTasks : list TaskEvent;
  failedTasks : list TaskEvent;
  numTotal : Z
}.

(** Module-level mutable state of Runner.ts: the exported defaults object
    and the variable [log], which is [l] until a constructor replaces it by
    a function that does nothing. *)
Record Globals : Type := {
  DEFAULT_RUNNER_OPTIONS : RunnerOptions;
  log_is_l : bool
}.

(** Lines on the console. *)
Inductive LogLine : Type :=
| LogInitial (tasks limit : Z)                 (* #logInitial *)
| LogProgress (started total : Z)              (* numActive + numComplete / numTotal *)
| LogNewline
| LogComplete (index : Z) (label : option string)
| LogFailed (label : option string)            (* 'X ' + label *)
| LogMessage (message : string)                (* l(r(message)) *)
| LogValue (v : JsValue)                       (* l(e) *)
| LogTolerance (t : Num)
| LogFailedTasks (failed : list TaskEvent)
| LogCompleted (succeeded completed : Z)
| LogFailedSummary (names : list (string + Z)).

(** The arrays a settled value can hold a reference to. *)
Inductive ArrayRef : Type :=
| this_completeTasks.

(** State of the promise returned by [runAll].  The settled value holds the
    array [this.completeTasks] itself, not a copy. *)
Inductive Promise : Type :=
| Pending
| Resolved (results : ArrayRef)                       (* { results, error: null } *)
| Rejected (result : ArrayRef) (error : JsValue).     (* { result, error } *)

(** A call of [runTask] suspended at [await cb(index, label)]: the locals
    [index] and [label], and what the [await] will give. *)
Record Suspended : Type := {
  s_index : Z;
  s_label : option string;
  s_awaited : Awaited
}.

(** Everything a run of [runAll] reads and writes. *)
Record World : Type := {
  this : Runner;
  promise : Promise;
  suspended : list Suspended;
  loop_i : Z;                                  (* the [i] of the spawning loop *)
  console : list LogLine;
  log_live : bool;                             (* the module-level [log] is still [l] *)
  invoked : list (Listener * TaskEvent);       (* listener calls, oldest first *)
  attached : list Z;       (* indices of the calls with the loop's [.catch] handler *)
  escaped : list JsValue;  (* errors escaped from such calls, handler not yet run *)
  unhandled : list JsValue (* errors escaped from the other calls *)
}.

(* ------------------------------------------------------------------ *)
(** ** Field updates *)

Definition set_queue (q : list TaskObj) (r : Runner) : Runner :=
  {| concurrentLimit := concurrentLimit r; queue := q;
     numActive := numActive r; numComplete := numComplete r;
     verbose := verbose r; tolerance := tolerance r; abort := abort r;
     listeners := listeners r; completeTasks := completeTasks r;
     failedTasks := failedTasks r; numTotal := numTotal r |}.

Definition set_numActive (n : Z) (r : Runner) : Runner :=
  {| concurrentLimit := concurrentLimit r; queue := queue r;
     numActive := n; numComplete := numComplete r;
     verbose := verbose r; tolerance := tolerance r; abort := abort r;
     listeners := listeners r; completeTasks := completeTasks r;
     failedTasks := failedTasks r; numTotal := numTotal r |}.

Definition set_numComplete (n : Z) (r : Runner) : Runner :=
  {| concurrentLimit := concurrentLimit r; queue := queue r;
     numActive := numActive r; numComplete := n;
     verbose := verbose r; tolerance := tolerance r; abort := abort r;
     listeners := listeners r; completeTasks := completeTasks r;
     failedTasks := failedTasks r; numTotal := numTotal r |}.

Definition set_abort (b : bool) (r : Runner) : Runner :=
  {| concurrentLimit := concurrentLimit r; queue := queue r;
     numActive := numActive r; numComplete := numComplete r;
     verbose := verbose r; tolerance := tolerance r; abort := b;
     listeners := listeners r; completeTasks := completeTasks r;
     failedTasks := failedTasks r; numTotal := numTotal r |}.

Definition set_listeners (ls : Listeners) (r : Runner) : Runner :=
  {| concurrentLimit := concurrentLimit r; queue := queue r;
     numActive := numActive r; numComplete := numComplete r;
     verbose := verbose r; tolerance := tolerance r; abort := abort r;
     listeners := ls; completeTasks := completeTasks r;
     failedTasks := failedTasks r; numTotal := numTotal r |}.

Definition set_completeTasks (ts : list TaskEvent) (r : Runner) : Runner :=
  {| concurrentLimit := concurrentLimit r; queue := queue r;
     numActive := numActive r; numComplete := numComplete r;
     verbose := verbose r; tolerance := tolerance r; abort := abort r;
     listeners := listeners r; completeTasks := ts;
     failedTasks := failedTasks r; numTotal := numTotal r |}.

Definition set_failedTasks (ts : list TaskEvent) (r : Runner) : Runner :=
  {| concurrentLimit := concurrentLimit r; queue := queue r;
     numActive := numActive r; numComplete := numComplete r;
     verbose := verbose r; tolerance := tolerance r; abort := abort r;
     listeners := listeners r; completeTasks := completeTasks r;
     failedTasks := ts; numTotal := numTotal r |}.

Definition set_numTotal (n : Z) (r : Runner) : Runner :=
  {| concurrentLimit := concurrentLimit r; queue := queue r;
     numActive := numActive r; numComplete := numComplete r;
     verbose := verbose r; tolerance := tolerance r; abort := abort r;
     listeners := listeners r; completeTasks := completeTasks r;
     failedTasks := failedTasks r; numTotal := n |}.

Definition set_this (r : Runner) (w : World) : World :=
  {| this := r; promise := promise w; suspended := suspended w;
     loop_i := loop_i w; console := console w; log_live := log_live w;
     invoked := invoked w; attached := attached w; escaped := escaped w;
     unhandled := unhandled w |}.

Definition set_promise (p : Promise) (w : World) : World :=
  {| this := this w; promise := p; suspended := suspended w;
     loop_i := loop_i w; console := console w; log_live := log_live w;
     invoked := invoked w; attached := attached w; escaped := escaped w;
     unhandled := unhandled w |}.

Definition set_suspended (l : list Suspended) (w : World) : World :=
  {| this := this w; promise := promise w; suspended := l;
     loop_i := loop_i w; console := console w; log_live := log_live w;
     invoked := invoked w; attached := attached w; escaped := escaped w;
     unhandled := unhandled w |}.

Definition set_loop_i (i : Z) (w : World) : World :=
  {| this := this w; promise := promise w; suspended := suspended w;
     loop_i := i; console := console w; log_live := log_live w;
     invoked := invoked w; attached := attached w; escaped := escaped w;
     unhandled := unhandled w |}.

Definition set_console (c : list LogLine) (w : World) : World :=
  {| this := this w; promise := promise w; suspended := suspended w;
     loop_i := loop_i w; console := c; log_live := log_live w;
     invoked := invoked w; attached := attached w; escaped := escaped w;
     unhandled := unhandled w |}.

Definition set_invoked (c : list (Listener * TaskEvent)) (w : World) : World :=
  {| this := this w; promise := promise w; suspended := suspended w;
     loop_i := loop_i w; console := console w; log_live := log_live w;
     invoked := c; attached := attached w; escaped := escaped w;
     unhandled := unhandled w |}.

Definition set_log_live (b : bool) (w : World) : World :=
  {| this := this w; promise := promise w; suspended := suspended w;
     loop_i := loop_i w; console := console w; log_live := b;
     invoked := invoked w; attached := attached w; escaped := escaped w;
     unhandled := unhandled w |}.

Definition set_attached (a : list Z) (w : World) : World :=
  {| this := this w; promise := promise w; suspended := suspended w;
     loop_i := loop_i w; console := console w; log_live := log_live w;
     invoked := invoked w; attached := a; escaped := escaped w;
     unhandled := unhandled w |}.

Definition set_escaped (errs : list JsValue) (w : World) : World :=
  {| this := this w; promise := promise w; suspended := suspended w;
     loop_i := loop_i w; console := console w; log_live := log_live w;
     invoked := invoked w; attached := attached w; escaped := errs;
     unhandled := unhandled w |}.

Definition set_unhandled (errs : list JsValue) (w : World) : World :=
  {| this := this w; promise := promise w; suspended := suspended w;
     loop_i := loop_i w; console := console w; log_live := log_live w;
     invoked := invoked w; attached := attached w; escaped := escaped w;
     unhandled := errs |}.

(** [this.f = g(this)] *)
Definition update (f : Runner -> Runner) (w : World) : World :=
  set_this (f (this w)) w.

(** [a.length] *)
Definition len {A : Type} (a : list A) : Z := Z.of_nat (List.length a).

(* ------------------------------------------------------------------ *)
(** ** Construction and the queue *)

(** The module as loaded:
    [DEFAULT_RUNNER_OPTIONS = { verbose: true, tolerance: 0 }], [log = l]. *)
Definition module_loaded : Globals :=
  {| DEFAULT_RUNNER_OPTIONS :=
       {| o_verbose := true; o_tolerance := Fin 0;
          onTaskComplete := None; onTaskFailed := None |};
     log_is_l := true |}.

Definition or_else {A : Type} (x : option A) (d : A) : A :=
  match x with
  | Some a => a
  | None => d
  end.

Definition or_keep {A : Type} (x : option A) (d : option A) : option A :=
  match x with
  | Some a => Some a
  | None => d
  end.

(** [Object.assign(target, source)]: every property [source] has is written
    to [target]; the value returned is [target] itself. *)
Definition Object_assign (target : RunnerOptions) (source : option OptionsArg)
  : RunnerOptions :=
  match source with
  | None => target
  | Some src =>
      {| o_verbose := or_else (arg_verbose src) (o_verbose target);
         o_tolerance := or_else (arg_tolerance src) (o_tolerance target);
         onTaskComplete := or_keep (arg_onTaskComplete src) (onTaskComplete target);
         onTaskFailed := or_keep (arg_onTaskFailed src) (onTaskFailed target) |}
  end.

(** [on(event, listener)] *)
Definition on (event : EventName) (listener : Listener) (r : Runner) : Runner :=
  let ls := listeners r in
  match event with
  | taskCompleted =>
      set_listeners {| on_taskCompleted := on_taskCompleted ls ++ [listener];
                       on_taskFailed := on_taskFailed ls |} r
  | taskFailed =>
      set_listeners {| on_taskCompleted := on_taskCompleted ls;
                       on_taskFailed := on_taskFailed ls ++ [listener] |} r
  end.

(** [new Runner(concurrentLimit = 5, options?)].  [opts] is the defaults
    object, so what [Object.assign] wrote stays in the module. *)
Definition new_Runner (g : Globals) (limit : option Z) (options : option OptionsArg)
  : Globals * Runner :=
  let opts := Object_assign (DEFAULT_RUNNER_OPTIONS g) options in
  let g' := {| DEFAULT_RUNNER_OPTIONS := opts;
               log_is_l := if o_verbose opts then log_is_l g else false |} in
  let r := {| concurrentLimit := or_else limit 5;
              queue := [];
              numActive := 0;
              numComplete := 0;
              verbose := o_verbose opts;
              tolerance := o_tolerance opts;
              abort := false;
              listeners := {| on_taskCompleted := []; on_taskFailed := [] |};
              completeTasks := [];
              failedTasks := [];
              numTotal := 0 |} in
  let r := match onTaskComplete opts with
           | Some h => on taskCompleted h r
           | None => r
           end in
  let r := match onTaskFailed opts with
           | Some h => on taskFailed h r
           | None => r
           end in
  (g', r).

(** [add(cb, label?)] *)
Definition add (f : Task) (lbl : option string) (r : Runner) : Runner :=
  set_queue (queue r ++ [{| cb := f; task_label := lbl |}]) r.

(** [addMany(cbs, labels?)]: [labels?.[i]] is absent past the end. *)
Definition addMany (cbs : list Task) (labels : option (list string)) (r : Runner)
  : Runner :=
  fold_left
    (fun r i =>
       match nth_error cbs i with
       | Some f =>
           add f (match labels with
                  | Some ls => nth_error ls i
                  | None => None
                  end) r
       | None => r
       end)
    (seq 0 (List.length cbs)) r.

(** [get complete()] *)
Definition complete (r : Runner) : bool :=
  (len (queue r) =? 0) && (numActive r =? 0).

(* ------------------------------------------------------------------ *)
(** ** Logging *)

(** [console.log(line)] when [cond] holds. *)
Definition print (cond : bool) (line : LogLine) (w : World) : World :=
  set_console (console w ++ (if cond then [line] else [])) w.

(** [l(...)]: the imported [console.log] wrapper. *)
Definition l (line : LogLine) (w : World) : World := print true line w.

(** [log(...)]: the module-level variable. *)
Definition log (line : LogLine) (w : World) : World := print (log_live w) line w.

Definition logInitial (w : World) : World :=
  log (LogInitial (len (queue (this w))) (concurrentLimit (this w))) w.

(** [if (!this.#verbose) return; log('\n'); log(...)] *)
Definition logComplete (e : TaskEvent) (w : World) : World :=
  let v := verbose (this w) in
  let w := print (v && log_live w) LogNewline w in
  print (v && log_live w) (LogComplete (index (meta e)) (label (meta e))) w.

(** ['X ' + label ?? ...] is [('X ' + label) ?? ...], which is never null. *)
Definition logFailed (e : TaskEvent) (w : World) : World :=
  print (verbose (this w) && log_live w) (LogFailed (label (meta e))) w.

(** [meta.label || meta.index] *)
Definition label_or_index (m : Meta) : string + Z :=
  match label m with
  | Some s => if String.eqb s ""%string then inr (index m) else inl s
  | None => inr (index m)
  end.

Definition logCompletionStatus (w : World) : World :=
  let r := this w in
  let v := verbose r in
  let w := print (v && log_live w)
             (LogCompleted (numComplete r - len (failedTasks r)) (numComplete r)) w in
  print (v && log_live w && (0 <? len (failedTasks r)))
    (LogFailedSummary (map (fun e => label_or_index (meta e)) (failedTasks r))) w.

(* ------------------------------------------------------------------ *)
(** ** Events *)

(** [#isFailedEvent]: [e.result instanceof Error] *)
Definition isFailedEvent (e : TaskEvent) : bool := instanceof_Error (result e).

(** [#isCompletedEvent] *)
Definition isCompletedEvent (e : TaskEvent) : bool := negb (isFailedEvent e).

(** The listener calls of [#emit(event, e)], in order: the loop runs over
    the indices of [listeners[event]]; [xs?.[i]?.(e)] calls nothing when
    [xs[i]] is absent. *)
Definition emit_calls (ls : Listeners) (event : EventName) (e : TaskEvent)
  : list (Listener * TaskEvent) :=
  flat_map
    (fun i =>
       if isCompletedEvent e then
         match nth_error (on_taskCompleted ls) i with
         | Some h => [(h, e)]
         | None => []
         end
       else if isFailedEvent e then
         match nth_error (on_taskFailed ls) i with
         | Some h => [(h, e)]
         | None => []
         end
       else [])
    (seq 0 (List.length (listeners_for ls event))).

(** What the listeners called by one dispatch do: they all return, or the
    call at position [j] (counted from 0 among the calls of [emit_calls])
    throws [err]. *)
Definition Raise : Type := option (nat * JsValue).

(** The calls made, up to and including the one that throws, and the error
    that comes out of the dispatch, if any. *)
Definition calls_made {A : Type} (calls : list A) (raise : Raise) : list A :=
  match raise with
  | None => calls
  | Some (j, _) => firstn (S j) calls
  end.

Definition error_thrown {A : Type} (calls : list A) (raise : Raise)
  : option JsValue :=
  match raise with
  | None => None
  | Some (j, err) => if (j <? List.length calls)%nat then Some err else None
  end.

(** [#emit(event, e)]: the loop ends at the call that throws, and what that
    call throws is what [#emit] throws. *)
Definition emit (event : EventName) (e : TaskEvent) (raise : Raise) (w : World)
  : World * option JsValue :=
  let calls := emit_calls (listeners (this w)) event e in
  (set_invoked (invoked w ++ calls_made calls raise) w,
   error_thrown calls raise).

(* ------------------------------------------------------------------ *)
(** ** The run *)

(** [resolve(v)] and [reject(v)] settle a pending promise and do nothing to
    a settled one. *)
Definition settle (p : Promise) (w : World) : World :=
  set_promise (match promise w with
               | Pending => p
               | settled => settled
               end) w.

Definition resolve (results : ArrayRef) (w : World) : World :=
  settle (Resolved results) w.

Definition reject (res : ArrayRef) (err : JsValue) (w : World) : World :=
  settle (Rejected res err) w.

(** Reading an array through a settled value. *)
Definition deref (w : World) (a : ArrayRef) : list TaskEvent :=
  match a with
  | this_completeTasks => completeTasks (this w)
  end.

Definition tolerance_message (failed : Z) : string :=
  ("Runner tolerance exceeded. " ++ to_string failed ++ " tasks failed.")%string.

(** [runTask], up to [await cb(index, label)]. *)
Definition runTask (w : World) : World :=
  if abort (this w) then w
  else
    match queue (this w) with
    | [] => w
    | taskObj :: rest =>
        let w := update (set_queue rest) w in
        let w := update (fun r => set_numActive (numActive r + 1) r) w in
        let w := print (verbose (this w))
                   (LogProgress (numActive (this w) + numComplete (this w))
                      (numTotal (this w))) w in
        let index := numActive (this w) + numComplete (this w) in
        set_suspended
          (suspended w ++
             [{| s_index := index;
                 s_label := task_label taskObj;
                 s_awaited := cb taskObj index (task_label taskObj) |}]) w
    end.

(** The body of [if (this.#failedTasks.length > this.#tolerance)]. *)
Definition tolerance_exceeded (w : World) : World :=
  let w := update (set_abort true) w in
  let message := tolerance_message (len (failedTasks (this w))) in
  let w := print (verbose (this w)) (LogMessage message) w in
  let w := log LogNewline w in
  let w := log (LogTolerance (tolerance (this w))) w in
  let w := log (LogFailedTasks (failedTasks (this w))) w in
  reject this_completeTasks (JsError message) w.

(** The [catch (e)] block, and the error it throws, if any: when a
    listener throws in [#emit('taskFailed', taskError)] the tolerance test
    is not reached. *)
Definition on_throw (s : Suspended) (e : JsValue) (in_catch : Raise) (w : World)
  : World * option JsValue :=
  let taskError :=
    {| result := JsNull; error := e;
       meta := {| index := s_index s; label := s_label s |} |} in
  let w := logFailed taskError w in
  let w := update (fun r => set_failedTasks (failedTasks r ++ [taskError]) r) w in
  match emit taskFailed taskError in_catch w with
  | (w, Some err) => (w, Some err)
  | (w, None) =>
      (if gt (len (failedTasks (this w))) (tolerance (this w))
       then tolerance_exceeded w
       else w, None)
  end.

(** The [try] block after the [await] returned [v]: when a listener throws
    in [#emit('taskCompleted', taskResult)], after the push, control goes
    to the [catch] block with that error. *)
Definition on_return (s : Suspended) (v : JsValue) (in_try in_catch : Raise)
    (w : World) : World * option JsValue :=
  let taskResult :=
    {| result := v; error := JsNull;
       meta := {| index := s_index s; label := s_label s |} |} in
  let w := logComplete taskResult w in
  let w := update (fun r => set_completeTasks (completeTasks r ++ [taskResult]) r) w in
  match emit taskCompleted taskResult in_try w with
  | (w, Some err) => on_throw s err in_catch w
  | (w, None) => (w, None)
  end.

(** The [finally] block. *)
Definition finally (w : World) : World :=
  let w := update (fun r => set_numComplete (numComplete r + 1) r) w in
  let w := update (fun r => set_numActive (numActive r - 1) r) w in
  if complete (this w) || abort (this w)
  then resolve this_completeTasks (logCompletionStatus w)
  else runTask w.

(** An error leaves the call of [runTask], whose promise is rejected with
    it: the loop's [.catch] handler is queued if the call has one
    ([runTask().catch(...)] in the loop, but a bare [runTask()] in
    [finally]). *)
Definition escape (s : Suspended) (thrown : option JsValue) (w : World) : World :=
  match thrown with
  | None => w
  | Some err =>
      if existsb (Z.eqb (s_index s)) (attached w)
      then set_escaped (escaped w ++ [err]) w
      else set_unhandled (unhandled w ++ [err]) w
  end.

(** [runTask] from the [await] on: [try] or [catch], then [finally], then
    the error of the [catch] block, if any, goes on. *)
Definition resume (s : Suspended) (in_try in_catch : Raise) (w : World) : World :=
  let settled :=
    match s_awaited s with
    | Returns v => on_return s v in_try in_catch w
    | Throws e => on_throw s e in_catch w
    end in
  escape s (snd settled) (finally (fst settled)).

(** [runAll()] up to the spawning loop. *)
Definition runAll (g : Globals) (r : Runner) : World :=
  let r := set_numTotal (len (queue r)) r in
  logInitial
    {| this := r; promise := Pending; suspended := []; loop_i := 0;
       console := []; log_live := log_is_l g; invoked := [];
       attached := []; escaped := []; unhandled := [] |}.

(** An event: the next iteration of
    [for (let i = 0; i < this.concurrentLimit; i++) runTask().catch(...)],
    or the resumption of the suspended call at position [slot] with every
    listener returning. *)
Inductive Event : Type :=
| Spawn
| Settle (slot : nat).

Definition remove_nth {A : Type} (n : nat) (xs : list A) : list A :=
  firstn n xs ++ skipn (S n) xs.

(** [runTask().catch(...)]: the handler is attached to the promise of the
    call; it matters only if the call gets as far as its [await], and the
    call is then known by its index. *)
Definition spawn (w : World) : World :=
  let awaits := negb (abort (this w)) && (0 <? len (queue (this w))) in
  let w := runTask w in
  set_attached
    (if awaits
     then attached w ++ [numActive (this w) + numComplete (this w)]
     else attached w) w.

(** The suspended call at position [n] is resumed. *)
Definition settle_call (n : nat) (in_try in_catch : Raise) (w : World)
  : option World :=
  match nth_error (suspended w) n with
  | Some s =>
      Some (resume s in_try in_catch
              (set_suspended (remove_nth n (suspended w)) w))
  | None => None
  end.

(** One event; [None] when it cannot happen in [w].  The listeners return,
    so that no error leaves the call that is resumed and the handler that
    the loop attached to it has nothing to run for; when a listener throws
    the step is a [Throwing] action, and the handler runs as a [Fatal]
    one (see [act] below). *)
Definition step (ev : Event) (w : World) : option World :=
  match ev with
  | Spawn =>
      if loop_i w <? concurrentLimit (this w)
      then Some (set_loop_i (loop_i w + 1) (spawn w))
      else None
  | Settle n => settle_call n None None w
  end.

Fixpoint exec (evs : list Event) (w : World) : option World :=
  match evs with
  | [] => Some w
  | ev :: rest =>
      match step ev w with
      | Some w' => exec rest w'
      | None => None
      end
  end.

(** Nothing is left to happen: the loop is over and no call is suspended. *)
Definition quiescent (w : World) : bool :=
  negb (loop_i w <? concurrentLimit (this w)) && (len (suspended w) =? 0).

(** The [.catch] handler of the loop, run for the error [e]. *)
Definition fatal (e : JsValue) (w : World) : World :=
  let w := print (verbose (this w)) (LogMessage "Fatal Error in runAll()") w in
  let w := print (verbose (this w)) (LogValue e) w in
  reject this_completeTasks e w.

(** Any step of a run: an event; the resumption of a call in which
    listeners throw as [in_try] and [in_catch] say; the handler of the
    [k]-th escaped error still waiting; [new Runner(n, { verbose: false })]
    somewhere else, which sets the module's [log] to a function that does
    nothing. *)
Inductive Action : Type :=
| Returning (ev : Event)
| Throwing (slot : nat) (in_try in_catch : Raise)
| Fatal (k : nat)
| Silenced.

Definition act (a : Action) (w : World) : option World :=
  match a with
  | Returning ev => step ev w
  | Throwing n in_try in_catch => settle_call n in_try in_catch w
  | Fatal k =>
      match nth_error (escaped w) k with
      | Some e => Some (fatal e (set_escaped (remove_nth k (escaped w)) w))
      | None => None
      end
  | Silenced => Some (set_log_live false w)
  end.

Fixpoint perform (acts : list Action) (w : World) : option World :=
  match acts with
  | [] => Some w
  | a :: rest =>
      match act a w with
      | Some w' => perform rest w'
      | None => None
      end
  end.

(* ------------------------------------------------------------------ *)
(** ** Runner.testRun *)

(** What [testRun] and [batchGPT] do before the run starts: the lines they
    print themselves, and the state in which [runAll] leaves the run. *)
Record Started : Type := {
  notices : list string;
  run : World
}.

(** Listeners of [testRun]: the one on ['taskCompleted'] prints the label
    and the result, the one on ['taskFailed'] calls [console.error]. *)
Definition testRun_completed : Listener := 5%nat.
Definition testRun_failed : Listener := 6%nat.

(** [randomPromise(i)], awaited.  [lucky i] is the outcome of
    [Math.random() > 0.05] for task [i]; the object it then resolves with
    is kept abstract. *)
Definition randomPromise (lucky : Z -> bool) (i : Z) : Awaited :=
  if lucky i
  then Returns (JsObject 0)
  else Throws (JsError ("Failed on task #" ++ to_string i)%string).

(** The body of [for (let i = 0; i < runs; i++)]: the callback takes no
    argument and closes over [i]. *)
Definition testRun_add (lucky : Z -> bool) (r : Runner) (i : nat) : Runner :=
  add (fun _ _ => randomPromise lucky (Z.of_nat i))
      (Some ("Task " ++ to_string (Z.of_nat i))%string) r.

(** [Runner.testRun(runs = 100, seconds = 3, options?)] up to the [await];
    [seconds] only scales the delays and is left to the scheduler. *)
Definition testRun (g : Globals) (lucky : Z -> bool) (runs : option Z)
    (options : option OptionsArg) : Started :=
  let (g, runner) := new_Runner g (Some 5) options in
  let runner :=
    fold_left (testRun_add lucky) (seq 0 (Z.to_nat (or_else runs 100))) runner in
  let runner := on taskCompleted testRun_completed runner in
  let runner := on taskFailed testRun_failed runner in
  {| notices := ["Test run..."%string];
     run := runAll g runner |}.

(** What [await runner.runAll().catch((e) => { console.error(e) })] gives
    once the promise is settled: the resolved value, or [undefined] after a
    rejection. *)
Definition testRun_returns (w : World) : option (option ArrayRef) :=
  match promise w with
  | Pending => None
  | Resolved results => Some (Some results)
  | Rejected _ _ => Some None
  end.

(* ------------------------------------------------------------------ *)
(** ** src/utils/gpt.ts and index.ts *)

(** [Message] (declared in src/types.ts), as these files use it. *)
Record Message : Type := {
  role : string;
  content : string
}.

(** The ice cream emoji, U+1F368, as its UTF-8 bytes. *)
Definition ice_cream : string :=
  String (Ascii.ascii_of_nat 240)
    (String (Ascii.ascii_of_nat 159)
       (String (Ascii.ascii_of_nat 141)
          (String (Ascii.ascii_of_nat 168) EmptyString))).

(** [exampleMessages(prompt, ...args)] *)
Definition exampleMessages (prompt : string) (args : list string)
  : list (list Message) :=
  map (fun p =>
         [ {| role := "system";
              content := "You are based. You must respond with only emojis." |};
           {| role := "user";
              content := "Hey, what is the best flavor of ice cream?" |};
           {| role := "assistant"; content := ice_cream |};
           {| role := "user"; content := p |} ])
      (prompt :: args).

(** index.ts: [MAX_PARALLEL_REQUESTS] and the four listeners: the two
    functions given as options, which do nothing, the one that pushes the
    result on [responses], and the one that calls [console.error]. *)
Definition MAX_PARALLEL_REQUESTS : Z := 5.
Definition option_onTaskComplete : Listener := 1%nat.
Definition option_onTaskFailed : Listener := 2%nat.
Definition push_response : Listener := 3%nat.
Definition log_error : Listener := 4%nat.

(** [const runner = new Runner<Completion>(MAX_PARALLEL_REQUESTS, {...})]
    followed by the two [runner.on(...)] calls. *)
Definition index_runner (g : Globals) : Globals * Runner :=
  let (g, runner) :=
    new_Runner g (Some MAX_PARALLEL_REQUESTS)
      (Some {| arg_verbose := Some true;
               arg_tolerance := Some Infinity;
               arg_onTaskComplete := Some option_onTaskComplete;
               arg_onTaskFailed := Some option_onTaskFailed |}) in
  let runner := on taskCompleted push_response runner in
  let runner := on taskFailed log_error runner in
  (g, runner).

(** [msgs.at(-1)?.content ?? 'prompt'] *)
Definition last_content (msgs : list Message) : string :=
  match rev msgs with
  | m :: _ => content m
  | [] => "prompt"%string
  end.

(** The messages [batchGPT] works on: its argument if not empty, else the
    [--messages] of the command line if they are an array, else the
    example messages. *)
Definition batch_messages (messages : list (list Message))
    (args_messages : option (list (list Message)))
  : list string * list (list Message) :=
  let messages :=
    if len messages =? 0
    then match args_messages with
         | Some given => messages ++ given
         | None => messages
         end
    else messages in
  if len messages =? 0
  then (["using example messages"%string],
        messages ++
        exampleMessages "What is the best animal?" ["What is the best food?"%string])
  else ([], messages).

(** [batchGPT(messages)] up to the [await].  [callGPT4 msgs] is what
    awaiting the request for [msgs] gives (the API call, or [dryRun()]);
    the task ignores the index and the label it is called with. *)
Definition batchGPT (dry_run : bool) (callGPT4 : list Message -> Awaited)
    (args_messages : option (list (list Message)))
    (g : Globals) (runner : Runner) (messages : list (list Message)) : Started :=
  let dry := if dry_run then ["dry run"%string] else [] in
  let (notice, messages) := batch_messages messages args_messages in
  let runner :=
    fold_left
      (fun runner msgs =>
         add (fun _ _ => callGPT4 msgs) (Some (last_content msgs)) runner)
      messages runner in
  {| notices := dry ++ notice;
     run := runAll g runner |}.

(** The main program of index.ts up to the [await]: the module-level
    statements that make the runner, then [batchGPT(messages)]. *)
Definition index_run (dry_run : bool) (callGPT4 : list Message -> Awaited)
    (args_messages : option (list (list Message)))
    (g : Globals) (messages : list (list Message)) : World :=
  run (batchGPT dry_run callGPT4 args_messages
         (fst (index_runner g)) (snd (index_runner g)) messages).

(** The outcome records a listener has been called with, oldest first. *)
Definition calls_of (h : Listener) (w : World) : list TaskEvent :=
  map snd (filter (fun c => Nat.eqb (fst c) h) (invoked w)).

(** The array [responses], filled by [({ result }) => responses.push(result)],
    and the values given to [console.error] by the ['taskFailed'] listener. *)
Definition responses (w : World) : list JsValue :=
  map result (calls_of push_response w).

Definition errors_logged (w : World) : list JsValue :=
  map error (calls_of log_error w).

(* ------------------------------------------------------------------ *)
(** ** src/utils/color.ts *)

(** [xs.slice(start, end)] for integers [start] and [end], on arrays and
    on the characters of a string: a negative bound counts from the end,
    and both are clamped to the length. *)
Definition slice_bound (n k : Z) : Z :=
  if k <? 0 then Z.max (n + k) 0 else Z.min k n.

Definition slice {A : Type} (start end_ : Z) (xs : list A) : list A :=
  let from := slice_bound (len xs) start in
  let to := slice_bound (len xs) end_ in
  firstn (Z.to_nat (to - from)) (skipn (Z.to_nat from) xs).

Definition string_slice (start end_ : Z) (s : string) : string :=
  string_of_list_ascii (slice start end_ (list_ascii_of_string s)).

(** [s.replace(/[-:.TZ]/g, '')] *)
Definition is_separator (c : Ascii.ascii) : bool :=
  existsb (Ascii.eqb c) (list_ascii_of_string "-:.TZ").

Definition strip_separators (s : string) : string :=
  string_of_list_ascii
    (filter (fun c => negb (is_separator c)) (list_ascii_of_string s)).

(** [timestamp()], as a function of what [new Date().toISOString()]
    returns. *)
Definition timestamp (toISOString : string) : string :=
  string_slice 2 12 (strip_separators toISOString).

(* ------------------------------------------------------------------ *)
(** ** src/utils/debrief.ts *)

(** [s.length] and [a + b] on strings; a character stands for one UTF-16
    code unit. *)
Definition str_len (s : string) : Z := Z.of_nat (String.length s).

(** [Object.fromEntries(entries)]: a key that comes again overwrites the
    value and keeps its place. *)
Fixpoint set_entry {V : Type} (k : string) (v : V) (es : list (string * V))
  : list (string * V) :=
  match es with
  | [] => [(k, v)]
  | (k', v') :: rest =>
      if String.eqb k' k then (k', v) :: rest else (k', v') :: set_entry k v rest
  end.

Definition fromEntries {V : Type} (es : list (string * V)) : list (string * V) :=
  fold_left (fun o kv => set_entry (fst kv) (snd kv) o) es [].

(** All the results, or the first [RangeError]. *)
Fixpoint all_values {V : Type} (xs : list (option V)) : option (list V) :=
  match xs with
  | [] => Some []
  | None :: _ => None
  | Some v :: rest =>
      match all_values rest with
      | Some vs => Some (v :: vs)
      | None => None
      end
  end.

Definition all_entries {V : Type} (es : list (string * option V))
  : option (list (string * V)) :=
  all_values (map (fun kv => match snd kv with
                             | Some v => Some (fst kv, v)
                             | None => None
                             end) es).

(** The options of [debrief]; a field left out takes its default. *)
Record DebriefOptions : Type := {
  opt_depth : option Z;
  opt_siblings : option Z;
  opt_trim : option Z;
  opt_verbose : option bool
}.

Section Debrief.

(** Numbers are kept abstract, with the operations [debrief] applies to
    them: [o.toString()], [o.toFixed(digits)] for [0 <= digits <= 100]
    (outside this range it throws a [RangeError]), and unary [+] on a
    string. *)
Variable Number : Type.
Variable number_toString : Number -> string.
Variable number_toFixed : Number -> Z -> string.
Variable to_Number : string -> Number.

(** The values [debrief] tells apart.  An array is the list of its
    elements; any other object is the list of its own enumerable
    string-keyed properties in the order of [Object.entries]; a function
    is its [name].  Values are finite trees: no value contains itself. *)
#[warnings="-register-all"]
Inductive Value : Type :=
| VNull
| VUndefined
| VBoolean (b : bool)
| VSymbol (id : nat)
| VArray (items : list Value)
| VObject (entries : list (string * Value))
| VString (s : string)
| VNumber (x : Number)
| VBigInt (z : Z)
| VFunction (name : string).

Variables depth siblings trim : Z.

(** [case 'string'] *)
Definition parse_string (s : string) : string :=
  if str_len s <? trim + 3 then s
  else (string_slice 0 trim s ++ "...")%string.

(** [case 'number']; [None] is the [RangeError] of [toFixed]. *)
Definition parse_number (x : Number) : option Value :=
  if str_len (number_toString x) >? trim + 3
  then if (0 <=? trim) && (trim <=? 100)
       then Some (VNumber (to_Number (number_toFixed x trim)))
       else None
  else Some (VNumber x).

(** [case 'bigint'] *)
Definition parse_bigint (z : Z) : Value :=
  VNumber (to_Number (string_slice 0 trim (to_string z))).

(** [parse(s, d)] for a string [s]. *)
Definition parse_text (s : string) (d : Z) : Value :=
  if d >? depth then VString "..." else VString (parse_string s).

(** [parse(o, d)].  The elements past [siblings] are dropped before any
    error is looked at, as [slice] comes before [map] in the source; the
    entry [['...', `${keyCount - siblings} more`]] goes through [parse]
    as a string. *)
Fixpoint parse (o : Value) (d : Z) {struct o} : option Value :=
  if d >? depth then Some (VString "...")
  else
    match o with
    | VNull => Some o
    | VBoolean _ | VSymbol _ | VUndefined => Some o
    | VArray items =>
        option_map VArray
          (all_values (slice 0 siblings (map (fun s => parse s d) items)))
    | VObject entries =>
        let keyCount := len entries in
        let parsed :=
          map (fun kv : string * Value =>
                 let (k, v) := kv in (k, parse v (d + 1))) entries in
        if keyCount <=? siblings
        then option_map (fun es => VObject (fromEntries es)) (all_entries parsed)
        else
          option_map (fun es => VObject (fromEntries es))
            (all_entries
               (slice 0 siblings parsed ++
                [("..."%string,
                  Some (parse_text
                          (to_string (keyCount - siblings) ++ " more")%string
                          (d + 1)))]))
    | VString s => Some (VString (parse_string s))
    | VNumber x => parse_number x
    | VBigInt z => Some (parse_bigint z)
    | VFunction name => Some (VString name)
    end.

End Debrief.

Arguments VNull {Number}.
Arguments VUndefined {Number}.
Arguments VBoolean {Number} b.
Arguments VSymbol {Number} id.
Arguments VString {Number} s.
Arguments VBigInt {Number} z.
Arguments VFunction {Number} name.
Arguments parse_text {Number} depth trim s d.

(** [debrief(obj, { depth = 2, siblings = 4, trim = 15, verbose = false })]:
    the value returned; what [verbose] prints is left out. *)
Definition debrief {Number : Type}
    (number_toString : Number -> string)
    (number_toFixed : Number -> Z -> string)
    (to_Number : string -> Number)
    (obj : Value Number) (options : option DebriefOptions)
  : option (Value Number) :=
  let depth := match options with Some o => or_else (opt_depth o) 2 | None => 2 end in
  let siblings := match options with Some o => or_else (opt_siblings o) 4 | None => 4 end in
  let trim := match options with Some o => or_else (opt_trim o) 15 | None => 15 end in
  parse number_toString number_toFixed to_Number depth siblings trim obj 0.

(* ------------------------------------------------------------------ *)
(** ** Definitions used to state the properties *)

(** A Runner as [new Runner(...)] leaves it, with any tasks and listeners
    added since: nothing has run yet. *)
Record Fresh (r : Runner) : Prop := {
  fresh_numActive : numActive r = 0;
  fresh_numComplete : numComplete r = 0;
  fresh_abort : abort r = false;
  fresh_completeTasks : completeTasks r = [];
  fresh_failedTasks : failedTasks r = []
}.

(** The outcome record that a suspended call builds when it is resumed:
    [taskResult] or [taskError]. *)
Definition outcome (s : Suspended) : TaskEvent :=
  match s_awaited s with
  | Returns v =>
      {| result := v; error := JsNull;
         meta := {| index := s_index s; label := s_label s |} |}
  | Throws e =>
      {| result := JsNull; error := e;
         meta := {| index := s_index s; label := s_label s |} |}
  end.

(** The call that dequeues [t] when [numActive + numComplete] reads [k]. *)
Definition start (k : Z) (t : TaskObj) : Suspended :=
  {| s_index := k; s_label := task_label t;
     s_awaited := cb t k (task_label t) |}.

(** The calls made for the tasks [ts], dequeued in order from count [k]. *)
Fixpoint started_from (k : Z) (ts : list TaskObj) : list Suspended :=
  match ts with
  | [] => []
  | t :: rest => start k t :: started_from (k + 1) rest
  end.

(** The [await] of the call returns (it does not throw). *)
Definition returned (s : Suspended) : bool :=
  match s_awaited s with
  | Returns _ => true
  | Throws _ => false
  end.

(** [#emit], the [try] block and the [catch] block when every listener
    that is called returns: the state that [emit], [on_return] and
    [on_throw] give for listeners that raise nothing. *)
Definition quiet_emit (event : EventName) (e : TaskEvent) (w : World) : World :=
  Eval cbv beta iota zeta delta [emit error_thrown calls_made fst] in
  fst (emit event e None w).

Definition quiet_return (s : Suspended) (v : JsValue) (w : World) : World :=
  Eval cbv beta iota zeta delta [on_return emit error_thrown calls_made fst] in
  fst (on_return s v None None w).

Definition quiet_throw (s : Suspended) (e : JsValue) (w : World) : World :=
  Eval cbv beta iota zeta delta [on_throw emit error_thrown calls_made fst] in
  fst (on_throw s e None w).

(** The resumption of a call in that case: no error leaves the call, and
    [resume s None None] is this (lemma [resume_returning]). *)
Definition quiet_resume (s : Suspended) (w : World) : World :=
  finally match s_awaited s with
          | Returns v => quiet_return s v w
          | Throws e => quiet_throw s e w
          end.

(** Bookkeeping invariant of a run on the queue [q0]: [done] are the tasks
    dequeued so far, [cs] and [fs] the calls that have returned and thrown. *)
Record Books (q0 done : list TaskObj) (cs fs : list Suspended) (w : World) : Prop := {
  bk_queue : q0 = done ++ queue (this w);
  bk_total : numTotal (this w) = len q0;
  bk_active : numActive (this w) = len (suspended w);
  bk_complete : numComplete (this w) = len cs + len fs;
  bk_completeTasks : completeTasks (this w) = map outcome cs;
  bk_failedTasks : failedTasks (this w) = map outcome fs;
  bk_returned : forallb returned cs = true;
  bk_threw : forallb (fun s => negb (returned s)) fs = true;
  bk_started : Permutation (suspended w ++ cs ++ fs) (started_from 1 done)
}.

(** Control invariant of a run: the abort flag, the promise and the loop. *)
Record Control (w : World) : Prop := {
  ct_active : numActive (this w) = len (suspended w);
  ct_complete : 0 <= numComplete (this w);
  ct_loop : len (suspended w) <= loop_i w <= Z.max 0 (concurrentLimit (this w));
  ct_abort : abort (this w) =
             (0 <? len (failedTasks (this w))) &&
             gt (len (failedTasks (this w))) (tolerance (this w));
  ct_promise : match promise w with
               | Pending =>
                   abort (this w) = false /\
                   (numComplete (this w) = 0 \/ suspended w <> [])
               | Resolved _ =>
                   abort (this w) = false /\ suspended w = [] /\ queue (this w) = []
               | Rejected _ _ => abort (this w) = true
               end;
  ct_alive : abort (this w) = false -> 1 <= loop_i w ->
             queue (this w) <> [] -> suspended w <> []
}.

(** What holds between the resumption of a call and its [finally]. *)
Record Settling (w : World) : Prop := {
  sg_active : numActive (this w) = len (suspended w) + 1;
  sg_complete : 0 <= numComplete (this w);
  sg_loop : len (suspended w) + 1 <= loop_i w <= Z.max 0 (concurrentLimit (this w));
  sg_abort : abort (this w) =
             (0 <? len (failedTasks (this w))) &&
             gt (len (failedTasks (this w))) (tolerance (this w));
  sg_promise : match promise w with
               | Pending => abort (this w) = false
               | Resolved _ => False
               | Rejected _ _ => abort (this w) = true
               end
}.

(** The fields that a run only reads. *)
Record SameConfig (w w' : World) : Prop := {
  cfg_limit : concurrentLimit (this w') = concurrentLimit (this w);
  cfg_verbose : verbose (this w') = verbose (this w);
  cfg_tolerance : tolerance (this w') = tolerance (this w);
  cfg_listeners : listeners (this w') = listeners (this w);
  cfg_total : numTotal (this w') = numTotal (this w);
  cfg_log : log_live w' = log_live w
}.

(** The number of events a run can still take: loop iterations left, calls
    suspended and tasks queued. *)
Definition fuel (w : World) : nat :=
  (Z.to_nat (concurrentLimit (this w) - loop_i w)
   + List.length (suspended w) + List.length (queue (this w)))%nat.

(* ------------------------------------------------------------------ *)
(** ** Example runs *)

(** A task that resolves with [v], and one that rejects with
    [new Error(msg)]. *)
Definition succeed (v : JsValue) : Task := fun _ _ => Returns v.
Definition fail (msg : string) : Task := fun _ _ => Throws (JsError msg).

(** [new Runner(limit, { verbose, tolerance })] in a freshly loaded module,
    then [addMany(tasks)] and [runAll()]. *)
Definition example_options (vb : bool) (tol : Num) : OptionsArg :=
  {| arg_verbose := Some vb; arg_tolerance := Some tol;
     arg_onTaskComplete := None; arg_onTaskFailed := None |}.

Definition example_module (limit : Z) (vb : bool) (tol : Num) : Globals :=
  fst (new_Runner module_loaded (Some limit) (Some (example_options vb tol))).

Definition example_runner (limit : Z) (vb : bool) (tol : Num) (tasks : list Task)
  : Runner :=
  addMany tasks None
    (snd (new_Runner module_loaded (Some limit) (Some (example_options vb tol)))).

Definition example_run (limit : Z) (vb : bool) (tol : Num) (tasks : list Task)
  : World :=
  runAll (example_module limit vb tol) (example_runner limit vb tol tasks).

(** The state after the schedule [evs], or [w] when [evs] cannot happen. *)
Definition after (evs : list Event) (w : World) : World :=
  match exec evs w with
  | Some w' => w'
  | None => w
  end.

(** The same for any steps. *)
Definition after_all (acts : list Action) (w : World) : World :=
  match perform acts w with
  | Some w' => w'
  | None => w
  end.

(** A step in which every listener that is called returns: an event, or
    the construction elsewhere of a Runner that is not verbose. *)
Definition returning (a : Action) : bool :=
  match a with
  | Returning _ | Silenced => true
  | Throwing _ _ _ | Fatal _ => false
  end.

(** A run in which every listener that is called returns.  No error leaves
    a call of [runTask] in such a run, so that the handler of the loop has
    nothing to run for. *)
Definition listeners_return (acts : list Action) : bool := forallb returning acts.

(** An undisturbed run: every listener that is called returns and no
    Runner is constructed meanwhile, so that all its steps are events. *)
Definition is_event (a : Action) : bool :=
  match a with
  | Returning _ => true
  | _ => false
  end.

Definition undisturbed (acts : list Action) : bool := forallb is_event acts.

(** The events among the steps. *)
Definition events (acts : list Action) : list Event :=
  flat_map (fun a => match a with
                     | Returning ev => [ev]
                     | _ => []
                     end) acts.

(** [new Runner(1, { verbose: false, tolerance: 1 })] with listener [1] on
    ['taskCompleted'], listener [2] on ['taskFailed'] and one task that
    rejects; then [runAll()]. *)
Definition dispatch_runner : Runner :=
  add (fail "boom") None
    (on taskFailed 2%nat
       (on taskCompleted 1%nat
          (snd (new_Runner module_loaded (Some 1)
                  (Some (example_options false (Fin 1))))))).

Definition dispatch_run : World :=
  runAll (example_module 1 false (Fin 1)) dispatch_runner.

(** The [TaskError] of that task. *)
Definition boom : TaskEvent :=
  {| result := JsNull; error := JsError "boom";
     meta := {| index := 1; label := None |} |}.

(** The same with any limit, tolerance and tasks: listener [1] on
    ['taskCompleted'], listener [2] on ['taskFailed'], not verbose. *)
Definition listening_runner (limit : Z) (tol : Num) (tasks : list Task) : Runner :=
  addMany tasks None
    (on taskFailed 2%nat
       (on taskCompleted 1%nat
          (snd (new_Runner module_loaded (Some limit)
                  (Some (example_options false tol)))))).


(** [new Runner().runAll()]: default limit and options, nothing added. *)
Definition empty_run : World :=
  runAll (fst (new_Runner module_loaded None None))
    (snd (new_Runner module_loaded None None)).

(* ------------------------------------------------------------------ *)
(** ** Definitions used to state further properties *)

(** [cbs] paired with [labels] position by position; a task past the end
    of [labels] has no label. *)
Fixpoint pair_labels (cbs : list Task) (labels : list string) : list TaskObj :=
  match cbs with
  | [] => []
  | f :: rest =>
      {| cb := f; task_label := hd_error labels |} :: pair_labels rest (tl labels)
  end.

(** Lines printed with [l], which no constructor ever silences. *)
Definition printed_with_l (line : LogLine) : bool :=
  match line with
  | LogProgress _ _ | LogMessage _ | LogValue _ => true
  | _ => false
  end.

(** What the counters of a run on the Runner [r] keep, whatever the
    listeners do: the active calls are the suspended ones, at most one per
    iteration of the loop; every task is queued, active or counted as
    complete; a call counted as complete has one entry in the accumulators,
    or two. *)
Record Counters (r : Runner) (w : World) : Prop := {
  cn_limit : concurrentLimit (this w) = concurrentLimit r;
  cn_active : numActive (this w) = len (suspended w);
  cn_complete : 0 <= numComplete (this w);
  cn_sum : numActive (this w) + numComplete (this w) + len (queue (this w))
           = len (queue r);
  cn_loop : len (suspended w) <= loop_i w <= Z.max 0 (concurrentLimit r);
  cn_entries : numComplete (this w)
               <= len (completeTasks (this w)) + len (failedTasks (this w))
               <= 2 * numComplete (this w)
}.

(** What the abort flag and the promise tell in any run, whatever the
    listeners do: the flag is set only together with a rejection, and with
    more failures on record than are tolerated; a resolved promise means
    that nothing is queued or in flight. *)
Record Verdict (w : World) : Prop := {
  vd_active : numActive (this w) = len (suspended w);
  vd_abort : abort (this w) = true ->
             (exists res err, promise w = Rejected res err) /\
             gt (len (failedTasks (this w))) (tolerance (this w)) = true;
  vd_resolved : forall res, promise w = Resolved res ->
                suspended w = [] /\ queue (this w) = []
}.

(** A task that never resolves with an [Error] object. *)
Definition no_Error_result (t : TaskObj) : Prop :=
  forall i lbl v, cb t i lbl = Returns v -> instanceof_Error v = false.

Definition no_Error_awaited (s : Suspended) : Prop :=
  forall v, s_awaited s = Returns v -> instanceof_Error v = false.

(** [w'] continues [w]: the abort flag is not cleared, a settled promise is
    left alone, the accumulators, the listener calls and the console only
    get longer at the end, and the queue only loses tasks at its head. *)
Record Extends (w w' : World) : Prop := {
  ext_abort : abort (this w) = true -> abort (this w') = true;
  ext_promise : promise w <> Pending -> promise w' = promise w;
  ext_completeTasks :
    exists more, completeTasks (this w') = completeTasks (this w) ++ more;
  ext_failedTasks :
    exists more, failedTasks (this w') = failedTasks (this w) ++ more;
  ext_invoked : exists more, invoked w' = invoked w ++ more;
  ext_console : exists more, console w' = console w ++ more;
  ext_queue : exists taken, queue (this w) = taken ++ queue (this w')
}.

(** What may be printed when the Runner's verbosity is [vb] and the module's
    [log] is still [l] or not ([ll]): nothing when both are off, and only
    [l] lines when [log] is off. *)
Definition prints_ok (vb ll : bool) (more : list LogLine) : Prop :=
  (vb = false -> ll = false -> more = []) /\
  (ll = false -> Forall (fun line => printed_with_l line = true) more).

Record Prints (w w' : World) : Prop := {
  pr_verbose : verbose (this w') = verbose (this w);
  pr_log : log_live w' = log_live w;
  pr_console :
    exists more,
      console w' = console w ++ more /\
      prints_ok (verbose (this w)) (log_live w) more
}.

(** The lines of the progress counter. *)
Definition is_progress (line : LogLine) : bool :=
  match line with
  | LogProgress _ _ => true
  | _ => false
  end.

(** The counter lines [1/total], ..., [m/total] of a verbose Runner. *)
Definition progress_upto (vb : bool) (total m : Z) : list LogLine :=
  if vb
  then map (fun k => LogProgress (Z.of_nat k) total) (seq 1 (Z.to_nat m))
  else [].

(** The counter lines on the console are those of the tasks started. *)
Definition Counted (w : World) : Prop :=
  filter is_progress (console w)
  = progress_upto (verbose (this w)) (numTotal (this w))
      (numActive (this w) + numComplete (this w)).

(** The lines of [#logCompletionStatus]. *)
Definition is_status (line : LogLine) : bool :=
  match line with
  | LogCompleted _ _ | LogFailedSummary _ => true
  | _ => false
  end.

(** What [#logCompletionStatus] prints for a verbose Runner [r]. *)
Definition status_lines (r : Runner) : list LogLine :=
  LogCompleted (numComplete r - len (failedTasks r)) (numComplete r) ::
  (if 0 <? len (failedTasks r)
   then [LogFailedSummary (map (fun e => label_or_index (meta e)) (failedTasks r))]
   else []).

(** The completion status is on the console when the promise is resolved,
    as the last thing printed, and not before. *)
Definition Reported (w : World) : Prop :=
  match promise w with
  | Pending => filter is_status (console w) = []
  | Resolved _ =>
      exists before,
        console w = before ++ status_lines (this w) /\
        filter is_status before = []
  | Rejected _ _ => True
  end.

(** A string without any of the characters that [timestamp] removes. *)
Definition plain (s : string) : bool :=
  forallb (fun c => negb (is_separator c)) (list_ascii_of_string s).

(* ------------------------------------------------------------------ *)
(** ** Shapes of the values given to and returned by [debrief] *)

(** No key comes twice. *)
Fixpoint no_repeat (ks : list string) : bool :=
  match ks with
  | [] => true
  | k :: rest => negb (existsb (String.eqb k) rest) && no_repeat rest
  end.

Section Shape.

Variable Number : Type.

(** How deep objects are nested in objects; arrays do not count. *)
Fixpoint height (v : Value Number) : Z :=
  match v with
  | VArray items => fold_right (fun x m => Z.max (height x) m) 0 items
  | VObject entries =>
      1 + fold_right (fun (kv : string * Value Number) m =>
                        let (_, x) := kv in Z.max (height x) m) 0 entries
  | _ => 0
  end.

(** No array has more than [n] elements and no object more than [n + 1]
    entries. *)
Fixpoint breadth (n : Z) (v : Value Number) : bool :=
  match v with
  | VArray items => (len items <=? n) && forallb (breadth n) items
  | VObject entries =>
      (len entries <=? n + 1) &&
      forallb (fun kv : string * Value Number =>
                 let (_, x) := kv in breadth n x) entries
  | _ => true
  end.

(** The keys of every object are distinct, as they are in JavaScript. *)
Fixpoint distinct_keys (v : Value Number) : bool :=
  match v with
  | VArray items => forallb distinct_keys items
  | VObject entries =>
      no_repeat (map fst entries) &&
      forallb (fun kv : string * Value Number =>
                 let (_, x) := kv in distinct_keys x) entries
  | _ => true
  end.

Variable number_toString : Number -> string.
Variables depth siblings trim : Z.

(** A value that is within all the limits when looked at at level [d]:
    no object below [depth], no array or object with more than [siblings]
    members, no string of [trim + 3] characters or more, no number whose
    text has more than [trim + 3], no bigint and no function. *)
Fixpoint fits (o : Value Number) (d : Z) : bool :=
  (d <=? depth) &&
  match o with
  | VNull | VUndefined | VBoolean _ | VSymbol _ => true
  | VArray items =>
      (len items <=? siblings) && forallb (fun s => fits s d) items
  | VObject entries =>
      (len entries <=? siblings) &&
      forallb (fun kv : string * Value Number =>
                 let (_, x) := kv in fits x (d + 1)) entries
  | VString s => str_len s <? trim + 3
  | VNumber x => negb (str_len (number_toString x) >? trim + 3)
  | VBigInt _ | VFunction _ => false
  end.

End Shape.

(** Integers as numbers: the text of an integer, [toFixed], which appends
    a fraction of zeros, and [+s] for such texts. *)
Definition integer_toFixed (n digits : Z) : string :=
  let zeros := string_of_list_ascii (repeat (Ascii.ascii_of_nat 48) (Z.to_nat digits)) in
  if 0 <? digits then (to_string n ++ "." ++ zeros)%string else to_string n.

Definition integer_of_text (s : string) : Z :=
  let whole := match String.index 0 "." s with
               | Some n => substring 0 n s
               | None => s
               end in
  match NilZero.int_of_string whole with
  | Some i => Z.of_int i
  | None => 0
  end.

Section Texts.

Variable Number : Type.

(** No string in the value has more than [n] characters. *)
Fixpoint texts_within (n : Z) (v : Value Number) : bool :=
  match v with
  | VString s => str_len s <=? n
  | VArray items => forallb (texts_within n) items
  | VObject entries =>
      forallb (fun kv : string * Value Number =>
                 let (_, x) := kv in texts_within n x) entries
  | _ => true
  end.

(** No function anywhere in the value. *)
Fixpoint no_functions (v : Value Number) : bool :=
  match v with
  | VFunction _ => false
  | VArray items => forallb no_functions items
  | VObject entries =>
      forallb (fun kv : string * Value Number =>
                 let (_, x) := kv in no_functions x) entries
  | _ => true
  end.

End Texts.

(** Induction on values, with the property known of the members of an
    array and of an object. *)
Section Value_induction.

Variable Number : Type.
Variable P : Value Number -> Prop.

Hypothesis HNull : P VNull.
Hypothesis HUndefined : P VUndefined.
Hypothesis HBoolean : forall b, P (VBoolean b).
Hypothesis HSymbol : forall id, P (VSymbol id).
Hypothesis HArray : forall items, Forall P items -> P (VArray items).
Hypothesis HObject :
  forall entries, Forall (fun kv => P (snd kv)) entries -> P (VObject entries).
Hypothesis HString : forall s, P (VString s).
Hypothesis HNumber : forall x, P (VNumber x).
Hypothesis HBigInt : forall z, P (VBigInt z).
Hypothesis HFunction : forall name, P (VFunction name).

Fixpoint Value_nested_ind (o : Value Number) : P o :=
  match o with
  | VNull => HNull
  | VUndefined => HUndefined
  | VBoolean b => HBoolean b
  | VSymbol id => HSymbol id
  | VArray items =>
      HArray
        ((fix members (xs : list (Value Number)) : Forall P xs :=
            match xs with
            | [] => Forall_nil _
            | x :: rest => Forall_cons x (Value_nested_ind x) (members rest)
            end) items)
  | VObject entries =>
      HObject
        ((fix members (es : list (string * Value Number))
            : Forall (fun kv => P (snd kv)) es :=
            match es with
            | [] => Forall_nil _
            | (k, x) :: rest =>
                Forall_cons (k, x) (Value_nested_ind x) (members rest)
            end) entries)
  | VString s => HString s
  | VNumber x => HNumber x
  | VBigInt z => HBigInt z
  | VFunction name => HFunction name
  end.

End Value_induction.

(* ------------------------------------------------------------------ *)
(** ** Lists and lengths *)

(** Case analysis on the condition of an [if] in the goal. *)
Ltac case_if :=
  match goal with |- context [if ?c then _ else _] => destruct c end.

Tactic Notation "case_if" "as" ident(E) :=
  match goal with |- context [if ?c then _ else _] => destruct c eqn:E end.

Section Lists.

Context {A : Type}.

Lemma len_app (a b : list A) : len (a ++ b) = len a + len b.
Proof. unfold len. rewrite length_app. lia. Qed.

Lemma len_nonneg (a : list A) : 0 <= len a.
Proof. unfold len. lia. Qed.

Lemma len_cons (x : A) a : len (x :: a) = 1 + len a.
Proof. unfold len. simpl List.length. lia. Qed.

Lemma len_nil : len (@nil A) = 0.
Proof. reflexivity. Qed.

Lemma len_snoc (a : list A) x : len (a ++ [x]) = len a + 1.
Proof. rewrite len_app, len_cons. reflexivity. Qed.

Lemma len_0 (a : list A) : len a = 0 -> a = [].
Proof.
  destruct a as [|x a]; [reflexivity|].
  rewrite len_cons. pose proof (len_nonneg a). lia.
Qed.

Lemma snoc_not_nil (a : list A) x : a ++ [x] <> [].
Proof. intros X. apply app_eq_nil in X. destruct X; discriminate. Qed.

Lemma cons_neq_tail (x : A) xs : x :: xs <> xs.
Proof.
  intros X. apply (f_equal (@List.length A)) in X. simpl in X. lia.
Qed.

Lemma remove_nth_middle (l1 l2 : list A) a :
  remove_nth (List.length l1) (l1 ++ a :: l2) = l1 ++ l2.
Proof.
  unfold remove_nth. f_equal.
  - rewrite firstn_app, firstn_all, Nat.sub_diag. simpl. apply app_nil_r.
  - replace (S (List.length l1)) with (List.length (l1 ++ [a]))
      by (rewrite length_app; simpl; lia).
    replace (l1 ++ a :: l2) with ((l1 ++ [a]) ++ l2)
      by (rewrite <- app_assoc; reflexivity).
    rewrite skipn_app, skipn_all, Nat.sub_diag. reflexivity.
Qed.

Lemma Permutation_snoc_middle (S C D : list A) x :
  Permutation (S ++ C) D -> Permutation ((S ++ [x]) ++ C) (D ++ [x]).
Proof.
  intros H. rewrite <- app_assoc.
  etransitivity; [apply Permutation_app_head, (Permutation_app_comm [x] C)|].
  rewrite app_assoc. apply Permutation_app_tail. assumption.
Qed.

Lemma Permutation_settle_left (l1 l2 c f : list A) s :
  Permutation ((l1 ++ l2) ++ (c ++ [s]) ++ f) ((l1 ++ s :: l2) ++ c ++ f).
Proof.
  replace ((l1 ++ l2) ++ (c ++ [s]) ++ f) with ((l1 ++ l2 ++ c) ++ s :: f)
    by (repeat rewrite <- app_assoc; reflexivity).
  replace ((l1 ++ s :: l2) ++ c ++ f) with (l1 ++ s :: (l2 ++ c ++ f))
    by (repeat rewrite <- app_assoc; reflexivity).
  etransitivity; [symmetry; apply Permutation_middle|].
  etransitivity; [|apply Permutation_middle].
  repeat rewrite <- app_assoc. reflexivity.
Qed.

Lemma Permutation_settle_right (l1 l2 c f : list A) s :
  Permutation ((l1 ++ l2) ++ c ++ f ++ [s]) ((l1 ++ s :: l2) ++ c ++ f).
Proof.
  replace ((l1 ++ l2) ++ c ++ f ++ [s]) with ((l1 ++ l2 ++ c ++ f) ++ [s])
    by (repeat rewrite <- app_assoc; reflexivity).
  replace ((l1 ++ s :: l2) ++ c ++ f) with (l1 ++ s :: (l2 ++ c ++ f))
    by (repeat rewrite <- app_assoc; reflexivity).
  etransitivity; [symmetry; apply Permutation_cons_append|].
  apply Permutation_middle.
Qed.

Lemma Permutation_filter_both (f : A -> bool) (a b : list A) :
  Permutation a b -> Permutation (filter f a) (filter f b).
Proof.
  induction 1 as [|x a b _ IH|x y a|a b c _ IH1 _ IH2]; simpl.
  - constructor.
  - destruct (f x); [constructor|]; assumption.
  - destruct (f x), (f y); try reflexivity. apply perm_swap.
  - etransitivity; eassumption.
Qed.

Lemma filter_none (f : A -> bool) (a : list A) :
  forallb (fun x => negb (f x)) a = true -> filter f a = [].
Proof.
  induction a as [|x a IH]; simpl; [reflexivity|].
  intros H. apply andb_prop in H. destruct H as [Hx Ha].
  apply negb_true_iff in Hx. rewrite Hx. auto.
Qed.

Lemma nth_error_hd_skipn (xs : list A) k :
  nth_error xs k = hd_error (skipn k xs) /\ skipn (S k) xs = tl (skipn k xs).
Proof.
  revert xs. induction k as [|k IH]; intros [|x xs]; simpl; auto.
Qed.

Lemma calls_over_indices {B} (f : A -> B) (xs : list A) k n :
  flat_map (fun i => match nth_error xs i with
                     | Some h => [f h]
                     | None => []
                     end) (seq k n)
  = map f (firstn n (skipn k xs)).
Proof.
  revert k. induction n as [|n IH]; intros k; simpl; [reflexivity|].
  rewrite IH. destruct (nth_error_hd_skipn xs k) as [-> ->].
  destruct (skipn k xs); simpl; [destruct n; reflexivity|reflexivity].
Qed.

End Lists.

Lemma gt_mono n m t : gt n t = true -> n <= m -> gt m t = true.
Proof. destruct t; simpl; [|discriminate]. rewrite !Z.ltb_lt. lia. Qed.

Lemma gt_mono_false n m t : gt m t = false -> n <= m -> gt n t = false.
Proof.
  intros H Hle. destruct (gt n t) eqn:E; [|reflexivity].
  rewrite (gt_mono _ E Hle) in H. discriminate.
Qed.

(* ------------------------------------------------------------------ *)
(** ** What a step does *)

Arguments settle_call n in_try in_catch w /.

(** With no [Raise] the run functions are the quiet ones. *)
Lemma emit_returning event e w : emit event e None w = (quiet_emit event e w, None).
Proof. reflexivity. Qed.

Lemma on_throw_returning s e w :
  on_throw s e None w = (quiet_throw s e w, None).
Proof. reflexivity. Qed.

Lemma on_return_returning s v in_catch w :
  on_return s v None in_catch w = (quiet_return s v w, None).
Proof. reflexivity. Qed.

Lemma resume_returning s w : resume s None None w = quiet_resume s w.
Proof.
  unfold resume, quiet_resume.
  destruct (s_awaited s);
    [rewrite on_return_returning|rewrite on_throw_returning]; reflexivity.
Qed.

Lemma step_inv ev w w' :
  step ev w = Some w' ->
  (ev = Spawn /\ loop_i w < concurrentLimit (this w) /\
   w' = set_loop_i (loop_i w + 1) (set_attached (attached (spawn w)) (runTask w))) \/
  (exists s l1 l2,
      ev = Settle (List.length l1) /\ suspended w = l1 ++ s :: l2 /\
      w' = quiet_resume s (set_suspended (l1 ++ l2) w)).
Proof.
  destruct ev as [|n]; simpl.
  - destruct (Z.ltb_spec (loop_i w) (concurrentLimit (this w))); [|discriminate].
    intros [= <-]. left. auto.
  - unfold settle_call.
    destruct (nth_error (suspended w) n) as [s|] eqn:E; [|discriminate].
    intros [= <-]. right. rewrite resume_returning.
    destruct (nth_error_split _ _ E) as (l1 & l2 & Hl & Hn).
    exists s, l1, l2. subst n. rewrite Hl at 2. rewrite remove_nth_middle. auto.
Qed.

(** An undisturbed run is the run of its events. *)
Lemma perform_undisturbed acts w :
  undisturbed acts = true -> perform acts w = exec (events acts) w.
Proof.
  revert w. induction acts as [|a acts IH]; intros w; simpl; [reflexivity|].
  intros U. apply andb_prop in U. destruct U as [Ua U].
  destruct a; try discriminate Ua. simpl.
  destruct (step ev w); [apply IH; exact U|reflexivity].
Qed.

Lemma perform_events evs w : perform (map Returning evs) w = exec evs w.
Proof.
  revert w. induction evs as [|ev evs IH]; intros w; simpl; [reflexivity|].
  destruct (step ev w); [apply IH|reflexivity].
Qed.

Lemma listeners_return_events evs : listeners_return (map Returning evs) = true.
Proof. induction evs; simpl; auto. Qed.

Lemma perform_app acts1 acts2 w :
  perform (acts1 ++ acts2) w =
  match perform acts1 w with
  | Some w' => perform acts2 w'
  | None => None
  end.
Proof.
  revert w. induction acts1 as [|a acts1 IH]; intros w; simpl; [reflexivity|].
  destruct (act a w); [apply IH|reflexivity].
Qed.

(** What every event keeps, and the construction of another Runner too,
    holds all along a run in which the listeners return. *)
Lemma perform_listening (P : World -> Prop) :
  (forall ev w w', P w -> step ev w = Some w' -> P w') ->
  (forall w, P w -> P (set_log_live false w)) ->
  forall acts w w',
    listeners_return acts = true -> P w -> perform acts w = Some w' -> P w'.
Proof.
  intros Hs Hq acts. induction acts as [|a acts IH]; intros w w' U Pw; simpl.
  - intros [= <-]. assumption.
  - simpl in U. apply andb_prop in U. destruct U as [Ua U].
    destruct a as [ev| | |]; try discriminate Ua; simpl.
    + destruct (step ev w) as [w1|] eqn:S1; [|discriminate].
      apply IH; eauto.
    + apply IH; auto.
Qed.

Lemma exec_app evs1 evs2 w :
  exec (evs1 ++ evs2) w =
  match exec evs1 w with
  | Some w' => exec evs2 w'
  | None => None
  end.
Proof.
  revert w. induction evs1 as [|ev evs1 IH]; intros w; simpl; [reflexivity|].
  destruct (step ev w); [apply IH|reflexivity].
Qed.

Lemma outcome_Returns s v :
  s_awaited s = Returns v ->
  outcome s = {| result := v; error := JsNull;
                 meta := {| index := s_index s; label := s_label s |} |}.
Proof. unfold outcome. intros ->. reflexivity. Qed.

Lemma outcome_Throws s e :
  s_awaited s = Throws e ->
  outcome s = {| result := JsNull; error := e;
                 meta := {| index := s_index s; label := s_label s |} |}.
Proof. unfold outcome. intros ->. reflexivity. Qed.

Lemma started_from_app k a b :
  started_from k (a ++ b) = started_from k a ++ started_from (k + len a) b.
Proof.
  revert k; induction a as [|t a IH]; intros k; simpl.
  - unfold len; simpl. f_equal. lia.
  - rewrite IH. do 3 f_equal. unfold len. simpl List.length. lia.
Qed.

Lemma length_started_from k a : List.length (started_from k a) = List.length a.
Proof. revert k; induction a; intros; simpl; auto. Qed.

Lemma loop_i_runTask w : loop_i (runTask w) = loop_i w.
Proof.
  unfold runTask. destruct (abort (this w)); [reflexivity|].
  destruct (queue (this w)); reflexivity.
Qed.

Lemma loop_i_finally w : loop_i (finally w) = loop_i w.
Proof.
  unfold finally.
  case_if;
    [reflexivity|rewrite loop_i_runTask; reflexivity].
Qed.

Lemma on_throw_unchanged s e w :
  let w' := quiet_throw s e w in
  suspended w' = suspended w /\ queue (this w') = queue (this w) /\
  loop_i w' = loop_i w /\ completeTasks (this w') = completeTasks (this w) /\
  numActive (this w') = numActive (this w) /\
  numComplete (this w') = numComplete (this w).
Proof.
  unfold quiet_throw.
  case_if;
    repeat split; reflexivity.
Qed.

(** What [runTask] and [finally] leave as it is. *)
Lemma runTask_ledger w :
  abort (this (runTask w)) = abort (this w) /\
  completeTasks (this (runTask w)) = completeTasks (this w) /\
  failedTasks (this (runTask w)) = failedTasks (this w) /\
  invoked (runTask w) = invoked w /\
  promise (runTask w) = promise w /\
  numComplete (this (runTask w)) = numComplete (this w).
Proof.
  unfold runTask. destruct (abort (this w)) eqn:Ab; [repeat split; auto|].
  destruct (queue (this w)); repeat split; auto.
Qed.

Lemma finally_ledger w :
  abort (this (finally w)) = abort (this w) /\
  completeTasks (this (finally w)) = completeTasks (this w) /\
  failedTasks (this (finally w)) = failedTasks (this w) /\
  invoked (finally w) = invoked w /\
  (promise (finally w) = promise w \/
   promise w = Pending /\ promise (finally w) = Resolved this_completeTasks).
Proof.
  unfold finally.
  case_if.
  - repeat split; try reflexivity. simpl.
    destruct (promise w); auto.
  - match goal with |- context [runTask ?x] =>
      destruct (runTask_ledger x) as (-> & -> & -> & -> & -> & _) end.
    repeat split; try reflexivity. left. reflexivity.
Qed.


(** [runTask] when it takes a task off the queue. *)
Lemma runTask_dequeue w t rest :
  queue (this w) = t :: rest ->
  queue (this (runTask w)) = rest ->
  suspended (runTask w)
  = suspended w ++ [start (numActive (this w) + 1 + numComplete (this w)) t] /\
  numActive (this (runTask w)) = numActive (this w) + 1 /\
  numComplete (this (runTask w)) = numComplete (this w).
Proof.
  intros Q. unfold runTask. destruct (abort (this w)).
  - rewrite Q. intros X. destruct (cons_neq_tail X).
  - rewrite Q. simpl. intros _. repeat split; reflexivity.
Qed.

(* ------------------------------------------------------------------ *)
(** ** The fields a run only reads *)

Lemma SameConfig_refl w : SameConfig w w.
Proof. constructor; reflexivity. Qed.

Lemma SameConfig_trans w1 w2 w3 :
  SameConfig w1 w2 -> SameConfig w2 w3 -> SameConfig w1 w3.
Proof. intros [] []. constructor; congruence. Qed.

Lemma runTask_SameConfig w : SameConfig w (runTask w).
Proof.
  unfold runTask. destruct (abort (this w)); [apply SameConfig_refl|].
  destruct (queue (this w)); [apply SameConfig_refl|].
  constructor; reflexivity.
Qed.

Lemma finally_SameConfig w : SameConfig w (finally w).
Proof.
  unfold finally.
  case_if.
  - constructor; reflexivity.
  - eapply SameConfig_trans; [|apply runTask_SameConfig]. constructor; reflexivity.
Qed.

Lemma on_throw_SameConfig s e w : SameConfig w (quiet_throw s e w).
Proof.
  unfold quiet_throw.
  case_if;
    constructor; reflexivity.
Qed.

Lemma resume_SameConfig s w : SameConfig w (quiet_resume s w).
Proof.
  unfold quiet_resume. eapply SameConfig_trans; [|apply finally_SameConfig].
  destruct (s_awaited s); [constructor; reflexivity|apply on_throw_SameConfig].
Qed.

Lemma step_SameConfig ev w w' : step ev w = Some w' -> SameConfig w w'.
Proof.
  intros H. apply step_inv in H.
  destruct H as [(-> & Hlt & ->) | (s & l1 & l2 & -> & Hs & ->)].
  - destruct (runTask_SameConfig w). constructor; assumption.
  - destruct (resume_SameConfig s (set_suspended (l1 ++ l2) w)).
    constructor; assumption.
Qed.

Lemma exec_SameConfig evs w w' : exec evs w = Some w' -> SameConfig w w'.
Proof.
  revert w. induction evs as [|ev evs IH]; intros w; simpl.
  - intros [= <-]. apply SameConfig_refl.
  - destruct (step ev w) as [w1|] eqn:S1; [|discriminate].
    intros H. eapply SameConfig_trans; [eapply step_SameConfig; eassumption|].
    apply IH. assumption.
Qed.

(* ------------------------------------------------------------------ *)
(** ** The bookkeeping invariant *)

Lemma Books_done q0 done cs fs w :
  Books q0 done cs fs w -> numActive (this w) + numComplete (this w) = len done.
Proof.
  intros [? ? Ha Hc ? ? ? ? Hp]. rewrite Ha, Hc.
  apply Permutation_length in Hp. rewrite !length_app, length_started_from in Hp.
  unfold len. lia.
Qed.

Lemma runTask_Books q0 done cs fs w :
  Books q0 done cs fs w ->
  exists done', Books q0 done' cs fs (runTask w).
Proof.
  intros B. pose proof (Books_done B) as Hd. destruct B.
  unfold runTask. destruct (abort (this w)).
  - exists done. constructor; auto.
  - destruct (queue (this w)) as [|t rest] eqn:Q.
    + exists done. constructor; auto. rewrite Q; auto.
    + exists (done ++ [t]). constructor; simpl; auto.
      * rewrite <- app_assoc. simpl. assumption.
      * rewrite bk_active0. unfold len. rewrite length_app. simpl. lia.
      * rewrite started_from_app. simpl.
        replace (numActive (this w) + 1 + numComplete (this w))
          with (1 + len done) by lia.
        apply Permutation_snoc_middle. assumption.
Qed.

Lemma Books_frame q0 done cs fs w w' :
  Books q0 done cs fs w ->
  this w' = this w -> suspended w' = suspended w ->
  Books q0 done cs fs w'.
Proof.
  intros [] Ht Hs. constructor; rewrite ?Ht, ?Hs; assumption.
Qed.

Lemma finally_Books q0 done cs fs w :
  Books q0 done cs fs
    (update (fun r => set_numActive (numActive r - 1) r)
       (update (fun r => set_numComplete (numComplete r + 1) r) w)) ->
  exists done', Books q0 done' cs fs (finally w).
Proof.
  intros B. unfold finally.
  case_if.
  - exists done. eapply Books_frame; [exact B| |]; reflexivity.
  - eapply runTask_Books. exact B.
Qed.

Lemma resume_Books q0 done cs fs w s l1 l2 :
  Books q0 done cs fs w ->
  suspended w = l1 ++ s :: l2 ->
  exists done',
    Books q0 done'
      (if returned s then cs ++ [s] else cs)
      (if returned s then fs else fs ++ [s])
      (quiet_resume s (set_suspended (l1 ++ l2) w)).
Proof.
  intros B Hs. unfold quiet_resume.
  destruct (s_awaited s) as [v|e] eqn:Aw.
  - apply finally_Books with (done := done). destruct B.
    unfold returned at 1 2; rewrite Aw.
    constructor; simpl; auto.
    + rewrite bk_active0, Hs. unfold len. rewrite !length_app. simpl. lia.
    + rewrite bk_complete0. unfold len. rewrite !length_app. simpl. lia.
    + rewrite bk_completeTasks0, map_app. simpl.
      rewrite (outcome_Returns _ Aw). reflexivity.
    + rewrite forallb_app, bk_returned0. simpl. unfold returned. rewrite Aw. reflexivity.
    + rewrite <- bk_started0, Hs. apply Permutation_settle_left.
  - destruct B. unfold returned at 1 2; rewrite Aw.
    assert (B2 : Books q0 done cs (fs ++ [s])
      (update (fun r => set_numActive (numActive r - 1) r)
        (update (fun r => set_numComplete (numComplete r + 1) r)
          (quiet_emit taskFailed
             {| result := JsNull; error := e;
                meta := {| index := s_index s; label := s_label s |} |}
             (update (fun r => set_failedTasks (failedTasks r ++
                [{| result := JsNull; error := e;
                   meta := {| index := s_index s; label := s_label s |} |}]) r)
               (set_suspended (l1 ++ l2) w)))))).
    { constructor; simpl; auto.
      + rewrite bk_active0, Hs. unfold len. rewrite !length_app. simpl. lia.
      + rewrite bk_complete0. unfold len. rewrite !length_app. simpl. lia.
      + rewrite bk_failedTasks0, map_app. simpl.
        rewrite (outcome_Throws _ Aw). reflexivity.
      + rewrite forallb_app, bk_threw0. simpl. unfold returned. rewrite Aw. reflexivity.
      + rewrite <- bk_started0, Hs. apply Permutation_settle_right. }
    unfold quiet_throw.
    case_if.
    + apply finally_Books with (done := done).
      destruct B2. constructor; assumption.
    + apply finally_Books with (done := done).
      destruct B2. constructor; assumption.
Qed.

Lemma step_Books q0 done cs fs ev w w' :
  Books q0 done cs fs w -> step ev w = Some w' ->
  exists done' cs' fs', Books q0 done' cs' fs' w'.
Proof.
  intros B H. apply step_inv in H.
  destruct H as [(-> & Hlt & ->) | (s & l1 & l2 & -> & Hs & ->)].
  - destruct (runTask_Books B) as [done' B']. exists done', cs, fs.
    destruct B'. constructor; assumption.
  - destruct (@resume_Books _ _ _ _ _ _ _ _ B Hs) as [done' B']. eauto.
Qed.

Lemma exec_Books q0 done cs fs evs w w' :
  Books q0 done cs fs w -> exec evs w = Some w' ->
  exists done' cs' fs', Books q0 done' cs' fs' w'.
Proof.
  revert done cs fs w. induction evs as [|ev evs IH]; intros done cs fs w B; simpl.
  - intros [= <-]. eauto.
  - destruct (step ev w) as [w1|] eqn:S1; [|discriminate].
    destruct (step_Books _ B S1) as (d1 & c1 & f1 & B1). eauto.
Qed.

Lemma Books_prefix q0 done cs fs w t rest :
  Books q0 done cs fs w ->
  queue (this w) = t :: rest ->
  nth_error q0 (Z.to_nat (len done)) = Some t /\
  len done = len q0 - len (queue (this w)).
Proof.
  intros [Hq _ _ _ _ _ _ _ _] Q. rewrite Q in *. subst q0. split.
  - unfold len. rewrite Nat2Z.id, nth_error_app2, Nat.sub_diag by lia. reflexivity.
  - rewrite len_app. lia.
Qed.

(** With everything dequeued and settled, [completeTasks] holds the outcomes
    of the calls that returned and [failedTasks] of those that threw. *)
Lemma Books_settled q0 done cs fs w :
  Books q0 done cs fs w ->
  queue (this w) = [] -> suspended w = [] ->
  Permutation (completeTasks (this w))
    (map outcome (filter returned (started_from 1 q0))) /\
  Permutation (failedTasks (this w))
    (map outcome (filter (fun s => negb (returned s)) (started_from 1 q0))) /\
  Permutation (completeTasks (this w) ++ failedTasks (this w))
    (map outcome (started_from 1 q0)).
Proof.
  intros [Hq _ _ _ Hc Hf Hr Ht Hp] Q S.
  rewrite Q, app_nil_r in Hq. subst done. rewrite S in Hp. simpl in Hp.
  rewrite Hc, Hf. split; [|split].
  - apply Permutation_map.
    rewrite <- (Permutation_filter_both returned Hp), filter_app.
    rewrite (forallb_filter_id _ _ Hr), (filter_none _ _ Ht), app_nil_r.
    reflexivity.
  - apply Permutation_map.
    rewrite <- (Permutation_filter_both (fun s => negb (returned s)) Hp), filter_app.
    rewrite (forallb_filter_id _ _ Ht), filter_none; [reflexivity|].
    clear - Hr. induction cs as [|c cs IH]; simpl in *; [reflexivity|].
    apply andb_prop in Hr. destruct Hr as [-> Hr]. simpl. auto.
  - rewrite <- map_app. apply Permutation_map. assumption.
Qed.

(* ------------------------------------------------------------------ *)
(** ** The control invariant *)

Lemma Control_ext w w' :
  this w' = this w -> promise w' = promise w ->
  suspended w' = suspended w -> loop_i w' = loop_i w ->
  Control w -> Control w'.
Proof.
  intros Ht Hp Hs Hl []. constructor; rewrite ?Ht, ?Hp, ?Hs, ?Hl; assumption.
Qed.

Lemma runTask_Control w i :
  numActive (this w) = len (suspended w) ->
  0 <= numComplete (this w) ->
  len (suspended w) + 1 <= i <= Z.max 0 (concurrentLimit (this w)) ->
  abort (this w) =
    (0 <? len (failedTasks (this w))) &&
    gt (len (failedTasks (this w))) (tolerance (this w)) ->
  match promise w with
  | Pending => abort (this w) = false
  | Resolved _ => abort (this w) = false /\ suspended w = [] /\ queue (this w) = []
  | Rejected _ _ => abort (this w) = true
  end ->
  (promise w = Pending ->
   numComplete (this w) = 0 \/ suspended w <> [] \/ queue (this w) <> []) ->
  Control (set_loop_i i (runTask w)).
Proof.
  intros Ha Hc Hl Hab Hp Hpend. unfold runTask.
  destruct (abort (this w)) eqn:Ab; [|destruct (queue (this w)) as [|t rest] eqn:Q].
  - constructor; simpl; rewrite ?Ab; auto; try lia; try discriminate.
    destruct (promise w); auto. discriminate.
  - constructor; simpl; rewrite ?Ab, ?Q; auto; try lia; try congruence.
    destruct (promise w) eqn:P; auto. split; auto.
    destruct Hpend as [|[|]]; auto; congruence.
  - constructor; simpl; rewrite ?Ab, ?Q; simpl; auto.
    + rewrite len_app, len_cons, len_nil. lia.
    + rewrite len_app, len_cons, len_nil. lia.
    + destruct (promise w) as [| |]; [| |exact Hp].
      * split; [reflexivity|]. right. apply snoc_not_nil.
      * destruct Hp as (_ & _ & X). discriminate.
    + intros _ _ _. apply snoc_not_nil.
Qed.

Lemma finally_Control w : Settling w -> Control (finally w).
Proof.
  intros []. unfold finally.
  case_if as E.
  - simpl in E. unfold complete in E. simpl in E.
    constructor; simpl; auto; try lia.
    + destruct (promise w); [|contradiction|assumption].
      rewrite sg_promise0 in *. rewrite orb_false_r in E.
      apply andb_prop in E. destruct E as [E1 E2].
      apply Z.eqb_eq in E1, E2. split; auto. split; apply len_0; lia.
    + intros Ab _ Q. exfalso. apply Q. rewrite Ab, orb_false_r in E.
      apply andb_prop in E. destruct E as [E1 _]. apply Z.eqb_eq in E1.
      apply len_0; assumption.
  - simpl in E. unfold complete in E. simpl in E.
    apply orb_false_elim in E. destruct E as [E Ab].
    eapply Control_ext; [| | | |eapply runTask_Control with (i := loop_i w)];
      rewrite ?loop_i_runTask; try reflexivity; simpl; auto; try lia.
    + destruct (promise w); auto. contradiction.
    + intros _. apply andb_false_elim in E. destruct E as [E|E]; apply Z.eqb_neq in E.
      * right; right. intros X. rewrite X in E. apply E. reflexivity.
      * right; left. intros X. rewrite X in *. rewrite len_nil in *. lia.
Qed.

Lemma on_return_Settling w s v l1 l2 :
  Control w -> suspended w = l1 ++ s :: l2 ->
  Settling (quiet_return s v (set_suspended (l1 ++ l2) w)).
Proof.
  intros [] Hs. rewrite Hs in *.
  rewrite len_app, len_cons in *.
  constructor; simpl; rewrite ?len_app; auto; try lia.
  destruct (promise w);
    [ exact (proj1 ct_promise0)
    | destruct ct_promise0 as (_ & X & _);
      apply app_eq_nil in X; destruct X; discriminate
    | assumption ].
Qed.

Lemma on_throw_Settling w s e l1 l2 :
  Control w -> suspended w = l1 ++ s :: l2 ->
  Settling (quiet_throw s e (set_suspended (l1 ++ l2) w)).
Proof.
  intros [] Hs. rewrite Hs in *.
  rewrite len_app, len_cons in *.
  unfold quiet_throw.
  case_if as E;
    simpl in E; rewrite len_snoc in E.
  - constructor; simpl; rewrite ?len_snoc, ?len_app; auto; try lia.
    + rewrite E. pose proof (len_nonneg (failedTasks (this w))).
      symmetry. apply andb_true_intro. split; auto. apply Z.ltb_lt. lia.
    + destruct (promise w);
        [ reflexivity
        | destruct ct_promise0 as (_ & X & _);
          apply app_eq_nil in X; destruct X; discriminate
        | reflexivity ].
  - constructor; simpl; rewrite ?len_snoc, ?len_app; auto; try lia.
    + rewrite E, andb_false_r. rewrite ct_abort0.
      rewrite (@gt_mono_false (len (failedTasks (this w))) _ _ E) by lia.
      apply andb_false_r.
    + destruct (promise w);
        [ exact (proj1 ct_promise0)
        | destruct ct_promise0 as (_ & X & _);
          apply app_eq_nil in X; destruct X; discriminate
        | assumption ].
Qed.

Lemma step_Control ev w w' :
  Control w -> step ev w = Some w' -> Control w'.
Proof.
  intros C H. apply step_inv in H.
  destruct H as [(-> & Hlt & ->) | (s & l1 & l2 & -> & Hs & ->)].
  - apply Control_ext with (w := set_loop_i (loop_i w + 1) (runTask w));
      try reflexivity.
    destruct C. apply runTask_Control; auto; try lia.
    + destruct (promise w); tauto.
    + intros E. rewrite E in *. tauto.
  - unfold quiet_resume. apply finally_Control.
    destruct (s_awaited s).
    + apply on_return_Settling; assumption.
    + apply on_throw_Settling; assumption.
Qed.

Lemma exec_Control evs w w' : Control w -> exec evs w = Some w' -> Control w'.
Proof.
  revert w. induction evs as [|ev evs IH]; intros w C; simpl.
  - intros [= <-]. assumption.
  - destruct (step ev w) as [w1|] eqn:S1; [|discriminate].
    apply IH. eapply step_Control; eassumption.
Qed.

(* ------------------------------------------------------------------ *)
(** ** Fresh Runners and the states they reach *)

Lemma new_Runner_Fresh g limit options : Fresh (snd (new_Runner g limit options)).
Proof.
  unfold new_Runner. simpl.
  destruct (onTaskComplete _), (onTaskFailed _); constructor; reflexivity.
Qed.

Lemma add_Fresh f lbl r : Fresh r -> Fresh (add f lbl r).
Proof. intros []. constructor; assumption. Qed.

Lemma on_Fresh event h r : Fresh r -> Fresh (on event h r).
Proof. intros []. destruct event; constructor; assumption. Qed.

Lemma addMany_Fresh cbs labels r : Fresh r -> Fresh (addMany cbs labels r).
Proof.
  unfold addMany. generalize (seq 0 (List.length cbs)). intros idx.
  revert r. induction idx as [|i idx IH]; intros r F; simpl; [assumption|].
  apply IH. destruct (nth_error cbs i); [apply add_Fresh|]; assumption.
Qed.

Lemma runAll_Books g r : Fresh r -> Books (queue r) [] [] [] (runAll g r).
Proof.
  intros []. constructor; simpl; auto.
Qed.

Lemma runAll_Control g r : Fresh r -> Control (runAll g r).
Proof.
  intros []. constructor; simpl; auto; try lia.
  - rewrite len_nil. lia.
  - rewrite fresh_failedTasks0. assumption.
Qed.

(** Everything known of a state reached by a run of a fresh Runner. *)
Lemma reached g r evs w :
  Fresh r -> exec evs (runAll g r) = Some w ->
  Control w /\
  (exists done cs fs, Books (queue r) done cs fs w) /\
  SameConfig (runAll g r) w.
Proof.
  intros F H. split; [|split].
  - eapply exec_Control; [apply runAll_Control|]; eassumption.
  - eapply exec_Books; [apply runAll_Books|]; eassumption.
  - eapply exec_SameConfig; eassumption.
Qed.

(** The same of a run in which other Runners may be constructed. *)
Lemma reached_listening g r acts w :
  Fresh r -> listeners_return acts = true ->
  perform acts (runAll g r) = Some w ->
  Control w /\
  (exists done cs fs, Books (queue r) done cs fs w) /\
  concurrentLimit (this w) = concurrentLimit r /\
  verbose (this w) = verbose r /\
  tolerance (this w) = tolerance r /\
  listeners (this w) = listeners r /\
  numTotal (this w) = len (queue r).
Proof.
  intros F U H.
  refine (@perform_listening
            (fun w => Control w /\
                      (exists done cs fs, Books (queue r) done cs fs w) /\
                      concurrentLimit (this w) = concurrentLimit r /\
                      verbose (this w) = verbose r /\
                      tolerance (this w) = tolerance r /\
                      listeners (this w) = listeners r /\
                      numTotal (this w) = len (queue r)) _ _ acts _ _ U _ H).
  - intros ev w1 w2 (C & (done & cs & fs & B) & Hl & Hv & Ht & Hls & Hn) S1.
    pose proof (step_SameConfig _ _ S1) as [E1 E2 E3 E4 E5 _].
    split; [eapply step_Control; eassumption|].
    split; [eapply step_Books; eassumption|].
    rewrite E1, E2, E3, E4, E5. auto.
  - intros w1 (C & (done & cs & fs & B) & Cfg).
    split; [apply Control_ext with (w := w1); auto|].
    split; [exists done, cs, fs; apply Books_frame with (w := w1); auto|].
    exact Cfg.
  - split; [apply runAll_Control; assumption|].
    split; [exists [], [], []; apply runAll_Books; assumption|].
    simpl. repeat split; reflexivity.
Qed.

(* ------------------------------------------------------------------ *)
(** ** Termination *)

(** Every event uses up one unit of [fuel]. *)
Lemma runTask_load w :
  (List.length (suspended (runTask w)) + List.length (queue (this (runTask w)))
   = List.length (suspended w) + List.length (queue (this w)))%nat.
Proof.
  unfold runTask. destruct (abort (this w)); [reflexivity|].
  destruct (queue (this w)) eqn:Q; [rewrite Q; reflexivity|].
  simpl. rewrite length_app. simpl. lia.
Qed.

Lemma finally_load w :
  (List.length (suspended (finally w)) + List.length (queue (this (finally w)))
   = List.length (suspended w) + List.length (queue (this w)))%nat.
Proof.
  unfold finally.
  case_if;
    [reflexivity|rewrite runTask_load; reflexivity].
Qed.

Lemma step_fuel ev w w' : step ev w = Some w' -> fuel w = S (fuel w').
Proof.
  intros H. pose proof (step_SameConfig _ _ H) as [Hl _ _ _ _ _].
  apply step_inv in H.
  destruct H as [(-> & Hlt & ->) | (s & l1 & l2 & -> & Hs & ->)].
  - unfold fuel. simpl in *. rewrite Hl.
    pose proof (runTask_load w). lia.
  - unfold fuel. rewrite Hl, Hs. unfold quiet_resume.
    rewrite loop_i_finally.
    match goal with |- context [finally ?x] =>
      pose proof (finally_load x) as Hf;
      assert (Hx : suspended x = l1 ++ l2 /\ queue (this x) = queue (this w) /\
                   loop_i x = loop_i w)
    end.
    { destruct (s_awaited s).
      - repeat split; reflexivity.
      - match goal with |- context [quiet_throw ?a ?b ?c] =>
          destruct (on_throw_unchanged a b c) as (-> & -> & -> & _) end.
        repeat split; reflexivity. }
    destruct Hx as (Hx1 & Hx2 & Hx3). rewrite Hx1, Hx2 in Hf. rewrite Hx3.
    rewrite !length_app in *. simpl. lia.
Qed.

Lemma exec_fuel evs w w' :
  exec evs w = Some w' -> fuel w = (List.length evs + fuel w')%nat.
Proof.
  revert w. induction evs as [|ev evs IH]; intros w; simpl.
  - intros [= <-]. reflexivity.
  - destruct (step ev w) as [w1|] eqn:S1; [|discriminate].
    intros H. rewrite (step_fuel _ _ S1), (IH _ H). reflexivity.
Qed.

Lemma perform_fuel acts w w' :
  listeners_return acts = true -> perform acts w = Some w' ->
  fuel w = (List.length (events acts) + fuel w')%nat.
Proof.
  revert w. induction acts as [|a acts IH]; intros w U; simpl.
  - intros [= <-]. reflexivity.
  - simpl in U. apply andb_prop in U. destruct U as [Ua U].
    destruct a as [ev| | |]; try discriminate Ua; simpl.
    + destruct (step ev w) as [w1|] eqn:S1; [|discriminate].
      intros H. rewrite (step_fuel _ _ S1), (IH _ U H). reflexivity.
    + intros H. rewrite <- (IH _ U H). reflexivity.
Qed.

(** A run that is not quiescent can take a step, *)
Lemma progress w : quiescent w = false -> exists ev w', step ev w = Some w'.
Proof.
  unfold quiescent. intros H. apply andb_false_elim in H. destruct H as [H|H].
  - exists Spawn. simpl. apply negb_false_iff in H. rewrite H. eauto.
  - destruct (suspended w) as [|s rest] eqn:S; [discriminate|].
    exists (Settle 0). simpl. unfold settle_call. rewrite S. simpl. eauto.
Qed.

(** and so every run can be continued to a quiescent state. *)
Lemma drain w : exists evs w', exec evs w = Some w' /\ quiescent w' = true.
Proof.
  remember (fuel w) as n eqn:Hn. revert w Hn.
  induction n as [|n IH]; intros w Hn.
  - destruct (quiescent w) eqn:Q.
    + exists [], w. auto.
    + destruct (progress _ Q) as (ev & w' & S1).
      rewrite (step_fuel _ _ S1) in Hn. discriminate.
  - destruct (quiescent w) eqn:Q.
    + exists [], w. auto.
    + destruct (progress _ Q) as (ev & w1 & S1).
      pose proof (step_fuel _ _ S1) as Hf. rewrite <- Hn in Hf. injection Hf as Hf.
      destruct (IH w1 Hf) as (evs & w' & He & Hq).
      exists (ev :: evs), w'. simpl. rewrite S1. auto.
Qed.

(* ------------------------------------------------------------------ *)
(** ** Event dispatch *)

(** An outcome whose [result] is not an [Error] is handed to the
    ['taskCompleted'] listeners, whatever the event: to as many of them, in
    registration order, as the event has listeners. *)
Lemma emit_calls_not_Error ls event e :
  instanceof_Error (result e) = false ->
  emit_calls ls event e
  = map (fun h => (h, e))
      (firstn (List.length (listeners_for ls event)) (on_taskCompleted ls)).
Proof.
  intros H. unfold emit_calls, isCompletedEvent, isFailedEvent. rewrite H. simpl.
  apply (calls_over_indices (fun h => (h, e)) (on_taskCompleted ls) 0).
Qed.


(** A [TaskError] has [result: null]: ['taskFailed'] listeners never get it. *)
Lemma emit_calls_taskFailed ls e m :
  let taskError := {| result := JsNull; error := e; meta := m |} in
  emit_calls ls taskFailed taskError
  = map (fun h => (h, taskError))
      (firstn (List.length (on_taskFailed ls)) (on_taskCompleted ls)).
Proof.
  intros taskError. apply (emit_calls_not_Error ls taskFailed taskError). reflexivity.
Qed.

(** A loop iteration that starts no call changes nothing but [i]. *)
Lemma spawn_idle w :
  abort (this w) = true \/ queue (this w) = [] -> spawn w = w.
Proof.
  intros [Ab|Q]; unfold spawn, runTask.
  - rewrite Ab. destruct w; reflexivity.
  - rewrite Q, andb_false_r. destruct (abort (this w)); destruct w; reflexivity.
Qed.

(* ------------------------------------------------------------------ *)
(** ** The empty queue *)

Lemma idle_run evs w w' :
  queue (this w) = [] -> suspended w = [] ->
  exec evs w = Some w' ->
  this w' = this w /\ promise w' = promise w /\ suspended w' = [] /\
  invoked w' = invoked w /\ console w' = console w /\
  evs = repeat Spawn (List.length evs).
Proof.
  revert w. induction evs as [|ev evs IH]; intros w Q S; simpl.
  - intros [= <-]. repeat split; auto.
  - destruct ev as [|n]; simpl.
    + destruct (loop_i w <? concurrentLimit (this w)); [|discriminate].
      assert (R : spawn w = w) by (apply spawn_idle; auto).
      rewrite R. intros H. apply IH in H; simpl; auto.
      destruct H as (H1 & H2 & H3 & H4 & H5 & H6). simpl in *.
      repeat split; auto. f_equal. assumption.
    + unfold settle_call. rewrite S. destruct n; discriminate.
Qed.

(* ------------------------------------------------------------------ *)
(** ** Any run, whatever the listeners do *)

Lemma calls_made_all {A} (calls : list A) raise :
  error_thrown calls raise = None -> calls_made calls raise = calls.
Proof.
  destruct raise as [[j err]|]; [|reflexivity].
  unfold error_thrown, calls_made.
  destruct (Nat.ltb_spec j (List.length calls)); [discriminate|].
  intros _. apply firstn_all2. lia.
Qed.

(** An error that leaves the call changes nothing that the Runner holds. *)
Lemma escape_frame s thrown w :
  this (escape s thrown w) = this w /\
  invoked (escape s thrown w) = invoked w /\
  promise (escape s thrown w) = promise w /\
  console (escape s thrown w) = console w /\
  suspended (escape s thrown w) = suspended w.
Proof.
  unfold escape. destruct thrown; [destruct (existsb _ _)|];
    repeat split; reflexivity.
Qed.

(** The [catch] block, whatever the listeners do. *)
Lemma on_throw_any s e in_catch w :
  let taskError :=
    {| result := JsNull; error := e;
       meta := {| index := s_index s; label := s_label s |} |} in
  let calls := emit_calls (listeners (this w)) taskFailed taskError in
  let w' := fst (on_throw s e in_catch w) in
  invoked w' = invoked w ++ calls_made calls in_catch /\
  failedTasks (this w') = failedTasks (this w) ++ [taskError] /\
  completeTasks (this w') = completeTasks (this w) /\
  snd (on_throw s e in_catch w) = error_thrown calls in_catch /\
  (error_thrown calls in_catch <> None -> abort (this w') = abort (this w)).
Proof.
  unfold on_throw, emit. cbn zeta. simpl.
  destruct (error_thrown _ in_catch) as [err|]; simpl.
  - repeat split; reflexivity.
  - case_if; simpl; repeat split; try reflexivity; congruence.
Qed.

(** The resumption of a call that returned, whatever the listeners do. *)
Lemma resume_Returns_any s v in_try in_catch w :
  s_awaited s = Returns v ->
  let calls := emit_calls (listeners (this w)) taskCompleted (outcome s) in
  let w' := resume s in_try in_catch w in
  completeTasks (this w') = completeTasks (this w) ++ [outcome s] /\
  match error_thrown calls in_try with
  | None =>
      invoked w' = invoked w ++ calls /\
      failedTasks (this w') = failedTasks (this w) /\
      abort (this w') = abort (this w)
  | Some err =>
      let taskError :=
        {| result := JsNull; error := err; meta := meta (outcome s) |} in
      invoked w'
      = invoked w ++ calls_made calls in_try ++
        calls_made (emit_calls (listeners (this w)) taskFailed taskError) in_catch /\
      failedTasks (this w') = failedTasks (this w) ++ [taskError]
  end.
Proof.
  intros Aw calls w'. subst w'. unfold resume. rewrite Aw.
  match goal with |- context [escape s ?t ?x] =>
    destruct (escape_frame s t x) as (-> & -> & _) end.
  match goal with |- context [finally ?x] =>
    destruct (finally_ledger x) as (-> & -> & -> & -> & _) end.
  subst calls. rewrite (outcome_Returns _ Aw).
  unfold on_return, emit. cbn zeta. simpl.
  match goal with |- context [error_thrown ?c in_try] =>
    destruct (error_thrown c in_try) as [err|] eqn:E end.
  - match goal with |- context [on_throw s err in_catch ?x] =>
      destruct (on_throw_any s err in_catch x) as (-> & -> & -> & _) end.
    simpl. rewrite <- app_assoc. repeat split; reflexivity.
  - simpl. rewrite (calls_made_all _ _ E). repeat split; reflexivity.
Qed.

(** *** The counters *)

Lemma runTask_count w :
  concurrentLimit (this (runTask w)) = concurrentLimit (this w) /\
  loop_i (runTask w) = loop_i w /\
  numComplete (this (runTask w)) = numComplete (this w) /\
  completeTasks (this (runTask w)) = completeTasks (this w) /\
  failedTasks (this (runTask w)) = failedTasks (this w) /\
  numActive (this (runTask w)) + len (queue (this (runTask w)))
  = numActive (this w) + len (queue (this w)) /\
  numActive (this (runTask w)) - len (suspended (runTask w))
  = numActive (this w) - len (suspended w) /\
  len (suspended w) <= len (suspended (runTask w)) <= len (suspended w) + 1.
Proof.
  unfold runTask. destruct (abort (this w)); [repeat split; lia|].
  destruct (queue (this w)) as [|t rest] eqn:Q; [rewrite Q; repeat split; lia|].
  cbn. rewrite ?len_snoc. unfold len. repeat split; lia.
Qed.

Lemma finally_count w :
  concurrentLimit (this (finally w)) = concurrentLimit (this w) /\
  loop_i (finally w) = loop_i w /\
  numComplete (this (finally w)) = numComplete (this w) + 1 /\
  completeTasks (this (finally w)) = completeTasks (this w) /\
  failedTasks (this (finally w)) = failedTasks (this w) /\
  numActive (this (finally w)) + len (queue (this (finally w)))
  = numActive (this w) - 1 + len (queue (this w)) /\
  numActive (this (finally w)) - len (suspended (finally w))
  = numActive (this w) - 1 - len (suspended w) /\
  len (suspended w) <= len (suspended (finally w)) <= len (suspended w) + 1.
Proof.
  unfold finally. case_if.
  - cbn. repeat split; lia.
  - match goal with |- context [runTask ?x] =>
      destruct (runTask_count x) as (-> & -> & -> & -> & -> & -> & -> & H) end.
    cbn in *. repeat split; lia.
Qed.

Lemma on_throw_count s e in_catch w :
  let w' := fst (on_throw s e in_catch w) in
  concurrentLimit (this w') = concurrentLimit (this w) /\
  loop_i w' = loop_i w /\
  numActive (this w') = numActive (this w) /\
  numComplete (this w') = numComplete (this w) /\
  queue (this w') = queue (this w) /\
  suspended w' = suspended w /\
  completeTasks (this w') = completeTasks (this w) /\
  len (failedTasks (this w')) = len (failedTasks (this w)) + 1.
Proof.
  unfold on_throw, emit. cbn zeta. simpl.
  destruct (error_thrown _ in_catch) as [err|]; simpl.
  - rewrite len_snoc. repeat split; reflexivity.
  - case_if; simpl; rewrite len_snoc; repeat split; reflexivity.
Qed.

Lemma on_return_count s v in_try in_catch w :
  let w' := fst (on_return s v in_try in_catch w) in
  concurrentLimit (this w') = concurrentLimit (this w) /\
  loop_i w' = loop_i w /\
  numActive (this w') = numActive (this w) /\
  numComplete (this w') = numComplete (this w) /\
  queue (this w') = queue (this w) /\
  suspended w' = suspended w /\
  len (completeTasks (this w')) = len (completeTasks (this w)) + 1 /\
  len (failedTasks (this w))
  <= len (failedTasks (this w')) <= len (failedTasks (this w)) + 1.
Proof.
  unfold on_return, emit. cbn zeta. simpl.
  destruct (error_thrown _ in_try) as [err|]; simpl.
  - match goal with |- context [on_throw s err in_catch ?x] =>
      destruct (on_throw_count s err in_catch x)
        as (-> & -> & -> & -> & -> & -> & -> & ->) end.
    simpl. rewrite len_snoc. repeat split; lia.
  - rewrite len_snoc. repeat split; lia.
Qed.

Lemma len_remove_nth {A} n (xs : list A) s :
  nth_error xs n = Some s -> len xs = len (remove_nth n xs) + 1.
Proof.
  intros H. apply nth_error_split in H. destruct H as (l1 & l2 & -> & <-).
  rewrite remove_nth_middle, !len_app, len_cons. lia.
Qed.

Lemma runAll_Counters g r : Fresh r -> Counters r (runAll g r).
Proof.
  intros [Ha Hc _ Hct Hft]. pose proof (len_nonneg (queue r)).
  constructor; cbn; rewrite ?Ha, ?Hc, ?Hct, ?Hft; cbn; lia.
Qed.

Lemma settled_count s in_try in_catch w :
  let w' := fst match s_awaited s with
                | Returns v => on_return s v in_try in_catch w
                | Throws e => on_throw s e in_catch w
                end in
  concurrentLimit (this w') = concurrentLimit (this w) /\
  loop_i w' = loop_i w /\
  numActive (this w') = numActive (this w) /\
  numComplete (this w') = numComplete (this w) /\
  queue (this w') = queue (this w) /\
  suspended w' = suspended w /\
  len (completeTasks (this w)) + len (failedTasks (this w)) + 1
  <= len (completeTasks (this w')) + len (failedTasks (this w'))
  <= len (completeTasks (this w)) + len (failedTasks (this w)) + 2.
Proof.
  destruct (s_awaited s) as [v|e]; cbn zeta.
  - destruct (on_return_count s v in_try in_catch w)
      as (-> & -> & -> & -> & -> & -> & -> & B).
    repeat split; lia.
  - destruct (on_throw_count s e in_catch w)
      as (-> & -> & -> & -> & -> & -> & -> & ->).
    repeat split; lia.
Qed.

Lemma escape_count s thrown w :
  this (escape s thrown w) = this w /\
  suspended (escape s thrown w) = suspended w /\
  loop_i (escape s thrown w) = loop_i w.
Proof.
  unfold escape. destruct thrown; [destruct (existsb _ _)|];
    repeat split; reflexivity.
Qed.

Lemma settle_call_Counters r n in_try in_catch w w' :
  Counters r w -> settle_call n in_try in_catch w = Some w' -> Counters r w'.
Proof.
  intros [Hl Ha Hc Hs Hi He]. unfold settle_call.
  destruct (nth_error (suspended w) n) as [s|] eqn:N; [|discriminate].
  intros [= <-]. apply len_remove_nth in N. unfold resume. cbn zeta.
  pose proof (settled_count s in_try in_catch
                (set_suspended (remove_nth n (suspended w)) w)) as X.
  cbn zeta in X. revert X.
  generalize (match s_awaited s with
              | Returns v =>
                  on_return s v in_try in_catch
                    (set_suspended (remove_nth n (suspended w)) w)
              | Throws e =>
                  on_throw s e in_catch
                    (set_suspended (remove_nth n (suspended w)) w)
              end) as settled.
  intros [x thrown]. cbn [fst snd set_suspended this suspended loop_i].
  intros (Xl & Xi & Xa & Xc & Xq & Xs & Xe).
  destruct (escape_count s thrown (finally x)) as (Et & Es & Ei).
  destruct (finally_count x) as (Fl & Fi & Fc & Fct & Fft & Fq & Fs & Fb).
  rewrite Xs in Fs, Fb. rewrite Xq in Fq.
  constructor; rewrite ?Et, ?Es, ?Ei, ?Fct, ?Fft; lia.
Qed.

Lemma act_Counters r a w w' :
  Counters r w -> act a w = Some w' -> Counters r w'.
Proof.
  intros C. destruct a as [[|n]|n in_try in_catch|k|]; simpl.
  - destruct (Z.ltb_spec (loop_i w) (concurrentLimit (this w))); [|discriminate].
    intros [= <-]. destruct C as [Hl Ha Hc Hs Hi He].
    destruct (runTask_count w) as (Rl & Ri & Rc & Rct & Rft & Rq & Rs & Rb).
    unfold spawn.
    constructor; cbn [this suspended loop_i set_loop_i set_attached];
      rewrite ?Rct, ?Rft; lia.
  - apply settle_call_Counters. assumption.
  - apply settle_call_Counters. assumption.
  - destruct (nth_error (escaped w) k); [|discriminate].
    intros [= <-]. destruct C. constructor; assumption.
  - intros [= <-]. destruct C. constructor; assumption.
Qed.

Lemma perform_Counters r acts w w' :
  Counters r w -> perform acts w = Some w' -> Counters r w'.
Proof.
  revert w. induction acts as [|a acts IH]; intros w C; simpl.
  - intros [= <-]. assumption.
  - destruct (act a w) as [w1|] eqn:A; [|discriminate].
    apply IH. eapply act_Counters; eassumption.
Qed.

(** *** The abort flag and the promise *)

Lemma Verdict_ext w w' :
  this w' = this w -> promise w' = promise w -> suspended w' = suspended w ->
  Verdict w -> Verdict w'.
Proof.
  intros Ht Hp Hs []. constructor; rewrite ?Ht, ?Hp, ?Hs; assumption.
Qed.

Lemma runAll_Verdict g r : Fresh r -> Verdict (runAll g r).
Proof.
  intros [Ha _ Hab _ _]. constructor; simpl.
  - rewrite Ha. reflexivity.
  - rewrite Hab. discriminate.
  - discriminate.
Qed.

Lemma runTask_Verdict w : Verdict w -> Verdict (runTask w).
Proof.
  intros V. unfold runTask.
  destruct (abort (this w)) eqn:Ab; [assumption|].
  destruct (queue (this w)) as [|t rest] eqn:Q; [assumption|].
  destruct V as [Ha _ Hr]. constructor; simpl.
  - rewrite len_snoc, Ha. reflexivity.
  - rewrite Ab. discriminate.
  - intros res P. destruct (Hr res P) as [_ X]. congruence.
Qed.

(** What the [try] and [catch] blocks keep of the verdict. *)
Lemma on_throw_verdict s e in_catch w :
  (abort (this w) = true ->
   (exists res err, promise w = Rejected res err) /\
   gt (len (failedTasks (this w))) (tolerance (this w)) = true) ->
  (forall res, promise w <> Resolved res) ->
  let w' := fst (on_throw s e in_catch w) in
  (abort (this w') = true ->
   (exists res err, promise w' = Rejected res err) /\
   gt (len (failedTasks (this w'))) (tolerance (this w')) = true) /\
  (forall res, promise w' <> Resolved res) /\
  (abort (this w) = true -> abort (this w') = true) /\
  (forall res err, promise w = Rejected res err -> promise w' = Rejected res err).
Proof.
  intros Hab Hp. unfold on_throw, emit. cbn zeta. simpl.
  pose proof (len_nonneg (failedTasks (this w))) as Hnn.
  destruct (error_thrown _ in_catch) as [err|]; simpl.
  - rewrite len_snoc. repeat split; auto.
    + apply Hab; assumption.
    + apply gt_mono with (n := len (failedTasks (this w))); [|lia].
      apply Hab; assumption.
  - rewrite len_snoc.
    destruct (gt (len (failedTasks (this w)) + 1) (tolerance (this w))) eqn:G;
      simpl; rewrite ?len_snoc.
    + repeat split; auto.
      * destruct (promise w) as [|res|res err] eqn:P; eauto.
        destruct (Hp res). reflexivity.
      * intros res. destruct (promise w) as [|res'|res' err'] eqn:P;
          try discriminate. destruct (Hp res'). reflexivity.
      * intros res err P. rewrite P. reflexivity.
    + repeat split; auto.
      * apply Hab; assumption.
      * match goal with Ab : abort (this w) = true |- _ =>
          apply Hab in Ab; destruct Ab as [_ Ab];
          rewrite (gt_mono _ Ab) in G by lia; discriminate end.
Qed.

Lemma on_return_verdict s v in_try in_catch w :
  (abort (this w) = true ->
   (exists res err, promise w = Rejected res err) /\
   gt (len (failedTasks (this w))) (tolerance (this w)) = true) ->
  (forall res, promise w <> Resolved res) ->
  let w' := fst (on_return s v in_try in_catch w) in
  (abort (this w') = true ->
   (exists res err, promise w' = Rejected res err) /\
   gt (len (failedTasks (this w'))) (tolerance (this w')) = true) /\
  (forall res, promise w' <> Resolved res) /\
  (abort (this w) = true -> abort (this w') = true) /\
  (forall res err, promise w = Rejected res err -> promise w' = Rejected res err).
Proof.
  intros Hab Hp. unfold on_return, emit. cbn zeta. simpl.
  destruct (error_thrown _ in_try) as [err|]; simpl.
  - match goal with |- context [on_throw s err in_catch ?x] =>
      apply (on_throw_verdict s err in_catch x) end; assumption.
  - repeat split; auto; apply Hab; assumption.
Qed.

Lemma settled_verdict s in_try in_catch w :
  (abort (this w) = true ->
   (exists res err, promise w = Rejected res err) /\
   gt (len (failedTasks (this w))) (tolerance (this w)) = true) ->
  (forall res, promise w <> Resolved res) ->
  let w' := fst match s_awaited s with
                | Returns v => on_return s v in_try in_catch w
                | Throws e => on_throw s e in_catch w
                end in
  (abort (this w') = true ->
   (exists res err, promise w' = Rejected res err) /\
   gt (len (failedTasks (this w'))) (tolerance (this w')) = true) /\
  (forall res, promise w' <> Resolved res) /\
  (abort (this w) = true -> abort (this w') = true) /\
  (forall res err, promise w = Rejected res err -> promise w' = Rejected res err).
Proof.
  intros Hab Hp. destruct (s_awaited s) as [v|e]; cbn zeta.
  - apply on_return_verdict; assumption.
  - apply on_throw_verdict; assumption.
Qed.

Lemma finally_Verdict w :
  numActive (this w) = len (suspended w) + 1 ->
  (abort (this w) = true ->
   (exists res err, promise w = Rejected res err) /\
   gt (len (failedTasks (this w))) (tolerance (this w)) = true) ->
  (forall res, promise w <> Resolved res) ->
  Verdict (finally w).
Proof.
  intros Ha Hab Hp. unfold finally. case_if as E.
  - constructor; simpl.
    + lia.
    + intros Ab. destruct (Hab Ab) as ((res & err & P) & G).
      rewrite P. split; [eauto|assumption].
    + intros res P.
      destruct (abort (this w)) eqn:Ab.
      * destruct (Hab eq_refl) as ((res' & err' & P') & _).
        rewrite P' in P. discriminate.
      * simpl in E. rewrite Ab, orb_false_r in E. unfold complete in E.
        simpl in E.
        apply andb_prop in E. destruct E as [Q A].
        apply Z.eqb_eq in Q, A. split; apply len_0; lia.
  - apply runTask_Verdict. constructor; simpl.
    + lia.
    + assumption.
    + intros res P. destruct (Hp res P).
Qed.

Lemma settle_call_Verdict n in_try in_catch w w' :
  Verdict w -> settle_call n in_try in_catch w = Some w' -> Verdict w'.
Proof.
  intros [Ha Hab Hr]. unfold settle_call.
  destruct (nth_error (suspended w) n) as [s|] eqn:N; [|discriminate].
  intros [= <-].
  assert (Hp : forall res, promise w <> Resolved res).
  { intros res P. destruct (Hr res P) as [X _]. rewrite X in N.
    destruct n; discriminate. }
  apply len_remove_nth in N. unfold resume. cbn zeta.
  pose proof (settled_count s in_try in_catch
                (set_suspended (remove_nth n (suspended w)) w)) as X.
  pose proof (settled_verdict s in_try in_catch
                (set_suspended (remove_nth n (suspended w)) w) Hab Hp) as Y.
  cbn zeta in X, Y. revert X Y.
  generalize (match s_awaited s with
              | Returns v =>
                  on_return s v in_try in_catch
                    (set_suspended (remove_nth n (suspended w)) w)
              | Throws e =>
                  on_throw s e in_catch
                    (set_suspended (remove_nth n (suspended w)) w)
              end) as settled.
  intros [x thrown]. cbn [fst snd set_suspended this suspended loop_i promise].
  intros (_ & _ & Xa & _ & _ & Xs & _) (Yab & Yp & _).
  destruct (escape_frame s thrown (finally x)) as (Et & _ & Ep & _ & Es).
  apply Verdict_ext with (w := finally x); auto.
  apply finally_Verdict; auto. rewrite Xa, Xs. lia.
Qed.

Lemma act_Verdict a w w' : Verdict w -> act a w = Some w' -> Verdict w'.
Proof.
  intros V. destruct a as [[|n]|n in_try in_catch|k|]; simpl.
  - destruct (loop_i w <? concurrentLimit (this w)); [|discriminate].
    intros [= <-]. apply Verdict_ext with (w := runTask w); try reflexivity.
    apply runTask_Verdict. assumption.
  - apply settle_call_Verdict. assumption.
  - apply settle_call_Verdict. assumption.
  - destruct (nth_error (escaped w) k) as [e|]; [|discriminate].
    intros [= <-]. destruct V as [Ha Hab Hr]. constructor; simpl.
    + assumption.
    + intros Ab. destruct (Hab Ab) as ((res & err & P) & G).
      rewrite P. split; [eauto|assumption].
    + intros res P. destruct (promise w) eqn:Pw; try discriminate.
      injection P as <-. apply (Hr _ eq_refl).
  - intros [= <-]. apply Verdict_ext with (w := w); auto.
Qed.

Lemma perform_Verdict acts w w' :
  Verdict w -> perform acts w = Some w' -> Verdict w'.
Proof.
  revert w. induction acts as [|a acts IH]; intros w V; simpl.
  - intros [= <-]. assumption.
  - destruct (act a w) as [w1|] eqn:A; [|discriminate].
    apply IH. eapply act_Verdict; eassumption.
Qed.

(** *** Once the abort flag is set *)

Lemma settled_keeps s in_try in_catch w :
  let w' := fst match s_awaited s with
                | Returns v => on_return s v in_try in_catch w
                | Throws e => on_throw s e in_catch w
                end in
  (abort (this w) = true -> abort (this w') = true) /\
  (forall res err, promise w = Rejected res err -> promise w' = Rejected res err).
Proof.
  assert (T : forall e x,
             let x' := fst (on_throw s e in_catch x) in
             (abort (this x) = true -> abort (this x') = true) /\
             (forall res err,
                 promise x = Rejected res err -> promise x' = Rejected res err)).
  { intros e x. unfold on_throw, emit. cbn zeta. simpl.
    destruct (error_thrown _ in_catch); simpl; [auto|].
    case_if; simpl; [|auto].
    split; [reflexivity|]. intros res err P. rewrite P. reflexivity. }
  destruct (s_awaited s) as [v|e]; cbn zeta; [|apply T].
  unfold on_return, emit. cbn zeta. simpl.
  destruct (error_thrown _ in_try) as [err|]; simpl; [|auto].
  match goal with |- context [on_throw s err in_catch ?x] =>
    apply (T err x) end.
Qed.

Lemma finally_aborted w :
  abort (this w) = true ->
  queue (this (finally w)) = queue (this w) /\
  suspended (finally w) = suspended w /\
  (forall res err,
      promise w = Rejected res err -> promise (finally w) = Rejected res err).
Proof.
  intros Ab. unfold finally. simpl. rewrite Ab, orb_true_r. simpl.
  repeat split. intros res err P. rewrite P. reflexivity.
Qed.

(** A call that settles once the flag is set, whatever the listeners do:
    nothing is dequeued, and the outcome is recorded. *)
Lemma settle_call_aborted n in_try in_catch w w' res err :
  abort (this w) = true ->
  promise w = Rejected res err ->
  settle_call n in_try in_catch w = Some w' ->
  queue (this w') = queue (this w) /\
  abort (this w') = true /\
  promise w' = promise w /\
  exists s,
    nth_error (suspended w) n = Some s /\
    suspended w' = remove_nth n (suspended w) /\
    match s_awaited s with
    | Returns _ =>
        completeTasks (this w') = completeTasks (this w) ++ [outcome s]
    | Throws _ =>
        completeTasks (this w') = completeTasks (this w) /\
        failedTasks (this w') = failedTasks (this w) ++ [outcome s]
    end.
Proof.
  intros Ab P. unfold settle_call.
  destruct (nth_error (suspended w) n) as [s|] eqn:N; [|discriminate].
  intros [= <-].
  assert (Hout :
    match s_awaited s with
    | Returns _ =>
        completeTasks
          (this (resume s in_try in_catch
                   (set_suspended (remove_nth n (suspended w)) w)))
        = completeTasks (this w) ++ [outcome s]
    | Throws _ =>
        completeTasks
          (this (resume s in_try in_catch
                   (set_suspended (remove_nth n (suspended w)) w)))
        = completeTasks (this w) /\
        failedTasks
          (this (resume s in_try in_catch
                   (set_suspended (remove_nth n (suspended w)) w)))
        = failedTasks (this w) ++ [outcome s]
    end).
  { destruct (s_awaited s) as [v|e] eqn:Aw.
    - destruct (@resume_Returns_any s v in_try in_catch
                  (set_suspended (remove_nth n (suspended w)) w) Aw) as [X _].
      exact X.
    - unfold resume. rewrite Aw.
      match goal with |- context [escape s ?t ?x] =>
        destruct (escape_frame s t x) as (-> & _) end.
      match goal with |- context [finally ?x] =>
        destruct (finally_ledger x) as (_ & -> & -> & _) end.
      match goal with |- context [on_throw s e in_catch ?x] =>
        destruct (on_throw_any s e in_catch x) as (_ & -> & -> & _) end.
      rewrite (outcome_Throws _ Aw). split; reflexivity. }
  unfold resume in *. cbn zeta in *.
  pose proof (settled_count s in_try in_catch
                (set_suspended (remove_nth n (suspended w)) w)) as X.
  pose proof (settled_keeps s in_try in_catch
                (set_suspended (remove_nth n (suspended w)) w)) as Y.
  cbn zeta in X, Y. revert Hout X Y.
  generalize (match s_awaited s with
              | Returns v =>
                  on_return s v in_try in_catch
                    (set_suspended (remove_nth n (suspended w)) w)
              | Throws e =>
                  on_throw s e in_catch
                    (set_suspended (remove_nth n (suspended w)) w)
              end) as settled.
  intros [x thrown]. cbn [fst snd set_suspended this suspended loop_i promise].
  intros Hout (_ & _ & _ & _ & Xq & Xs & _) (Yab & Yp).
  destruct (escape_frame s thrown (finally x)) as (Et & _ & Ep & _ & Es).
  destruct (finally_aborted x (Yab Ab)) as (Fq & Fs & Fp).
  destruct (finally_ledger x) as (Fa & _).
  rewrite Et in *. rewrite Ep, Es, Fq, Fs, Fa, Xq, Xs, (Fp _ _ (Yp _ _ P)), P.
  repeat split; auto. exists s. repeat split; auto.
Qed.

(** *** The tolerance is only read *)

Lemma settled_tolerance s in_try in_catch w :
  tolerance (this (fst match s_awaited s with
                       | Returns v => on_return s v in_try in_catch w
                       | Throws e => on_throw s e in_catch w
                       end))
  = tolerance (this w).
Proof.
  assert (T : forall e x,
             tolerance (this (fst (on_throw s e in_catch x))) = tolerance (this x)).
  { intros e x. unfold on_throw, emit. cbn zeta. simpl.
    destruct (error_thrown _ in_catch); simpl; [reflexivity|].
    case_if; reflexivity. }
  destruct (s_awaited s) as [v|e]; [|apply T].
  unfold on_return, emit. cbn zeta. simpl.
  destruct (error_thrown _ in_try) as [err|]; simpl; [|reflexivity].
  match goal with |- context [on_throw s err in_catch ?x] =>
    rewrite (T err x) end.
  reflexivity.
Qed.

Lemma act_tolerance a w w' :
  act a w = Some w' -> tolerance (this w') = tolerance (this w).
Proof.
  destruct a as [ev|n in_try in_catch|k|]; simpl.
  - intros H. apply step_SameConfig in H. destruct H as [_ _ Ht _ _ _].
    exact Ht.
  - destruct (nth_error (suspended w) n) as [s|]; [|discriminate].
    intros [= <-]. unfold resume. cbn zeta.
    match goal with |- context [escape s ?t ?x] =>
      destruct (escape_frame s t x) as (-> & _) end.
    match goal with |- context [finally ?x] =>
      destruct (finally_SameConfig x) as [_ _ -> _ _ _] end.
    apply (settled_tolerance s in_try in_catch
             (set_suspended (remove_nth n (suspended w)) w)).
  - destruct (nth_error (escaped w) k); [|discriminate].
    intros [= <-]. reflexivity.
  - intros [= <-]. reflexivity.
Qed.

Lemma perform_tolerance acts w w' :
  perform acts w = Some w' -> tolerance (this w') = tolerance (this w).
Proof.
  revert w. induction acts as [|a acts IH]; intros w; simpl.
  - intros [= <-]. reflexivity.
  - destruct (act a w) as [w1|] eqn:A; [|discriminate].
    intros H. rewrite (IH _ H). apply (act_tolerance _ _ A).
Qed.


(* ------------------------------------------------------------------ *)
(** ** Properties of a run *)

Lemma example_runner_Fresh limit vb tol tasks :
  Fresh (example_runner limit vb tol tasks).
Proof. apply addMany_Fresh, new_Runner_Fresh. Qed.

Lemma listening_runner_Fresh limit tol tasks :
  Fresh (listening_runner limit tol tasks).
Proof. apply addMany_Fresh, on_Fresh, on_Fresh, new_Runner_Fresh. Qed.




(** C2, what the code does: with listener [1] on ['taskCompleted'] and
    listener [2] on ['taskFailed'], the failure of the only task is handed
    to listener [1]; listener [2] is never called.  [#isFailedEvent] tests
    [e.result], which is [null] in a [TaskError]. *)
Theorem failure_is_handed_to_taskCompleted_listener :
  let w := after [Spawn; Settle 0] dispatch_run in
  exec [Spawn; Settle 0] dispatch_run = Some w /\
  on_taskCompleted (listeners (this w)) = [1%nat] /\
  on_taskFailed (listeners (this w)) = [2%nat] /\
  completeTasks (this w) = [] /\
  failedTasks (this w) = [boom] /\
  isFailedEvent boom = false /\
  invoked w = [(1%nat, boom)].
Proof.
  vm_compute. repeat split; reflexivity.
Qed.

(** C3, what the code does: when [runAll] is called with an empty queue,
    every call of [runTask] returns at [if (!taskObj) return], nothing is
    suspended, no listener is called, only loop iterations can happen, and
    after any number of them the promise is still pending: it is never
    resolved. *)
Theorem empty_queue_never_settles g r evs w :
  queue r = [] ->
  exec evs (runAll g r) = Some w ->
  promise w = Pending /\
  suspended w = [] /\
  queue (this w) = [] /\
  invoked w = [] /\
  evs = repeat Spawn (List.length evs).
Proof.
  intros Q H. apply idle_run in H; simpl; auto.
  destruct H as (H1 & H2 & H3 & H4 & _ & H6).
  rewrite H1. simpl. repeat split; auto.
Qed.

Lemma empty_queue_never_settles_witness :
  let evs := [Spawn; Spawn; Spawn; Spawn; Spawn] in
  let w := after evs empty_run in
  quiescent w = true /\
  promise w = Pending /\
  suspended w = [] /\
  queue (this w) = [] /\
  invoked w = [] /\
  evs = repeat Spawn (List.length evs).
Proof.
  split; [vm_compute; reflexivity|].
  apply (@empty_queue_never_settles
           (fst (new_Runner module_loaded None None))
           (snd (new_Runner module_loaded None None))
           [Spawn; Spawn; Spawn; Spawn; Spawn] _).
  - reflexivity.
  - vm_compute. reflexivity.
Defined.

(** C4, as the claim states it, fails: one task that throws, run with
    [tolerance = 1] (at least the number of tasks), resolves, and the
    results list is empty although one task was enqueued. *)
Lemma resolved_results_omit_failures :
  let r := example_runner 1 false (Fin 1) [fail "boom"] in
  let g := example_module 1 false (Fin 1) in
  let w := after [Spawn; Settle 0] (runAll g r) in
  exec [Spawn; Settle 0] (runAll g r) = Some w /\
  gt (len (queue r)) (tolerance r) = false /\
  promise w = Resolved this_completeTasks /\
  len (queue r) = 1 /\
  len (deref w this_completeTasks) = 0 /\
  len (deref w this_completeTasks) <> len (queue r).
Proof.
  vm_compute. repeat split; try reflexivity. discriminate.
Qed.

(** It also fails when a listener throws: with [tolerance = Infinity], two
    workers and two tasks that succeed, if listener [1] throws when it is
    called with the first result, and again when the [catch] block hands
    it the [TaskError] made of that error, the error leaves [runTask] and
    the handler of the loop rejects the promise with it. *)
Lemma throwing_listener_rejects_tolerant_run :
  let r := listening_runner 2 Infinity [succeed (JsNumber 1); succeed (JsNumber 2)] in
  let g := example_module 2 false Infinity in
  let acts := [Returning Spawn; Returning Spawn;
               Throwing 0 (Some (0%nat, JsError "first"))
                          (Some (0%nat, JsError "second"));
               Fatal 0] in
  let w := after_all acts (runAll g r) in
  perform acts (runAll g r) = Some w /\
  gt (len (queue r)) (tolerance r) = false /\
  abort (this w) = false /\
  promise w = Rejected this_completeTasks (JsError "second") /\
  len (completeTasks (this w)) = 1 /\
  len (failedTasks (this w)) = 1.
Proof.
  vm_compute. repeat split; reflexivity.
Qed.

(** A run whose tolerance covers every task never sets the abort flag,
    and when nothing is left to happen it is resolved with the successes. *)
Lemma tolerant_state r done cs fs w :
  queue r <> [] ->
  1 <= concurrentLimit r ->
  gt (len (queue r)) (tolerance r) = false ->
  Control w ->
  Books (queue r) done cs fs w ->
  concurrentLimit (this w) = concurrentLimit r ->
  tolerance (this w) = tolerance r ->
  abort (this w) = false /\
  (forall a err, promise w <> Rejected a err) /\
  (quiescent w = true ->
   promise w = Resolved this_completeTasks /\
   len (deref w this_completeTasks)
   = len (queue r) - len (failedTasks (this w)) /\
   Permutation (deref w this_completeTasks)
     (map outcome (filter returned (started_from 1 (queue r)))) /\
   Permutation (failedTasks (this w))
     (map outcome
        (filter (fun s => negb (returned s)) (started_from 1 (queue r))))).
Proof.
  intros Hne Hl Htol C B Hlim Ht.
  pose proof (Books_done B) as Hd.
  assert (Hfs : len (failedTasks (this w)) <= len (queue r)).
  { destruct B as [Hq _ Ha Hc _ Hf _ _ _]. rewrite Hq, len_app, <- Hd, Ha, Hc, Hf.
    pose proof (len_nonneg (suspended w)). pose proof (len_nonneg cs).
    pose proof (len_nonneg (queue (this w))).
    unfold len at 1. rewrite length_map. fold (len fs). lia. }
  assert (Ab : abort (this w) = false).
  { destruct C as [_ _ _ Hab _ _]. rewrite Hab, Ht.
    rewrite (gt_mono_false _ Htol Hfs). apply andb_false_r. }
  split; [assumption|]. split.
  - intros a err P. destruct C as [_ _ _ _ Hp _]. rewrite P in Hp. congruence.
  - intros Hq. unfold quiescent in Hq. apply andb_prop in Hq.
    destruct Hq as [Hi Hs]. apply negb_true_iff, Z.ltb_ge in Hi.
    apply Z.eqb_eq, len_0 in Hs. rewrite Hlim in Hi.
    destruct C as [_ _ _ _ Hp Halive].
    assert (Q : queue (this w) = []).
    { destruct (queue (this w)) eqn:Q; [reflexivity|].
      exfalso. apply Halive; auto; [lia|discriminate]. }
    destruct (Books_settled B Q Hs) as (P1 & P2 & _).
    assert (Hnc : numComplete (this w) = len (queue r)).
    { destruct B as [Hq' _ Ha _ _ _ _ _ _]. rewrite Hq', Q, app_nil_r, <- Hd, Ha, Hs.
      rewrite len_nil. lia. }
    assert (Hpos : 0 < len (queue r)).
    { destruct (queue r) as [|t0 q]; [contradiction|]. rewrite len_cons.
      pose proof (len_nonneg q). lia. }
    split; [|split; [|split; assumption]].
    + destruct (promise w) as [|[]|].
      * destruct Hp as (_ & [X|X]); [lia|contradiction].
      * reflexivity.
      * congruence.
    + unfold deref. destruct B as [_ _ _ Hc Hct Hft _ _ _].
      rewrite <- Hnc, Hc, Hct, Hft. unfold len. rewrite !length_map. lia.
Qed.

Lemma tolerant_run g r evs w :
  Fresh r ->
  queue r <> [] ->
  1 <= concurrentLimit r ->
  gt (len (queue r)) (tolerance r) = false ->
  exec evs (runAll g r) = Some w ->
  abort (this w) = false /\
  (forall a err, promise w <> Rejected a err) /\
  (quiescent w = true ->
   promise w = Resolved this_completeTasks /\
   len (deref w this_completeTasks)
   = len (queue r) - len (failedTasks (this w)) /\
   Permutation (deref w this_completeTasks)
     (map outcome (filter returned (started_from 1 (queue r)))) /\
   Permutation (failedTasks (this w))
     (map outcome
        (filter (fun s => negb (returned s)) (started_from 1 (queue r))))).
Proof.
  intros F Hne Hl Htol H.
  destruct (reached g _ F H) as (C & (done & cs & fs & B) & Cfg).
  destruct Cfg as [Hlim _ Ht _ _ _]. simpl in Hlim, Ht.
  eapply tolerant_state; eassumption.
Qed.

(** C4, amended: in a run of a fresh Runner with a non-empty queue, at
    least one worker and a tolerance that is at least the number of
    enqueued tasks, in which every listener that is called returns, the
    abort flag is never set and the promise is never rejected; the run has
    at most [concurrentLimit] plus the number of tasks events; from every
    state it can be continued, with listeners that return, until nothing
    is left to happen, and whenever nothing is left to happen the promise
    is resolved with the array [completeTasks], which holds the outcomes of
    exactly the tasks that returned: its length is the number of enqueued
    tasks minus the number of failures. *)
Theorem resolves_when_tolerance_covers_all_tasks g r acts w :
  Fresh r ->
  queue r <> [] ->
  1 <= concurrentLimit r ->
  gt (len (queue r)) (tolerance r) = false ->
  listeners_return acts = true ->
  perform acts (runAll g r) = Some w ->
  abort (this w) = false /\
  (forall a err, promise w <> Rejected a err) /\
  (List.length (events acts)
   <= Z.to_nat (concurrentLimit r) + List.length (queue r))%nat /\
  (exists acts' w',
      listeners_return acts' = true /\
      perform acts' w = Some w' /\ quiescent w' = true /\
      promise w' = Resolved this_completeTasks) /\
  (quiescent w = true ->
   promise w = Resolved this_completeTasks /\
   len (deref w this_completeTasks)
   = len (queue r) - len (failedTasks (this w)) /\
   Permutation (deref w this_completeTasks)
     (map outcome (filter returned (started_from 1 (queue r)))) /\
   Permutation (failedTasks (this w))
     (map outcome
        (filter (fun s => negb (returned s)) (started_from 1 (queue r))))).
Proof.
  intros F Hne Hl Htol U H.
  destruct (@reached_listening g _ _ _ F U H)
    as (C & (done & cs & fs & B) & Hlim & _ & Ht & _).
  destruct (@tolerant_state _ _ _ _ _ Hne Hl Htol C B Hlim Ht) as (Ab & Rj & Hq).
  split; [assumption|]. split; [assumption|]. split; [|split; [|assumption]].
  - pose proof (perform_fuel _ _ U H) as Hfuel.
    unfold fuel in Hfuel. simpl in Hfuel. rewrite Z.sub_0_r in Hfuel. lia.
  - destruct (drain w) as (evs' & w' & He & Hq').
    exists (map Returning evs'), w'.
    split; [apply listeners_return_events|].
    split; [rewrite perform_events; assumption|]. split; [assumption|].
    assert (H' : perform (acts ++ map Returning evs') (runAll g r) = Some w').
    { rewrite perform_app, H, perform_events. assumption. }
    assert (U' : listeners_return (acts ++ map Returning evs') = true).
    { unfold listeners_return. rewrite forallb_app. apply andb_true_intro.
      split; [exact U|apply listeners_return_events]. }
    destruct (@reached_listening g _ _ _ F U' H')
      as (C' & (done' & cs' & fs' & B') & Hlim' & _ & Ht' & _).
    destruct (@tolerant_state _ _ _ _ _ Hne Hl Htol C' B' Hlim' Ht') as (_ & _ & X).
    apply X. assumption.
Qed.

Lemma resolves_when_tolerance_covers_all_tasks_witness :
  let r := example_runner 2 false (Fin 3)
             [fail "boom"; succeed (JsNumber 1); fail "bang"] in
  let g := example_module 2 false (Fin 3) in
  let acts := map Returning [Spawn; Spawn; Settle 1; Settle 0; Settle 0] in
  let w := after_all acts (runAll g r) in
  abort (this w) = false /\
  (forall a err, promise w <> Rejected a err) /\
  (List.length (events acts)
   <= Z.to_nat (concurrentLimit r) + List.length (queue r))%nat /\
  (exists acts' w',
      listeners_return acts' = true /\
      perform acts' w = Some w' /\ quiescent w' = true /\
      promise w' = Resolved this_completeTasks) /\
  (quiescent w = true ->
   promise w = Resolved this_completeTasks /\
   len (deref w this_completeTasks)
   = len (queue r) - len (failedTasks (this w)) /\
   Permutation (deref w this_completeTasks)
     (map outcome (filter returned (started_from 1 (queue r)))) /\
   Permutation (failedTasks (this w))
     (map outcome
        (filter (fun s => negb (returned s)) (started_from 1 (queue r))))).
Proof.
  apply (@resolves_when_tolerance_covers_all_tasks (example_module 2 false (Fin 3))
           (example_runner 2 false (Fin 3)
              [fail "boom"; succeed (JsNumber 1); fail "bang"])
           (map Returning [Spawn; Spawn; Settle 1; Settle 0; Settle 0]) _).
  - apply example_runner_Fresh.
  - vm_compute. discriminate.
  - vm_compute. discriminate.
  - vm_compute. reflexivity.
  - reflexivity.
  - vm_compute. reflexivity.
Defined.

(** C5, as the claim states it, fails in its last part: with
    [tolerance = 0] and two workers, the first failure sets the abort flag;
    when the second call, already in flight, settles with a throw, the
    tolerance test succeeds again and its branch runs again: in verbose
    mode a second message, now counting 2 failed tasks, is printed. *)
Lemma failure_after_abort_runs_tolerance_branch_again :
  let w := after [Spawn; Spawn; Settle 0]
             (example_run 2 true (Fin 0) [fail "a"; fail "b"]) in
  let w' := after [Settle 0] w in
  abort (this w) = true /\
  step (Settle 0) w = Some w' /\
  gt (len (failedTasks (this w'))) (tolerance (this w')) = true /\
  filter (fun line => match line with LogMessage _ => true | _ => false end)
    (console w)
  = [LogMessage "Runner tolerance exceeded. 1 tasks failed."] /\
  filter (fun line => match line with LogMessage _ => true | _ => false end)
    (console w')
  = [LogMessage "Runner tolerance exceeded. 1 tasks failed.";
     LogMessage "Runner tolerance exceeded. 2 tasks failed."].
Proof.
  vm_compute. repeat split; reflexivity.
Qed.

(** C5, amended: in any run of a fresh Runner, whatever the listeners do,
    once the abort flag is set no step takes a task off the queue, the flag
    stays set and the promise, already rejected, stays as it is.  A call in
    flight that settles is removed from the suspended calls and its outcome
    is appended to [completeTasks] or [failedTasks].  When the listeners
    that [#emit] calls for it all return, [#emit] runs to its end, a
    success leaves [failedTasks] alone, and for a failure the tolerance
    test succeeds again and its branch runs again (in verbose mode the
    message with the new count is printed); this changes neither the flag
    nor the promise. *)
Theorem after_abort g r acts w a w' :
  Fresh r ->
  perform acts (runAll g r) = Some w ->
  abort (this w) = true ->
  act a w = Some w' ->
  queue (this w') = queue (this w) /\
  abort (this w') = true /\
  (exists res err, promise w = Rejected res err) /\
  promise w' = promise w /\
  match a with
  | Returning Spawn =>
      suspended w' = suspended w /\
      completeTasks (this w') = completeTasks (this w) /\
      failedTasks (this w') = failedTasks (this w) /\
      invoked w' = invoked w
  | Returning (Settle n) =>
      exists s,
        nth_error (suspended w) n = Some s /\
        suspended w' = remove_nth n (suspended w) /\
        match s_awaited s with
        | Returns _ =>
            completeTasks (this w') = completeTasks (this w) ++ [outcome s] /\
            failedTasks (this w') = failedTasks (this w) /\
            invoked w' =
              invoked w ++
              emit_calls (listeners (this w)) taskCompleted (outcome s)
        | Throws _ =>
            completeTasks (this w') = completeTasks (this w) /\
            failedTasks (this w') = failedTasks (this w) ++ [outcome s] /\
            invoked w' =
              invoked w ++
              emit_calls (listeners (this w)) taskFailed (outcome s) /\
            gt (len (failedTasks (this w'))) (tolerance (this w')) = true /\
            (verbose (this w) = true ->
             exists before later,
               console w' =
                 console w ++ before ++
                 LogMessage (tolerance_message (len (failedTasks (this w'))))
                 :: later)
        end
  | Throwing n _ _ =>
      exists s,
        nth_error (suspended w) n = Some s /\
        suspended w' = remove_nth n (suspended w) /\
        match s_awaited s with
        | Returns _ =>
            completeTasks (this w') = completeTasks (this w) ++ [outcome s]
        | Throws _ =>
            completeTasks (this w') = completeTasks (this w) /\
            failedTasks (this w') = failedTasks (this w) ++ [outcome s]
        end
  | Fatal _ | Silenced =>
      this w' = this w /\ suspended w' = suspended w
  end.
Proof.
  intros F H Ab Hstep.
  destruct (@perform_Verdict _ _ _ (runAll_Verdict g F) H) as [_ Hab _].
  destruct (Hab Ab) as ((res & err & Pw) & Hgt).
  destruct a as [[|n]|n in_try in_catch|k|]; simpl in Hstep.
  - destruct (loop_i w <? concurrentLimit (this w)); [|discriminate].
    injection Hstep as <-. unfold spawn, runTask. rewrite Ab. simpl.
    repeat split; eauto.
  - destruct (nth_error (suspended w) n) as [s|] eqn:Hn; [|discriminate].
    injection Hstep as <-. rewrite resume_returning. unfold quiet_resume.
    destruct (s_awaited s) as [v|e] eqn:Aw.
    + unfold finally. simpl. rewrite Ab, orb_true_r. simpl. rewrite Pw.
      repeat split; eauto.
      exists s. rewrite Aw, (outcome_Returns _ Aw). repeat split; reflexivity.
    + unfold quiet_throw. simpl. rewrite len_snoc.
      rewrite (gt_mono _ Hgt) by lia.
      unfold finally. simpl. rewrite orb_true_r. simpl. rewrite Pw.
      repeat split; eauto.
      exists s. rewrite Aw, (outcome_Throws _ Aw). repeat split; try reflexivity.
      * rewrite len_snoc. apply (gt_mono _ Hgt). lia.
      * intros Hv. rewrite Hv. simpl. rewrite len_snoc, <- !app_assoc.
        eexists. eexists. reflexivity.
  - destruct (settle_call_aborted n in_try in_catch w Ab Pw Hstep)
      as (Q & A & P & s & Hs).
    repeat split; eauto.
  - destruct (nth_error (escaped w) k) as [e|]; [|discriminate].
    injection Hstep as <-. simpl. rewrite Pw. repeat split; eauto.
  - injection Hstep as <-. simpl. repeat split; eauto.
Qed.

Lemma after_abort_witness :
  let w := after [Spawn; Spawn; Settle 0]
             (example_run 2 true (Fin 0) [fail "a"; fail "b"]) in
  let w' := after [Settle 0] w in
  queue (this w') = queue (this w) /\
  abort (this w') = true /\
  (exists res err, promise w = Rejected res err) /\
  promise w' = promise w /\
  exists s,
    nth_error (suspended w) 0 = Some s /\
    suspended w' = remove_nth 0 (suspended w) /\
    match s_awaited s with
    | Returns _ =>
        completeTasks (this w') = completeTasks (this w) ++ [outcome s] /\
        failedTasks (this w') = failedTasks (this w) /\
        invoked w' =
          invoked w ++
          emit_calls (listeners (this w)) taskCompleted (outcome s)
    | Throws _ =>
        completeTasks (this w') = completeTasks (this w) /\
        failedTasks (this w') = failedTasks (this w) ++ [outcome s] /\
        invoked w' =
          invoked w ++
          emit_calls (listeners (this w)) taskFailed (outcome s) /\
        gt (len (failedTasks (this w'))) (tolerance (this w')) = true /\
        (verbose (this w) = true ->
         exists before later,
           console w' =
             console w ++ before ++
             LogMessage (tolerance_message (len (failedTasks (this w'))))
             :: later)
    end.
Proof.
  apply (@after_abort (example_module 2 true (Fin 0))
           (example_runner 2 true (Fin 0) [fail "a"; fail "b"])
           (map Returning [Spawn; Spawn; Settle 0]) _
           (Returning (Settle 0)) _).
  - apply example_runner_Fresh.
  - vm_compute. reflexivity.
  - vm_compute. reflexivity.
  - vm_compute. reflexivity.
Defined.

(** C6, as the claim states it, fails: with [tolerance = 0] and one worker,
    a first task that throws rejects the run; nothing is left to happen, the
    second task is still in the queue and has no entry in either
    accumulator. *)
Lemma aborted_run_leaves_task_without_outcome :
  let r := example_runner 1 false (Fin 0) [fail "boom"; succeed JsNull] in
  let g := example_module 1 false (Fin 0) in
  let w := after [Spawn; Settle 0] (runAll g r) in
  exec [Spawn; Settle 0] (runAll g r) = Some w /\
  promise w =
    Rejected this_completeTasks
      (JsError "Runner tolerance exceeded. 1 tasks failed.") /\
  quiescent w = true /\
  len (queue r) = 2 /\
  len (queue (this w)) = 1 /\
  len (completeTasks (this w) ++ failedTasks (this w)) = 1 /\
  ~ Permutation (completeTasks (this w) ++ failedTasks (this w))
      (map outcome (started_from 1 (queue r))).
Proof.
  vm_compute. repeat split; try reflexivity.
  intros P. apply Permutation_length in P. discriminate.
Qed.

(** It also fails when a listener throws: with one task that succeeds and
    a ['taskCompleted'] listener that throws when called with its result,
    the result is already in [completeTasks] when the [catch] block puts a
    [TaskError] for the same task in [failedTasks]; the run resolves with
    two entries for one task. *)
Lemma throwing_listener_records_task_twice :
  let r := listening_runner 1 (Fin 5) [succeed (JsNumber 1)] in
  let g := example_module 1 false (Fin 5) in
  let acts := [Returning Spawn;
               Throwing 0 (Some (0%nat, JsError "listener")) None] in
  let w := after_all acts (runAll g r) in
  let m := {| index := 1; label := None |} in
  perform acts (runAll g r) = Some w /\
  promise w = Resolved this_completeTasks /\
  completeTasks (this w)
  = [{| result := JsNumber 1; error := JsNull; meta := m |}] /\
  failedTasks (this w)
  = [{| result := JsNull; error := JsError "listener"; meta := m |}] /\
  len (queue r) = 1 /\
  escaped w = [] /\ unhandled w = [].
Proof.
  vm_compute. repeat split; reflexivity.
Qed.

(** C6, amended: in a run of a fresh Runner in which every listener that
    is called returns, whenever the queue is empty and no call is in
    flight, whether the run has aborted or not, the two accumulators
    together hold exactly one outcome for each task that was in the queue
    when [runAll] was called: the outcome of the call made for it, with
    index its 1-based position.  This is so, in particular, when the
    promise is resolved. *)
Theorem one_outcome_per_task_when_all_settled g r acts w :
  Fresh r ->
  listeners_return acts = true ->
  perform acts (runAll g r) = Some w ->
  (queue (this w) = [] -> suspended w = [] ->
   Permutation (completeTasks (this w) ++ failedTasks (this w))
     (map outcome (started_from 1 (queue r))) /\
   len (completeTasks (this w)) + len (failedTasks (this w)) = len (queue r)) /\
  (forall a, promise w = Resolved a ->
             abort (this w) = false /\ queue (this w) = [] /\ suspended w = []).
Proof.
  intros F U H.
  destruct (@reached_listening g _ _ _ F U H) as (C & (done & cs & fs & B) & _).
  split.
  - intros Q S. destruct (Books_settled B Q S) as (_ & _ & P).
    split; [exact P|].
    apply Permutation_length in P.
    rewrite length_app, length_map, length_started_from in P.
    unfold len. lia.
  - intros a P. destruct C as [_ _ _ _ Hp _]. rewrite P in Hp. tauto.
Qed.

Lemma one_outcome_per_task_when_all_settled_witness :
  let r := example_runner 2 false (Fin 0)
             [succeed (JsNumber 1); fail "boom"] in
  let g := example_module 2 false (Fin 0) in
  let acts := map Returning [Spawn; Spawn; Settle 1; Settle 0] in
  let w := after_all acts (runAll g r) in
  abort (this w) = true /\
  (queue (this w) = [] -> suspended w = [] ->
   Permutation (completeTasks (this w) ++ failedTasks (this w))
     (map outcome (started_from 1 (queue r))) /\
   len (completeTasks (this w)) + len (failedTasks (this w)) = len (queue r)) /\
  (forall a, promise w = Resolved a ->
             abort (this w) = false /\ queue (this w) = [] /\ suspended w = []).
Proof.
  split; [vm_compute; reflexivity|].
  apply (@one_outcome_per_task_when_all_settled (example_module 2 false (Fin 0))
           (example_runner 2 false (Fin 0) [succeed (JsNumber 1); fail "boom"])
           (map Returning [Spawn; Spawn; Settle 1; Settle 0]) _).
  - apply example_runner_Fresh.
  - reflexivity.
  - vm_compute. reflexivity.
Defined.

(** C7: in every state of a run of a fresh Runner,
    [numActive + numComplete + queue.length] equals [numTotal], the length
    of the queue when [runAll] was called.  (The equation also holds after
    an abort, when the queue is no longer consumed.) *)
Theorem counters_sum_to_numTotal g r evs w :
  Fresh r ->
  exec evs (runAll g r) = Some w ->
  numTotal (this w) = len (queue r) /\
  numActive (this w) + numComplete (this w) + len (queue (this w))
  = numTotal (this w).
Proof.
  intros F H. destruct (reached g _ F H) as (_ & (done & cs & fs & B) & _).
  pose proof (Books_done B) as Hd. destruct B as [Hq Ht _ _ _ _ _ _ _].
  split; [assumption|].
  rewrite Ht, Hd, Hq, len_app. reflexivity.
Qed.

Lemma counters_sum_to_numTotal_witness :
  let w := after [Spawn; Spawn; Settle 1]
             (example_run 2 false (Fin 0)
                [succeed JsNull; succeed JsNull; succeed JsNull]) in
  numTotal (this w) = 3 /\
  numActive (this w) + numComplete (this w) + len (queue (this w))
  = numTotal (this w).
Proof.
  apply (@counters_sum_to_numTotal (example_module 2 false (Fin 0))
           (example_runner 2 false (Fin 0)
              [succeed JsNull; succeed JsNull; succeed JsNull])
           [Spawn; Spawn; Settle 1] _).
  - apply example_runner_Fresh.
  - vm_compute. reflexivity.
Defined.

(** C8: with a non-negative [concurrentLimit], [numActive] never exceeds
    [concurrentLimit] in a run of a fresh Runner (and is the number of
    suspended [runTask] calls). *)
Theorem numActive_within_concurrentLimit g r evs w :
  Fresh r ->
  0 <= concurrentLimit r ->
  exec evs (runAll g r) = Some w ->
  numActive (this w) = len (suspended w) /\
  0 <= numActive (this w) <= concurrentLimit r.
Proof.
  intros F Hl H. destruct (reached g _ F H) as (C & _ & Cfg).
  destruct C as [Ha _ Hloop _ _ _]. destruct Cfg as [Hc _ _ _ _ _].
  simpl in Hc. split; [assumption|].
  rewrite Ha. pose proof (len_nonneg (suspended w)). lia.
Qed.

Lemma numActive_within_concurrentLimit_witness :
  let w := after [Spawn; Spawn; Settle 1]
             (example_run 2 false (Fin 0)
                [succeed JsNull; succeed JsNull; succeed JsNull]) in
  numActive (this w) = len (suspended w) /\
  0 <= numActive (this w) <= 2.
Proof.
  apply (@numActive_within_concurrentLimit (example_module 2 false (Fin 0))
           (example_runner 2 false (Fin 0)
              [succeed JsNull; succeed JsNull; succeed JsNull])
           [Spawn; Spawn; Settle 1] _).
  - apply example_runner_Fresh.
  - vm_compute. discriminate.
  - vm_compute. reflexivity.
Defined.

(** C9: in a run of a fresh Runner, a step that takes the task [t] off the
    queue suspends the call [start k t], whose [index] is [k], the value of
    [numActive + numComplete] once the step has incremented [numActive];
    [k] is one more than the number of tasks dequeued before, so the k-th
    task dequeued gets index [k], and, the queue being consumed from its
    head, [t] is the task at (0-based) position [k - 1] of the queue that
    [runAll] started with.  The calls suspended and the outcomes recorded
    are, at any time, those of the calls numbered [1] to
    [numActive + numComplete]. *)
Theorem index_is_dequeue_count g r evs w ev w' t rest :
  Fresh r ->
  exec evs (runAll g r) = Some w ->
  step ev w = Some w' ->
  queue (this w) = t :: rest ->
  queue (this w') = rest ->
  let k := numActive (this w') + numComplete (this w') in
  (exists others, suspended w' = others ++ [start k t]) /\
  k = len (queue r) - len (queue (this w)) + 1 /\
  nth_error (queue r) (Z.to_nat (k - 1)) = Some t /\
  Permutation
    (map outcome (suspended w') ++
     completeTasks (this w') ++ failedTasks (this w'))
    (map outcome (started_from 1 (firstn (Z.to_nat k) (queue r)))).
Proof.
  intros F H Hstep Q Q'.
  destruct (reached g _ F H) as (_ & (done & cs & fs & B) & _).
  assert (H' : exec (evs ++ [ev]) (runAll g r) = Some w').
  { rewrite exec_app, H. simpl. rewrite Hstep. reflexivity. }
  destruct (reached g _ F H') as (_ & (done' & cs' & fs' & B') & _).
  pose proof (Books_done B) as Hd. pose proof (Books_done B') as Hd'.
  destruct (Books_prefix B Q) as [Hnth Hlen].
  assert (Hk : numActive (this w') + numComplete (this w')
               = numActive (this w) + numComplete (this w) + 1 /\
               exists others,
                 suspended w' = others ++
                   [start (numActive (this w') + numComplete (this w')) t]).
  { apply step_inv in Hstep.
    destruct Hstep as [(-> & Hlt & ->) | (s & l1 & l2 & -> & Hs & ->)].
    - simpl in *. destruct (runTask_dequeue w Q Q') as (-> & -> & ->).
      split; [lia|]. exists (suspended w). reflexivity.
    - unfold quiet_resume in *. unfold finally in *.
      case_if.
      + exfalso. simpl in Q'. 
        assert (queue (this w) = rest);
          [|rewrite Q in *; eapply cons_neq_tail; eassumption].
        rewrite <- Q'. destruct (s_awaited s); [reflexivity|].
        match goal with |- context [quiet_throw ?a ?b ?c] =>
          destruct (on_throw_unchanged a b c) as (_ & -> & _) end.
        reflexivity.
      + match type of Q' with context [runTask ?x] =>
          assert (Qx : queue (this x) = t :: rest /\
                       numActive (this x) + numComplete (this x)
                       = numActive (this w) + numComplete (this w))
        end.
        { destruct (s_awaited s).
          - simpl. split; [assumption|lia].
          - simpl.
            match goal with |- context [quiet_throw ?a ?b ?c] =>
              destruct (on_throw_unchanged a b c) as (_ & -> & _ & _ & -> & ->) end.
            simpl. split; [assumption|lia]. }
        destruct Qx as [Qx Hsum].
        match type of Q' with context [runTask ?x] =>
          destruct (runTask_dequeue x Qx Q') as (-> & -> & ->) end.
        split; [lia|]. eexists. reflexivity. }
  destruct Hk as [Hk Hsusp].
  split; [exact Hsusp|]. split; [lia|]. split.
  - replace (numActive (this w') + numComplete (this w') - 1) with (len done) by lia.
    assumption.
  - destruct B' as [Hq' _ _ _ Hc' Hf' _ _ Hp'].
    rewrite Hc', Hf', <- !map_app. apply Permutation_map.
    replace (firstn _ (queue r)) with done'; [assumption|].
    rewrite Hq', Hd'. unfold len. rewrite Nat2Z.id.
    rewrite firstn_app, firstn_all, Nat.sub_diag. simpl. rewrite app_nil_r. reflexivity.
Qed.

Lemma index_is_dequeue_count_witness :
  let r := example_runner 2 false (Fin 0)
             [succeed (JsNumber 7); succeed (JsNumber 8); succeed (JsNumber 9)] in
  let g := example_module 2 false (Fin 0) in
  let w := after [Spawn; Spawn] (runAll g r) in
  let w' := after [Settle 1] w in
  let k := numActive (this w') + numComplete (this w') in
  let third := {| cb := succeed (JsNumber 9); task_label := None |} in
  (exists others, suspended w' = others ++ [start k third]) /\
  k = len (queue r) - len (queue (this w)) + 1 /\
  nth_error (queue r) (Z.to_nat (k - 1)) = Some third /\
  Permutation
    (map outcome (suspended w') ++
     completeTasks (this w') ++ failedTasks (this w'))
    (map outcome (started_from 1 (firstn (Z.to_nat k) (queue r)))).
Proof.
  apply (@index_is_dequeue_count (example_module 2 false (Fin 0))
           (example_runner 2 false (Fin 0)
              [succeed (JsNumber 7); succeed (JsNumber 8); succeed (JsNumber 9)])
           [Spawn; Spawn] _ (Settle 1) _ _ []).
  - apply example_runner_Fresh.
  - vm_compute. reflexivity.
  - vm_compute. reflexivity.
  - vm_compute. reflexivity.
  - vm_compute. reflexivity.
Defined.

(** C10: [new Runner(limit, options)] leaves in [DEFAULT_RUNNER_OPTIONS]
    what [Object.assign] wrote there, so the defaults object holds the new
    Runner's [tolerance] and [verbose].  A second Runner made without
    options has the first one's tolerance, verbosity and option listeners,
    whatever the defaults were before; one made with options [o2] has them
    for every field that [o2] leaves out. *)
Theorem constructor_writes_to_shared_defaults g limit1 o1 limit2 o2 :
  let g1 := fst (new_Runner g limit1 (Some o1)) in
  let r1 := snd (new_Runner g limit1 (Some o1)) in
  let r2 := snd (new_Runner g1 limit2 None) in
  let r2' := snd (new_Runner g1 limit2 (Some o2)) in
  DEFAULT_RUNNER_OPTIONS g1 = Object_assign (DEFAULT_RUNNER_OPTIONS g) (Some o1) /\
  o_tolerance (DEFAULT_RUNNER_OPTIONS g1) = tolerance r1 /\
  o_verbose (DEFAULT_RUNNER_OPTIONS g1) = verbose r1 /\
  tolerance r1 = or_else (arg_tolerance o1) (o_tolerance (DEFAULT_RUNNER_OPTIONS g)) /\
  verbose r1 = or_else (arg_verbose o1) (o_verbose (DEFAULT_RUNNER_OPTIONS g)) /\
  tolerance r2 = tolerance r1 /\
  verbose r2 = verbose r1 /\
  listeners r2 = listeners r1 /\
  tolerance r2' = or_else (arg_tolerance o2) (tolerance r1) /\
  verbose r2' = or_else (arg_verbose o2) (verbose r1).
Proof.
  unfold new_Runner. simpl.
  destruct (or_keep (arg_onTaskComplete o1) _) as [h1|],
           (or_keep (arg_onTaskFailed o1) _) as [h2|];
    simpl;
    destruct (or_keep (arg_onTaskComplete o2) _),
             (or_keep (arg_onTaskFailed o2) _);
    repeat split; reflexivity.
Qed.

(** C10 on an example: after [new Runner(5, { verbose: false, tolerance: 3 })]
    in a freshly loaded module, [new Runner()] has [tolerance = 3] and
    [verbose = false], not the documented [0] and [true]. *)
Example second_runner_inherits_options :
  let g1 := fst (new_Runner module_loaded (Some 5)
                   (Some {| arg_verbose := Some false; arg_tolerance := Some (Fin 3);
                            arg_onTaskComplete := None;
                            arg_onTaskFailed := None |})) in
  let r2 := snd (new_Runner g1 None None) in
  tolerance r2 = Fin 3 /\ verbose r2 = false /\
  tolerance (snd (new_Runner module_loaded None None)) = Fin 0 /\
  verbose (snd (new_Runner module_loaded None None)) = true.
Proof. repeat split; reflexivity. Qed.

(* ------------------------------------------------------------------ *)
(** ** Further properties of the Runner *)

Lemma addMany_from cbs labels k idx r :
  (forall i, In i idx -> nth_error cbs i <> None) ->
  queue
    (fold_left
       (fun r i =>
          match nth_error cbs i with
          | Some f =>
              add f (match labels with
                     | Some ls => nth_error ls i
                     | None => None
                     end) r
          | None => r
          end) idx r)
  = queue r ++
    map (fun i =>
           {| cb := nth i cbs k;
              task_label := match labels with
                            | Some ls => nth_error ls i
                            | None => None
                            end |}) idx.
Proof.
  revert r. induction idx as [|i idx IH]; intros r Hin; simpl.
  - symmetry. apply app_nil_r.
  - rewrite IH by (intros j Hj; apply Hin; right; assumption).
    destruct (nth_error cbs i) as [f|] eqn:E.
    + simpl. rewrite <- app_assoc. simpl.
      rewrite (nth_error_nth _ _ k E). reflexivity.
    + exfalso. apply (Hin i); [left; reflexivity|assumption].
Qed.

Lemma pair_labels_indices k cbs labels :
  map (fun i =>
         {| cb := nth i cbs k; task_label := nth_error labels i |})
      (seq 0 (List.length cbs))
  = pair_labels cbs labels.
Proof.
  revert labels. induction cbs as [|f cbs IH]; intros labels; simpl; [reflexivity|].
  replace (nth_error labels 0) with (hd_error labels)
    by (destruct labels; reflexivity).
  f_equal.
  rewrite <- seq_shift, map_map. rewrite <- (IH (tl labels)).
  apply map_ext. intros i. destruct labels; simpl; [|reflexivity].
  destruct i; reflexivity.
Qed.

(** X1: [addMany(cbs, labels)] appends the tasks to the queue in order,
    each with the label at its position; tasks past the end of [labels]
    (all of them when [labels] is absent) get no label.  Nothing else of
    the Runner changes. *)
Theorem addMany_appends_in_order cbs labels r :
  queue (addMany cbs labels r)
  = queue r ++ pair_labels cbs (or_else labels []) /\
  addMany cbs labels r = set_queue (queue (addMany cbs labels r)) r.
Proof.
  split.
  - unfold addMany.
    rewrite (@addMany_from cbs labels (fun _ _ => Returns JsUndefined)).
    + f_equal. rewrite <- (pair_labels_indices (fun _ _ => Returns JsUndefined)).
      apply map_ext. intros i. destruct labels; simpl; [reflexivity|].
      destruct i; reflexivity.
    + intros i Hi. apply in_seq in Hi. apply nth_error_Some. lia.
  - unfold addMany. generalize (seq 0 (List.length cbs)). intros idx.
    assert (G : forall r0,
               set_queue (queue r0) r = r0 ->
               let r1 := fold_left
                 (fun r i =>
                    match nth_error cbs i with
                    | Some f =>
                        add f (match labels with
                               | Some ls => nth_error ls i
                               | None => None
                               end) r
                    | None => r
                    end) idx r0 in
               r1 = set_queue (queue r1) r).
    { induction idx as [|i idx IH]; intros r0 H0; simpl.
      - symmetry. assumption.
      - apply IH. destruct (nth_error cbs i); [|assumption].
        rewrite <- H0. reflexivity. }
    apply G. destruct r; reflexivity.
Qed.

Lemma Extends_refl w : Extends w w.
Proof.
  constructor; auto; try (exists []; rewrite app_nil_r; reflexivity).
  exists []. reflexivity.
Qed.

Lemma Extends_trans w1 w2 w3 : Extends w1 w2 -> Extends w2 w3 -> Extends w1 w3.
Proof.
  intros [A1 P1 [c1 C1] [f1 F1] [i1 I1] [o1 O1] [q1 Q1]]
         [A2 P2 [c2 C2] [f2 F2] [i2 I2] [o2 O2] [q2 Q2]].
  constructor.
  - auto.
  - intros H. rewrite P2; [auto|]. rewrite P1; assumption.
  - exists (c1 ++ c2). rewrite C2, C1, app_assoc. reflexivity.
  - exists (f1 ++ f2). rewrite F2, F1, app_assoc. reflexivity.
  - exists (i1 ++ i2). rewrite I2, I1, app_assoc. reflexivity.
  - exists (o1 ++ o2). rewrite O2, O1, app_assoc. reflexivity.
  - exists (q1 ++ q2). rewrite Q1, Q2, app_assoc. reflexivity.
Qed.

(** A change of fields that [Extends] does not look at. *)
Lemma Extends_same w w' :
  abort (this w') = abort (this w) ->
  completeTasks (this w') = completeTasks (this w) ->
  failedTasks (this w') = failedTasks (this w) ->
  queue (this w') = queue (this w) ->
  promise w' = promise w -> invoked w' = invoked w ->
  console w' = console w ->
  Extends w w'.
Proof.
  intros Ha Hc Hf Hq Hp Hi Ho.
  constructor; rewrite ?Ha, ?Hc, ?Hf, ?Hq, ?Hp, ?Hi, ?Ho; auto;
    try (exists []; rewrite app_nil_r; reflexivity).
  exists []. reflexivity.
Qed.

Lemma runTask_Extends w : Extends w (runTask w).
Proof.
  unfold runTask. destruct (abort (this w)) eqn:Ab; [apply Extends_refl|].
  destruct (queue (this w)) as [|t rest] eqn:Q; [apply Extends_refl|].
  constructor; simpl; auto; try (exists []; rewrite app_nil_r; reflexivity).
  - eexists. reflexivity.
  - exists [t]. rewrite Q. reflexivity.
Qed.

Lemma finally_Extends w : Extends w (finally w).
Proof.
  unfold finally. case_if.
  - constructor; simpl; auto; try (exists []; rewrite app_nil_r; reflexivity).
    + intros H. destruct (promise w); [contradiction| |]; reflexivity.
    + rewrite <- app_assoc. eexists. reflexivity.
    + exists []. reflexivity.
  - eapply Extends_trans; [|apply runTask_Extends].
    apply Extends_same; reflexivity.
Qed.

Lemma on_return_Extends s v w : Extends w (quiet_return s v w).
Proof.
  constructor; simpl; auto; try (exists []; rewrite app_nil_r; reflexivity).
  - eexists. reflexivity.
  - eexists. reflexivity.
  - rewrite <- app_assoc. eexists. reflexivity.
  - exists []. reflexivity.
Qed.

Lemma on_throw_Extends s e w : Extends w (quiet_throw s e w).
Proof.
  unfold quiet_throw. case_if.
  - constructor; simpl; auto; try (exists []; rewrite app_nil_r; reflexivity).
    + intros H. destruct (promise w); [contradiction| |]; reflexivity.
    + eexists. reflexivity.
    + eexists. reflexivity.
    + rewrite <- !app_assoc. eexists. reflexivity.
    + exists []. reflexivity.
  - constructor; simpl; auto; try (exists []; rewrite app_nil_r; reflexivity).
    + eexists. reflexivity.
    + eexists. reflexivity.
    + eexists. reflexivity.
    + exists []. reflexivity.
Qed.

Lemma step_Extends ev w w' : step ev w = Some w' -> Extends w w'.
Proof.
  intros H. apply step_inv in H.
  destruct H as [(-> & Hlt & ->) | (s & l1 & l2 & -> & Hs & ->)].
  - eapply Extends_trans; [apply runTask_Extends|].
    apply Extends_same; reflexivity.
  - eapply Extends_trans;
      [apply Extends_same with (w' := set_suspended (l1 ++ l2) w);
       reflexivity|].
    unfold quiet_resume. eapply Extends_trans; [|apply finally_Extends].
    destruct (s_awaited s); [apply on_return_Extends|apply on_throw_Extends].
Qed.

(** X2: a run only ever adds.  Along any schedule, from any state: the
    abort flag, once set, stays set; the promise, once settled, keeps its
    state (the first [resolve] or [reject] wins); [completeTasks],
    [failedTasks], the listener calls and the console keep what they hold
    and grow at the end; the queue loses tasks at its head only. *)
Theorem run_only_extends evs w w' :
  exec evs w = Some w' -> Extends w w'.
Proof.
  revert w. induction evs as [|ev evs IH]; intros w; simpl.
  - intros [= <-]. apply Extends_refl.
  - destruct (step ev w) as [w1|] eqn:S1; [|discriminate].
    intros H. eapply Extends_trans; [eapply step_Extends; eassumption|].
    apply IH. assumption.
Qed.

Lemma run_only_extends_witness :
  Extends (after [Spawn; Spawn; Settle 0]
             (example_run 2 true (Fin 0) [fail "a"; fail "b"; succeed JsNull]))
          (after [Spawn; Spawn; Settle 0; Settle 0]
             (example_run 2 true (Fin 0) [fail "a"; fail "b"; succeed JsNull])).
Proof.
  apply (@run_only_extends [Settle 0]
           (after [Spawn; Spawn; Settle 0]
              (example_run 2 true (Fin 0) [fail "a"; fail "b"; succeed JsNull]))
           _).
  vm_compute. reflexivity.
Defined.

Lemma quiescent_no_step w ev : quiescent w = true -> step ev w = None.
Proof.
  unfold quiescent. intros H. apply andb_prop in H. destruct H as [Hl Hs].
  apply negb_true_iff in Hl. apply Z.eqb_eq, len_0 in Hs.
  destruct ev as [|n]; simpl.
  - rewrite Hl. reflexivity.
  - rewrite Hs. destruct n; reflexivity.
Qed.

(** X3: every run ends.  Each event uses up one unit of [fuel] (loop
    iterations left, calls suspended, tasks queued), so a schedule has at
    most that many events; as long as the state is not quiescent some event
    can happen, in a quiescent state none can, and every state can be
    continued to a quiescent one. *)
Theorem run_is_bounded evs w w' :
  exec evs w = Some w' ->
  (List.length evs + fuel w' = fuel w)%nat /\
  (quiescent w' = false -> exists ev w'', step ev w' = Some w'') /\
  (quiescent w' = true -> forall ev, step ev w' = None) /\
  (exists evs' w'',
      exec (evs ++ evs') w = Some w'' /\ quiescent w'' = true /\
      (List.length (evs ++ evs') <= fuel w)%nat).
Proof.
  intros H. pose proof (exec_fuel _ _ H) as Hf.
  split; [lia|]. split; [apply progress|].
  split; [intros Q ev; apply quiescent_no_step; assumption|].
  destruct (drain w') as (evs' & w'' & He & Hq).
  exists evs', w''. split; [rewrite exec_app, H; assumption|].
  split; [assumption|].
  pose proof (exec_fuel _ _ He). rewrite length_app. lia.
Qed.

Lemma run_is_bounded_witness :
  let w := example_run 2 false (Fin 1) [fail "a"; succeed JsNull; succeed JsNull] in
  let evs := [Spawn; Spawn; Settle 1] in
  let w' := after evs w in
  (List.length evs + fuel w' = fuel w)%nat /\
  (quiescent w' = false -> exists ev w'', step ev w' = Some w'') /\
  (quiescent w' = true -> forall ev, step ev w' = None) /\
  (exists evs' w'',
      exec (evs ++ evs') w = Some w'' /\ quiescent w'' = true /\
      (List.length (evs ++ evs') <= fuel w)%nat).
Proof.
  apply (@run_is_bounded [Spawn; Spawn; Settle 1]
           (example_run 2 false (Fin 1)
              [fail "a"; succeed JsNull; succeed JsNull]) _).
  vm_compute. reflexivity.
Defined.

Lemma aborted_idle evs w w' :
  abort (this w) = true -> suspended w = [] ->
  exec evs w = Some w' ->
  this w' = this w /\ promise w' = promise w /\ suspended w' = [] /\
  invoked w' = invoked w /\ console w' = console w.
Proof.
  revert w. induction evs as [|ev evs IH]; intros w Ab S; simpl.
  - intros [= <-]. repeat split; auto.
  - destruct ev as [|n]; simpl.
    + destruct (loop_i w <? concurrentLimit (this w)); [|discriminate].
      assert (R : spawn w = w) by (apply spawn_idle; auto).
      rewrite R. intros H. apply IH in H; simpl; auto.
    + rewrite S. destruct n; discriminate.
Qed.

(** X4: the abort flag is never cleared, so a Runner that has aborted
    cannot be used again: when [runAll] is called on a Runner whose flag is
    set, every [runTask] call returns at once; whatever is in the queue
    stays there, no listener is called, and the promise stays pending for
    ever. *)
Theorem aborted_runner_never_runs_again g r evs w :
  abort r = true ->
  exec evs (runAll g r) = Some w ->
  promise w = Pending /\
  queue (this w) = queue r /\
  suspended w = [] /\
  completeTasks (this w) = completeTasks r /\
  failedTasks (this w) = failedTasks r /\
  invoked w = [].
Proof.
  intros Ab H. apply aborted_idle in H; simpl; auto.
  destruct H as (H1 & H2 & H3 & H4 & _). rewrite H1. simpl. repeat split; auto.
Qed.

Lemma aborted_runner_never_runs_again_witness :
  let g := example_module 1 false (Fin 0) in
  let r := this (after [Spawn; Settle 0]
                   (example_run 1 false (Fin 0) [fail "boom"; succeed JsNull])) in
  let w := after [Spawn] (runAll g r) in
  len (queue r) = 1 /\
  quiescent w = true /\
  promise w = Pending /\
  queue (this w) = queue r /\
  suspended w = [] /\
  completeTasks (this w) = completeTasks r /\
  failedTasks (this w) = failedTasks r /\
  invoked w = [].
Proof.
  split; [vm_compute; reflexivity|]. split; [vm_compute; reflexivity|].
  apply (@aborted_runner_never_runs_again (example_module 1 false (Fin 0))
           (this (after [Spawn; Settle 0]
                    (example_run 1 false (Fin 0) [fail "boom"; succeed JsNull])))
           [Spawn] _).
  - vm_compute. reflexivity.
  - vm_compute. reflexivity.
Defined.

(** X5: the counters and the accumulators are never reset, so on a Runner
    used again after a run that resolved, the first task of the next run
    gets the index that follows the number of tasks of the first run (not
    1), [numTotal] counts the newly queued task only, and [completeTasks]
    and [failedTasks] still hold the outcomes of the first run. *)
Theorem reused_runner_continues_count g r evs w a g2 f lbl w2 :
  Fresh r ->
  exec evs (runAll g r) = Some w ->
  promise w = Resolved a ->
  step Spawn (runAll g2 (add f lbl (this w))) = Some w2 ->
  suspended w2
  = [start (len (queue r) + 1) {| cb := f; task_label := lbl |}] /\
  numTotal (this w2) = 1 /\
  numActive (this w2) + numComplete (this w2) = len (queue r) + 1 /\
  completeTasks (this w2) = completeTasks (this w) /\
  failedTasks (this w2) = failedTasks (this w).
Proof.
  intros F H P Hstep.
  destruct (reached g _ F H) as (C & (done & cs & fs & B) & _).
  pose proof (Books_done B) as Hd.
  destruct C as [Ha _ _ _ Hp _]. rewrite P in Hp. destruct Hp as (Ab & S & Q).
  destruct B as [Hq _ _ _ _ _ _ _ _]. rewrite Q, app_nil_r in Hq. subst done.
  rewrite S, len_nil in Ha.
  simpl in Hstep.
  destruct (0 <? concurrentLimit (this w)); [|discriminate].
  injection Hstep as <-.
  unfold spawn, runTask. simpl. rewrite Ab, Q. simpl.
  unfold start. simpl.
  replace (numActive (this w) + 1 + numComplete (this w))
    with (len (queue r) + 1) by lia.
  rewrite Q. repeat split; reflexivity.
Qed.

Lemma reused_runner_continues_count_witness :
  let g := example_module 2 false (Fin 1) in
  let r := example_runner 2 false (Fin 1) [fail "a"; succeed JsNull] in
  let w := after [Spawn; Spawn; Settle 0; Settle 0] (runAll g r) in
  let w2 := after [Spawn] (runAll g (add (succeed JsNull) None (this w))) in
  suspended w2
  = [start (len (queue r) + 1)
       {| cb := succeed JsNull; task_label := None |}] /\
  numTotal (this w2) = 1 /\
  numActive (this w2) + numComplete (this w2) = len (queue r) + 1 /\
  completeTasks (this w2) = completeTasks (this w) /\
  failedTasks (this w2) = failedTasks (this w).
Proof.
  apply (@reused_runner_continues_count (example_module 2 false (Fin 1))
           (example_runner 2 false (Fin 1) [fail "a"; succeed JsNull])
           [Spawn; Spawn; Settle 0; Settle 0] _ this_completeTasks
           (example_module 2 false (Fin 1)) (succeed JsNull) None _).
  - apply example_runner_Fresh.
  - vm_compute. reflexivity.
  - vm_compute. reflexivity.
  - vm_compute. reflexivity.
Defined.

(** What a run can print, by the verbosity of the Runner and the state of
    the module's [log]. *)
Lemma prints_ok_nil vb ll : prints_ok vb ll [].
Proof. split; [reflexivity|constructor]. Qed.

Lemma prints_ok_app vb ll a b :
  prints_ok vb ll a -> prints_ok vb ll b -> prints_ok vb ll (a ++ b).
Proof.
  intros [A1 A2] [B1 B2]. split.
  - intros Hv Hl. rewrite A1, B1 by assumption. reflexivity.
  - intros Hl. apply Forall_app. auto.
Qed.

Lemma Prints_same w w' :
  verbose (this w') = verbose (this w) -> log_live w' = log_live w ->
  console w' = console w ->
  Prints w w'.
Proof.
  intros Hv Hl Hc. constructor; try assumption.
  exists []. rewrite app_nil_r. split; [assumption|apply prints_ok_nil].
Qed.

Lemma Prints_trans w1 w2 w3 : Prints w1 w2 -> Prints w2 w3 -> Prints w1 w3.
Proof.
  intros [V1 L1 (a & Ca & Pa)] [V2 L2 (b & Cb & Pb)].
  constructor; try congruence.
  exists (a ++ b). split.
  - rewrite Cb, Ca, app_assoc. reflexivity.
  - apply prints_ok_app; [assumption|]. rewrite <- V1, <- L1. assumption.
Qed.

Lemma Prints_intro w w' more :
  verbose (this w') = verbose (this w) -> log_live w' = log_live w ->
  console w' = console w ++ more ->
  prints_ok (verbose (this w)) (log_live w) more ->
  Prints w w'.
Proof.
  intros Hv Hl Hc P. constructor; try assumption. exists more. auto.
Qed.

(** A line printed with [l] inside [if (this.#verbose)]. *)
Lemma prints_ok_l vb ll line :
  printed_with_l line = true ->
  prints_ok vb ll (if vb then [line] else []).
Proof.
  intros Hp. split.
  - intros -> _. reflexivity.
  - intros _. destruct vb; [|constructor]. constructor; [assumption|constructor].
Qed.

(** A line printed with [log], inside [if (this.#verbose)] or not. *)
Lemma prints_ok_log vb ll c line :
  prints_ok vb ll (if c && ll then [line] else []).
Proof.
  split.
  - intros _ ->. rewrite andb_false_r. reflexivity.
  - intros ->. rewrite andb_false_r. constructor.
Qed.

Lemma runTask_Prints w : Prints w (runTask w).
Proof.
  unfold runTask. destruct (abort (this w)); [apply Prints_same; reflexivity|].
  destruct (queue (this w)); [apply Prints_same; reflexivity|].
  eapply Prints_intro; [reflexivity|reflexivity|simpl; reflexivity|].
  apply prints_ok_l. reflexivity.
Qed.

Lemma finally_Prints w : Prints w (finally w).
Proof.
  unfold finally. case_if.
  - eapply Prints_intro;
      [reflexivity|reflexivity|simpl; rewrite <- ?app_assoc; reflexivity|].
    apply prints_ok_app; [apply prints_ok_log|].
    rewrite <- andb_assoc, (andb_comm (log_live w)), andb_assoc.
    apply prints_ok_log.
  - match goal with |- Prints _ (runTask ?x) =>
      apply Prints_trans with (w2 := x) end;
      [apply Prints_same; reflexivity|apply runTask_Prints].
Qed.

Lemma on_return_Prints s v w : Prints w (quiet_return s v w).
Proof.
  eapply Prints_intro;
    [reflexivity|reflexivity|simpl; rewrite <- ?app_assoc; reflexivity|].
  apply prints_ok_app; apply prints_ok_log.
Qed.

Lemma tolerance_exceeded_Prints w : Prints w (tolerance_exceeded w).
Proof.
  eapply Prints_intro;
    [reflexivity|reflexivity|simpl; rewrite <- ?app_assoc; reflexivity|].
  apply prints_ok_app; [apply prints_ok_l; reflexivity|].
  apply prints_ok_app; [apply (prints_ok_log _ _ true)|].
  apply prints_ok_app; [apply (prints_ok_log _ _ true)|].
  apply (prints_ok_log _ _ true).
Qed.

Lemma on_throw_Prints s e w : Prints w (quiet_throw s e w).
Proof.
  unfold quiet_throw.
  match goal with |- context [if ?c then tolerance_exceeded ?x else _] =>
    assert (P : Prints w x) end.
  { eapply Prints_intro; [reflexivity|reflexivity|simpl; reflexivity|].
    apply prints_ok_log. }
  case_if; [|exact P].
  eapply Prints_trans; [exact P|apply tolerance_exceeded_Prints].
Qed.

Lemma step_Prints ev w w' : step ev w = Some w' -> Prints w w'.
Proof.
  intros H. apply step_inv in H.
  destruct H as [(-> & Hlt & ->) | (s & l1 & l2 & -> & Hs & ->)].
  - apply Prints_trans with (w2 := runTask w);
      [apply runTask_Prints|apply Prints_same; reflexivity].
  - apply Prints_trans with (w2 := set_suspended (l1 ++ l2) w);
      [apply Prints_same; reflexivity|].
    unfold quiet_resume.
    match goal with |- Prints _ (finally ?x) =>
      apply Prints_trans with (w2 := x); [|apply finally_Prints] end.
    destruct (s_awaited s); [apply on_return_Prints|apply on_throw_Prints].
Qed.

Lemma exec_Prints evs w w' : exec evs w = Some w' -> Prints w w'.
Proof.
  revert w. induction evs as [|ev evs IH]; intros w; simpl.
  - intros [= <-]. apply Prints_same; reflexivity.
  - destruct (step ev w) as [w1|] eqn:S1; [|discriminate].
    intros H. eapply Prints_trans; [eapply step_Prints; eassumption|].
    apply IH. assumption.
Qed.

Lemma runAll_Prints g r :
  exists more,
    console (runAll g r) = more /\ prints_ok (verbose r) (log_is_l g) more /\
    verbose (this (runAll g r)) = verbose r /\
    log_live (runAll g r) = log_is_l g.
Proof.
  eexists. split; [reflexivity|]. split; [|split; reflexivity].
  simpl. split.
  - intros _ ->. reflexivity.
  - intros ->. constructor.
Qed.

Lemma addMany_verbose cbs labels r : verbose (addMany cbs labels r) = verbose r.
Proof.
  unfold addMany. generalize (seq 0 (List.length cbs)). intros idx.
  revert r. induction idx as [|i idx IH]; intros r; simpl; [reflexivity|].
  rewrite IH. destruct (nth_error cbs i); reflexivity.
Qed.

Lemma new_Runner_verbose g limit options :
  verbose (snd (new_Runner g limit options))
  = o_verbose (Object_assign (DEFAULT_RUNNER_OPTIONS g) options) /\
  log_is_l (fst (new_Runner g limit options))
  = (verbose (snd (new_Runner g limit options)) && log_is_l g).
Proof.
  unfold new_Runner. simpl.
  destruct (onTaskComplete _), (onTaskFailed _); simpl;
    (split; [reflexivity|]);
    destruct (o_verbose _); reflexivity.
Qed.

(** X6: a Runner made with [verbose: false] is silent.  Its constructor
    replaces the module's [log] by a function that does nothing, and every
    [l(...)] call of a run is inside [if (this.#verbose)]: whatever the
    tasks do, a run prints nothing at all. *)
Theorem quiet_runner_prints_nothing g limit options cbs labels evs w :
  let g' := fst (new_Runner g limit options) in
  let r := addMany cbs labels (snd (new_Runner g limit options)) in
  verbose r = false ->
  exec evs (runAll g' r) = Some w ->
  console w = [].
Proof.
  intros g' r Hv H.
  destruct (new_Runner_verbose g limit options) as [_ Hl].
  unfold r in Hv. rewrite addMany_verbose in Hv. rewrite Hv in Hl. simpl in Hl.
  fold g' in Hl.
  destruct (exec_Prints _ _ H) as [_ _ (more & Hc & P1 & _)].
  destruct (runAll_Prints g' r) as (m0 & C0 & (Q1 & _) & V0 & L0).
  rewrite V0, L0 in P1. unfold r in P1, Q1. rewrite addMany_verbose in P1, Q1.
  rewrite Hc, C0, Q1, P1 by assumption. reflexivity.
Qed.

Lemma quiet_runner_prints_nothing_witness :
  console
    (after [Spawn; Spawn; Settle 0; Settle 0]
       (example_run 2 false (Fin 0) [fail "a"; fail "b"; succeed JsNull]))
  = [].
Proof.
  apply (@quiet_runner_prints_nothing module_loaded (Some 2)
           (Some (example_options false (Fin 0)))
           [fail "a"; fail "b"; succeed JsNull] None
           [Spawn; Spawn; Settle 0; Settle 0] _).
  - vm_compute. reflexivity.
  - vm_compute. reflexivity.
Defined.

(** X7: the silencing of [log] is for good and for every Runner of the
    module.  Once a Runner was made with [verbose: false], a Runner made
    later, verbose or not, prints in its runs only what goes through [l]:
    the progress counter and the tolerance message; the initial line, the
    per-task lines and the completion summary are lost. *)
Theorem silenced_log_stays_silent g limit1 options1 limit2 options2
        cbs labels evs w :
  let g1 := fst (new_Runner g limit1 options1) in
  let g2 := fst (new_Runner g1 limit2 options2) in
  let r2 := addMany cbs labels (snd (new_Runner g1 limit2 options2)) in
  verbose (snd (new_Runner g limit1 options1)) = false ->
  exec evs (runAll g2 r2) = Some w ->
  log_is_l g2 = false /\
  Forall (fun line => printed_with_l line = true) (console w).
Proof.
  intros g1 g2 r2 Hv H.
  destruct (new_Runner_verbose g limit1 options1) as [_ Hl1].
  rewrite Hv in Hl1. change (false && log_is_l g) with false in Hl1.
  fold g1 in Hl1.
  destruct (new_Runner_verbose g1 limit2 options2) as [_ Hl2].
  rewrite Hl1, andb_false_r in Hl2. fold g2 in Hl2.
  split; [assumption|].
  destruct (exec_Prints _ _ H) as [_ _ (more & Hc & _ & P2)].
  destruct (runAll_Prints g2 r2) as (m0 & C0 & (_ & Q2) & V0 & L0).
  rewrite Hc, C0. apply Forall_app. split.
  - apply Q2. assumption.
  - apply P2. rewrite L0. assumption.
Qed.

Lemma silenced_log_stays_silent_witness :
  let g1 := fst (new_Runner module_loaded None
                   (Some (example_options false (Fin 0)))) in
  let g2 := fst (new_Runner g1 (Some 2) (Some (example_options true (Fin 0)))) in
  let r2 := addMany [succeed JsNull; fail "a"] None
              (snd (new_Runner g1 (Some 2)
                      (Some (example_options true (Fin 0))))) in
  let w := after [Spawn; Spawn; Settle 0; Settle 0] (runAll g2 r2) in
  verbose r2 = true /\
  console w
  = [LogProgress 1 2; LogProgress 2 2;
     LogMessage "Runner tolerance exceeded. 1 tasks failed."] /\
  log_is_l g2 = false /\
  Forall (fun line => printed_with_l line = true) (console w).
Proof.
  split; [vm_compute; reflexivity|]. split; [vm_compute; reflexivity|].
  apply (@silenced_log_stays_silent module_loaded None
           (Some (example_options false (Fin 0)))
           (Some 2) (Some (example_options true (Fin 0)))
           [succeed JsNull; fail "a"] None
           [Spawn; Spawn; Settle 0; Settle 0] _).
  - vm_compute. reflexivity.
  - vm_compute. reflexivity.
Defined.


Lemma resume_Returns s v w :
  s_awaited s = Returns v ->
  invoked (quiet_resume s w)
  = invoked w ++ emit_calls (listeners (this w)) taskCompleted (outcome s) /\
  completeTasks (this (quiet_resume s w)) = completeTasks (this w) ++ [outcome s] /\
  failedTasks (this (quiet_resume s w)) = failedTasks (this w) /\
  abort (this (quiet_resume s w)) = abort (this w).
Proof.
  intros Aw. unfold quiet_resume. rewrite Aw.
  match goal with |- context [finally ?x] =>
    destruct (finally_ledger x) as (-> & -> & -> & -> & _) end.
  rewrite (outcome_Returns _ Aw). repeat split; reflexivity.
Qed.

(** *** When a listener throws *)





Lemma step_from_Pending k w ev w' :
  Control w ->
  tolerance (this w) = Fin k ->
  0 <= k ->
  promise w = Pending ->
  step ev w = Some w' ->
  promise w' = Pending \/
  promise w' = Resolved this_completeTasks \/
  promise w' = Rejected this_completeTasks (JsError (tolerance_message (k + 1))) /\
  len (failedTasks (this w')) = k + 1.
Proof.
  intros C Ht Hk P Hstep.
  apply step_inv in Hstep.
  destruct Hstep as [(-> & Hlt & ->) | (s & l1 & l2 & -> & Hs & ->)].
  - left. simpl. destruct (runTask_ledger w) as (_ & _ & _ & _ & -> & _).
    assumption.
  - unfold quiet_resume.
    match goal with |- context [finally ?x] =>
      destruct (finally_ledger x) as (_ & _ & Hf & _ & Hpr) end.
    rewrite Hf. clear Hf.
    destruct (s_awaited s) as [v|e].
    + simpl in *. rewrite P in Hpr.
      destruct Hpr as [->|[_ ->]]; auto.
    + revert Hpr. unfold quiet_throw. simpl. rewrite len_snoc, Ht. simpl.
      destruct C as [_ _ _ Hab Hp _]. rewrite P in Hp. destruct Hp as [Ab _].
      rewrite Ab, Ht in Hab. simpl in Hab.
      pose proof (len_nonneg (failedTasks (this w))) as Hnn.
      destruct (Z.ltb_spec k (len (failedTasks (this w)) + 1)) as [Hlt|Hge];
        simpl; rewrite ?len_snoc, P; simpl; intros Hpr.
      * assert (len (failedTasks (this w)) = k).
        { symmetry in Hab. apply andb_false_elim in Hab.
          destruct Hab as [Hab|Hab]; [apply Z.ltb_ge in Hab|apply Z.ltb_ge in Hab];
            lia. }
        right; right.
        destruct Hpr as [->|[X _]]; [|discriminate].
        split; [|lia]. do 3 f_equal. lia.
      * destruct Hpr as [->|[_ ->]]; auto.
Qed.

Lemma exec_snoc evs ev w w' :
  exec (evs ++ [ev]) w = Some w' ->
  exists w1, exec evs w = Some w1 /\ step ev w1 = Some w'.
Proof.
  rewrite exec_app. destruct (exec evs w) as [w1|]; [|discriminate].
  simpl. destruct (step ev w1) as [w2|] eqn:S1; [|discriminate].
  intros [= <-]. eauto.
Qed.

(** *** The counters, whatever the listeners do *)

(** X27: in any run of a fresh Runner, whether the listeners return or
    throw and whether the handler of the loop has run or not, [#numActive]
    is the number of calls waiting at their [await], which is never more
    than [concurrentLimit] (or than 0 when the limit is negative);
    [#numActive + #numComplete + queue.length] is the number of tasks the
    run began with; and [completeTasks] and [#failedTasks] hold between
    them at least one entry and at most two for every call counted in
    [#numComplete]. *)
Theorem counters_hold_whatever_listeners_do g r acts w :
  Fresh r ->
  perform acts (runAll g r) = Some w ->
  numActive (this w) = len (suspended w) /\
  0 <= numActive (this w) <= Z.max 0 (concurrentLimit r) /\
  numActive (this w) + numComplete (this w) + len (queue (this w))
  = len (queue r) /\
  numComplete (this w)
  <= len (completeTasks (this w)) + len (failedTasks (this w))
  <= 2 * numComplete (this w).
Proof.
  intros F H.
  destruct (@perform_Counters _ _ _ _ (runAll_Counters g F) H)
    as [Hl Ha Hc Hs Hi He].
  pose proof (len_nonneg (suspended w)). repeat split; lia.
Qed.

Lemma counters_hold_whatever_listeners_do_witness :
  let r := listening_runner 1 (Fin 5) [succeed (JsNumber 1); fail "boom"] in
  let g := example_module 1 false (Fin 5) in
  let acts := [Returning Spawn;
               Throwing 0 (Some (0%nat, JsError "listener")) None;
               Returning (Settle 0)] in
  let w := after_all acts (runAll g r) in
  (numComplete (this w) = 2 /\
   len (completeTasks (this w)) = 1 /\ len (failedTasks (this w)) = 2) /\
  numActive (this w) = len (suspended w) /\
  0 <= numActive (this w) <= Z.max 0 (concurrentLimit r) /\
  numActive (this w) + numComplete (this w) + len (queue (this w))
  = len (queue r) /\
  numComplete (this w)
  <= len (completeTasks (this w)) + len (failedTasks (this w))
  <= 2 * numComplete (this w).
Proof.
  split; [vm_compute; repeat split; reflexivity|].
  apply (@counters_hold_whatever_listeners_do
           (example_module 1 false (Fin 5))
           (listening_runner 1 (Fin 5) [succeed (JsNumber 1); fail "boom"])
           [Returning Spawn;
            Throwing 0 (Some (0%nat, JsError "listener")) None;
            Returning (Settle 0)] _).
  - apply listening_runner_Fresh.
  - vm_compute. reflexivity.
Defined.

(** X28: in any run of a fresh Runner, whether the listeners return or
    throw, the abort flag is set only when the promise is rejected and more
    failures are on record than the Runner tolerates; and when the promise
    is resolved the flag is clear and [complete] reads [true]: nothing is
    queued or in flight. *)
Theorem abort_means_rejected_whatever_listeners_do g r acts w :
  Fresh r ->
  perform acts (runAll g r) = Some w ->
  (abort (this w) = true ->
   (exists res err, promise w = Rejected res err) /\
   gt (len (failedTasks (this w))) (tolerance r) = true) /\
  (forall res,
      promise w = Resolved res ->
      abort (this w) = false /\ complete (this w) = true /\
      queue (this w) = [] /\ suspended w = []).
Proof.
  intros F H.
  destruct (@perform_Verdict _ _ _ (runAll_Verdict g F) H) as [Ha Hab Hr].
  pose proof (perform_tolerance _ _ H) as Ht. simpl in Ht. rewrite <- Ht.
  split; [exact Hab|].
  intros res P. destruct (Hr res P) as [S Q].
  split; [|split; [|split; assumption]].
  - destruct (abort (this w)) eqn:Ab; [|reflexivity].
    destruct (Hab eq_refl) as ((res' & err' & P') & _).
    rewrite P' in P. discriminate.
  - unfold complete. rewrite Ha, S, Q. reflexivity.
Qed.

Lemma abort_means_rejected_whatever_listeners_do_witness :
  let r := listening_runner 2 (Fin 0) [succeed (JsNumber 1); succeed (JsNumber 2)] in
  let g := example_module 2 false (Fin 0) in
  let acts := [Returning Spawn; Returning Spawn;
               Throwing 0 (Some (0%nat, JsError "listener")) None] in
  let w := after_all acts (runAll g r) in
  (abort (this w) = true /\ len (failedTasks (this w)) = 1) /\
  (abort (this w) = true ->
   (exists res err, promise w = Rejected res err) /\
   gt (len (failedTasks (this w))) (tolerance r) = true) /\
  (forall res,
      promise w = Resolved res ->
      abort (this w) = false /\ complete (this w) = true /\
      queue (this w) = [] /\ suspended w = []).
Proof.
  split; [vm_compute; split; reflexivity|].
  apply (@abort_means_rejected_whatever_listeners_do
           (example_module 2 false (Fin 0))
           (listening_runner 2 (Fin 0) [succeed (JsNumber 1); succeed (JsNumber 2)])
           [Returning Spawn; Returning Spawn;
            Throwing 0 (Some (0%nat, JsError "listener")) None] _).
  - apply listening_runner_Fresh.
  - vm_compute. reflexivity.
Defined.

(** X10: with [tolerance = k >= 0], a run of a fresh Runner in which
    every listener that is called returns can reject in one way only: with
    the array [completeTasks] and
    [new Error("Runner tolerance exceeded. <k+1> tasks failed.")].  The
    message always counts [k + 1] failures, also when more calls have
    failed by the time the rejection is looked at.  (When a listener throws
    in the [catch] block, the handler of the loop rejects with that
    error.) *)
Theorem rejection_always_counts_tolerance_plus_one g r k acts w a e :
  Fresh r ->
  tolerance r = Fin k ->
  0 <= k ->
  listeners_return acts = true ->
  perform acts (runAll g r) = Some w ->
  promise w = Rejected a e ->
  a = this_completeTasks /\
  e = JsError ("Runner tolerance exceeded. " ++ to_string (k + 1)
               ++ " tasks failed.")%string /\
  k + 1 <= len (failedTasks (this w)).
Proof.
  intros F Ht Hk U H. revert w a e U H.
  induction acts as [|last acts IH] using rev_ind; intros w a e U H P.
  - simpl in H. injection H as <-. discriminate.
  - unfold listeners_return in U. rewrite forallb_app in U.
    apply andb_prop in U. destruct U as [U Ul]. simpl in Ul.
    rewrite andb_true_r in Ul. rewrite perform_app in H.
    destruct (perform acts (runAll g r)) as [w1|] eqn:H1; [|discriminate].
    simpl in H. destruct (act last w1) as [w2|] eqn:Hstep; [|discriminate].
    injection H as <-.
    destruct last as [ev| | |]; try discriminate Ul; simpl in Hstep.
    + destruct (@reached_listening g _ _ _ F U H1) as (C & _ & _ & _ & Ht1 & _).
      rewrite Ht in Ht1.
      destruct (step_Extends _ _ Hstep) as [_ Ep _ [more Ef] _ _ _].
      destruct (promise w1) as [| |a1 e1] eqn:P1.
      * destruct (step_from_Pending _ C Ht1 Hk P1 Hstep) as [X|[X|[X Hlen]]];
          rewrite X in P; try discriminate.
        injection P as <- <-. repeat split. lia.
      * rewrite Ep in P by discriminate. discriminate.
      * rewrite Ep in P by discriminate. injection P as <- <-.
        destruct (IH w1 a1 e1 U eq_refl P1) as (-> & -> & Hlen).
        repeat split. rewrite Ef, len_app.
        pose proof (len_nonneg more). lia.
    + injection Hstep as <-. exact (IH w1 a e U eq_refl P).
Qed.

Lemma rejection_always_counts_tolerance_plus_one_witness :
  let w := after [Spawn; Spawn; Spawn; Settle 0; Settle 0; Settle 0]
             (example_run 3 false (Fin 1) [fail "a"; fail "b"; fail "c"]) in
  len (failedTasks (this w)) = 3 /\
  this_completeTasks = this_completeTasks /\
  JsError "Runner tolerance exceeded. 2 tasks failed."
  = JsError ("Runner tolerance exceeded. " ++ to_string (1 + 1)
             ++ " tasks failed.")%string /\
  1 + 1 <= len (failedTasks (this w)).
Proof.
  split; [vm_compute; reflexivity|].
  apply (@rejection_always_counts_tolerance_plus_one
           (example_module 3 false (Fin 1))
           (example_runner 3 false (Fin 1) [fail "a"; fail "b"; fail "c"])
           1 (map Returning [Spawn; Spawn; Spawn; Settle 0; Settle 0; Settle 0]) _
           this_completeTasks
           (JsError "Runner tolerance exceeded. 2 tasks failed.")).
  - apply example_runner_Fresh.
  - vm_compute. reflexivity.
  - lia.
  - reflexivity.
  - vm_compute. reflexivity.
  - vm_compute. reflexivity.
Defined.

Lemma In_firstn {A} (x : A) n xs : In x (firstn n xs) -> In x xs.
Proof.
  intros H. rewrite <- (firstn_skipn n xs). apply in_or_app. left. assumption.
Qed.

Lemma emit_calls_listeners ls event e :
  instanceof_Error (result e) = false ->
  Forall (fun c => In (fst c) (on_taskCompleted ls)) (emit_calls ls event e).
Proof.
  intros H. rewrite (emit_calls_not_Error ls event e H).
  apply Forall_forall. intros c Hc. apply in_map_iff in Hc.
  destruct Hc as (h & <- & Hh). simpl. eapply In_firstn. eassumption.
Qed.

Lemma runTask_tasks w :
  Forall no_Error_result (queue (this w)) ->
  Forall no_Error_awaited (suspended w) ->
  Forall no_Error_result (queue (this (runTask w))) /\
  Forall no_Error_awaited (suspended (runTask w)).
Proof.
  intros Hq Hs. unfold runTask. destruct (abort (this w)); [auto|].
  destruct (queue (this w)) as [|t rest] eqn:Q; [rewrite Q; auto|].
  simpl. inversion Hq as [|? ? Ht Hrest]; subst. split; [assumption|].
  apply Forall_app. split; [assumption|].
  constructor; [|constructor].
  intros v Hv. simpl in Hv. eapply Ht. eassumption.
Qed.

Lemma finally_tasks w :
  Forall no_Error_result (queue (this w)) ->
  Forall no_Error_awaited (suspended w) ->
  Forall no_Error_result (queue (this (finally w))) /\
  Forall no_Error_awaited (suspended (finally w)).
Proof.
  intros Hq Hs. unfold finally. case_if; [auto|].
  apply runTask_tasks; assumption.
Qed.

Lemma step_calls ev w w' :
  Forall no_Error_result (queue (this w)) ->
  Forall no_Error_awaited (suspended w) ->
  step ev w = Some w' ->
  Forall no_Error_result (queue (this w')) /\
  Forall no_Error_awaited (suspended w') /\
  exists calls,
    invoked w' = invoked w ++ calls /\
    Forall (fun c => In (fst c) (on_taskCompleted (listeners (this w)))) calls.
Proof.
  intros Hq Hs H. apply step_inv in H.
  destruct H as [(-> & Hlt & ->) | (s & l1 & l2 & -> & Hsu & ->)].
  - destruct (runTask_tasks w Hq Hs) as [Hq' Hs'].
    destruct (runTask_ledger w) as (_ & _ & _ & Hi & _).
    simpl. repeat split; try assumption.
    exists []. rewrite Hi, app_nil_r. split; [reflexivity|constructor].
  - rewrite Hsu in Hs. apply Forall_app in Hs. destruct Hs as [H1 H2].
    inversion H2 as [|? ? Hs0 H2']; subst.
    assert (H12 : Forall no_Error_awaited (l1 ++ l2))
      by (apply Forall_app; split; assumption).
    unfold quiet_resume.
    match goal with |- context [finally ?x] =>
      destruct (finally_ledger x) as (_ & _ & _ & Hi & _);
      assert (Hx : Forall no_Error_result (queue (this x)) /\
                   Forall no_Error_awaited (suspended x) /\
                   exists calls,
                     invoked x = invoked w ++ calls /\
                     Forall (fun c => In (fst c)
                                        (on_taskCompleted (listeners (this w))))
                       calls)
    end.
    { destruct (s_awaited s) as [v|e] eqn:Aw.
      - simpl. repeat split; try assumption.
        eexists. split; [reflexivity|].
        apply emit_calls_listeners. simpl. apply Hs0. assumption.
      - match goal with |- context [quiet_throw ?a ?b ?c] =>
          destruct (on_throw_unchanged a b c) as (-> & -> & _) end.
        simpl. repeat split; try assumption.
        unfold quiet_throw. case_if; simpl;
          (eexists; split; [reflexivity|]);
          apply emit_calls_listeners; reflexivity. }
    destruct Hx as (Hxq & Hxs & calls & Hxi & Hxc).
    match goal with |- context [finally ?x] =>
      destruct (finally_tasks x Hxq Hxs) as [Hfq Hfs] end.
    repeat split; try assumption.
    exists calls. rewrite Hi. auto.
Qed.

(** X11: in a run none of whose tasks resolves with an [Error] object,
    only ['taskCompleted'] listeners are ever called, for successes and for
    failures alike: a listener that is registered for ['taskFailed'] only
    is never called, whatever the tasks do and in whatever order they
    settle. *)
Theorem only_taskCompleted_listeners_are_called g r evs w :
  Forall no_Error_result (queue r) ->
  exec evs (runAll g r) = Some w ->
  Forall (fun c => In (fst c) (on_taskCompleted (listeners r))) (invoked w).
Proof.
  intros Hq H.
  assert (G : forall evs w0 w1,
             Forall no_Error_result (queue (this w0)) ->
             Forall no_Error_awaited (suspended w0) ->
             Forall (fun c => In (fst c) (on_taskCompleted (listeners (this w0))))
               (invoked w0) ->
             exec evs w0 = Some w1 ->
             Forall (fun c => In (fst c) (on_taskCompleted (listeners (this w0))))
               (invoked w1)).
  { clear. induction evs as [|ev evs IH]; intros w0 w1 Hq Hs Hi; simpl.
    - intros [= <-]. assumption.
    - destruct (step ev w0) as [w2|] eqn:S1; [|discriminate].
      intros H.
      destruct (step_calls _ _ Hq Hs S1) as (Hq2 & Hs2 & calls & Hc & Hf).
      destruct (step_SameConfig _ _ S1) as [_ _ _ Hl _ _].
      rewrite <- Hl. apply (IH w2 w1); try assumption.
      rewrite Hl, Hc. apply Forall_app. split; assumption. }
  apply (G evs (runAll g r) w); simpl; auto.
Qed.

Lemma only_taskCompleted_listeners_are_called_witness :
  let w := after [Spawn; Settle 0] dispatch_run in
  on_taskCompleted (listeners dispatch_runner) = [1%nat] /\
  on_taskFailed (listeners dispatch_runner) = [2%nat] /\
  len (failedTasks (this w)) = 1 /\
  Forall (fun c => In (fst c) (on_taskCompleted (listeners dispatch_runner)))
    (invoked w).
Proof.
  split; [reflexivity|]. split; [reflexivity|]. split; [vm_compute; reflexivity|].
  apply (@only_taskCompleted_listeners_are_called
           (example_module 1 false (Fin 1)) dispatch_runner [Spawn; Settle 0] _).
  - constructor; [|constructor]. intros i lbl v Hv. discriminate Hv.
  - vm_compute. reflexivity.
Defined.

Lemma filter_if_other c line :
  is_progress line = false ->
  filter is_progress (if c : bool then [line] else []) = [].
Proof. intros H. destruct c; simpl; [rewrite H|]; reflexivity. Qed.

Lemma progress_upto_succ vb total m :
  0 <= m ->
  progress_upto vb total (m + 1)
  = progress_upto vb total m ++ (if vb then [LogProgress (m + 1) total] else []).
Proof.
  intros Hm. unfold progress_upto. destruct vb; [|reflexivity].
  replace (Z.to_nat (m + 1)) with (S (Z.to_nat m)) by lia.
  rewrite seq_S, map_app. simpl. do 3 f_equal. lia.
Qed.

Lemma runTask_Counted w :
  0 <= numActive (this w) + numComplete (this w) ->
  Counted w -> Counted (runTask w).
Proof.
  intros Hm J. unfold runTask. destruct (abort (this w)); [assumption|].
  destruct (queue (this w)); [assumption|].
  unfold Counted in *. simpl. rewrite filter_app, J.
  replace (numActive (this w) + 1 + numComplete (this w))
    with (numActive (this w) + numComplete (this w) + 1) by lia.
  rewrite progress_upto_succ by assumption. f_equal.
  destruct (verbose (this w)); reflexivity.
Qed.

Lemma finally_Counted w :
  0 <= numActive (this w) + numComplete (this w) ->
  Counted w -> Counted (finally w).
Proof.
  intros Hm J. unfold finally. case_if.
  - unfold Counted in *. simpl. rewrite !filter_app, J.
    rewrite !filter_if_other by reflexivity. rewrite !app_nil_r.
    f_equal. lia.
  - apply runTask_Counted.
    + simpl. lia.
    + unfold Counted in *. simpl. rewrite J. f_equal. lia.
Qed.

Lemma settled_Counted s w :
  Counted w ->
  let x := match s_awaited s with
           | Returns v => quiet_return s v w
           | Throws e => quiet_throw s e w
           end in
  Counted x /\
  numActive (this x) + numComplete (this x)
  = numActive (this w) + numComplete (this w).
Proof.
  intros J. destruct (s_awaited s) as [v|e]; simpl.
  - split; [|reflexivity]. unfold Counted in *. simpl.
    rewrite !filter_app, J. rewrite !filter_if_other by reflexivity.
    rewrite !app_nil_r. reflexivity.
  - unfold quiet_throw. case_if; (split; [|reflexivity]);
      unfold Counted in *; simpl;
      rewrite !filter_app, J; rewrite !filter_if_other by reflexivity;
      rewrite !app_nil_r; reflexivity.
Qed.

Lemma step_Counted ev w w' :
  Control w -> Counted w -> step ev w = Some w' -> Counted w'.
Proof.
  intros C J H.
  assert (Hm : 0 <= numActive (this w) + numComplete (this w)).
  { destruct C as [Ha Hc _ _ _ _]. rewrite Ha.
    pose proof (len_nonneg (suspended w)). lia. }
  apply step_inv in H.
  destruct H as [(-> & Hlt & ->) | (s & l1 & l2 & -> & Hs & ->)].
  - exact (runTask_Counted Hm J).
  - unfold quiet_resume.
    destruct (settled_Counted s (w := set_suspended (l1 ++ l2) w) J) as [Jx Hx].
    apply finally_Counted; [|exact Jx].
    rewrite Hx. exact Hm.
Qed.

(** X12: the progress counter of a verbose Runner counts the tasks as they
    are started.  In every state of a run of a fresh Runner, the counter
    lines on the console are [1/N], [2/N], ..., [m/N] in this order, [N]
    being the length of the queue when [runAll] was called and [m] the
    number of tasks started so far; a Runner that is not verbose prints no
    counter line. *)
Theorem progress_counter_counts_started_tasks g r evs w :
  Fresh r ->
  exec evs (runAll g r) = Some w ->
  filter is_progress (console w)
  = if verbose r
    then map (fun k => LogProgress (Z.of_nat k) (len (queue r)))
           (seq 1 (Z.to_nat (numActive (this w) + numComplete (this w))))
    else [].
Proof.
  intros F. 
  assert (G : forall evs w, exec evs (runAll g r) = Some w -> Counted w).
  { clear evs w. induction evs as [|ev evs IH] using rev_ind; intros w H.
    - simpl in H. injection H as <-. destruct F as [Fa Fc _ _ _].
      unfold Counted. simpl. rewrite Fa, Fc.
      rewrite filter_if_other by reflexivity.
      unfold progress_upto. destruct (verbose r); reflexivity.
    - apply exec_snoc in H. destruct H as (w1 & H1 & Hstep).
      destruct (reached g _ F H1) as (C & _ & _).
      eapply step_Counted; [exact C|apply IH; exact H1|exact Hstep]. }
  intros H. pose proof (G evs w H) as J.
  destruct (exec_SameConfig _ _ H) as [_ Hv _ _ Ht _]. simpl in Hv, Ht.
  unfold Counted, progress_upto in J. rewrite Hv, Ht in J. exact J.
Qed.

Lemma progress_counter_counts_started_tasks_witness :
  let w := after [Spawn; Spawn; Settle 1; Settle 0]
             (example_run 2 true (Fin 1)
                [succeed JsNull; fail "a"; succeed JsNull; succeed JsNull]) in
  numActive (this w) + numComplete (this w) = 4 /\
  filter is_progress (console w)
  = if verbose (example_runner 2 true (Fin 1)
                  [succeed JsNull; fail "a"; succeed JsNull; succeed JsNull])
    then map (fun k => LogProgress (Z.of_nat k)
                         (len (queue (example_runner 2 true (Fin 1)
                                 [succeed JsNull; fail "a"; succeed JsNull;
                                  succeed JsNull]))))
           (seq 1 (Z.to_nat (numActive (this w) + numComplete (this w))))
    else [].
Proof.
  split; [vm_compute; reflexivity|].
  apply (@progress_counter_counts_started_tasks
           (example_module 2 true (Fin 1))
           (example_runner 2 true (Fin 1)
              [succeed JsNull; fail "a"; succeed JsNull; succeed JsNull])
           [Spawn; Spawn; Settle 1; Settle 0] _).
  - apply example_runner_Fresh.
  - vm_compute. reflexivity.
Defined.

(** X13: what the public getter [complete] tells during and after a run of
    a fresh Runner in which every listener that is called returns.  It
    reads [true] exactly when the queue is empty and no call is in flight;
    then every task queued at [runAll] has exactly one outcome in
    [completeTasks] or [failedTasks] and [numComplete] has reached
    [numTotal], whether or not the run aborted.  A resolved promise implies
    that [complete] is [true]. *)
Theorem complete_means_every_task_has_an_outcome g r acts w :
  Fresh r ->
  listeners_return acts = true ->
  perform acts (runAll g r) = Some w ->
  (complete (this w) = true <-> queue (this w) = [] /\ suspended w = []) /\
  (complete (this w) = true ->
   Permutation (completeTasks (this w) ++ failedTasks (this w))
     (map outcome (started_from 1 (queue r))) /\
   numComplete (this w) = numTotal (this w)) /\
  (forall a, promise w = Resolved a -> complete (this w) = true).
Proof.
  intros F U H.
  destruct (@reached_listening g _ _ _ F U H) as (C & (done & cs & fs & B) & _).
  pose proof (Books_done B) as Hd.
  destruct C as [Ha _ _ _ Hp _].
  assert (E : complete (this w) = true <-> queue (this w) = [] /\ suspended w = []).
  { unfold complete. rewrite andb_true_iff, !Z.eqb_eq, Ha. split.
    - intros [Q S]. split; apply len_0; assumption.
    - intros [-> ->]. split; reflexivity. }
  split; [exact E|]. split.
  - intros Hc. apply E in Hc. destruct Hc as [Q S].
    destruct (Books_settled B Q S) as (_ & _ & P). split; [exact P|].
    destruct B as [Hq Ht _ _ _ _ _ _ _].
    rewrite Ht, Hq, Q, app_nil_r, <- Hd, Ha, S, len_nil. lia.
  - intros a P. rewrite P in Hp. destruct Hp as (_ & S & Q).
    apply E. auto.
Qed.

Lemma complete_means_every_task_has_an_outcome_witness :
  let r := example_runner 2 false (Fin 0) [fail "a"; succeed JsNull] in
  let w := after [Spawn; Spawn; Settle 0; Settle 0]
             (runAll (example_module 2 false (Fin 0)) r) in
  abort (this w) = true /\
  complete (this w) = true /\
  (complete (this w) = true <-> queue (this w) = [] /\ suspended w = []) /\
  (complete (this w) = true ->
   Permutation (completeTasks (this w) ++ failedTasks (this w))
     (map outcome (started_from 1 (queue r))) /\
   numComplete (this w) = numTotal (this w)) /\
  (forall a, promise w = Resolved a -> complete (this w) = true).
Proof.
  split; [vm_compute; reflexivity|]. split; [vm_compute; reflexivity|].
  apply (@complete_means_every_task_has_an_outcome
           (example_module 2 false (Fin 0))
           (example_runner 2 false (Fin 0) [fail "a"; succeed JsNull])
           (map Returning [Spawn; Spawn; Settle 0; Settle 0]) _).
  - apply example_runner_Fresh.
  - reflexivity.
  - vm_compute. reflexivity.
Defined.

(* ------------------------------------------------------------------ *)
(** ** The completion status *)

Lemma len_map {A B} (f : A -> B) xs : len (map f xs) = len xs.
Proof. unfold len. rewrite length_map. reflexivity. Qed.

Lemma runTask_console w :
  exists more,
    console (runTask w) = console w ++ more /\ filter is_status more = [].
Proof.
  unfold runTask. destruct (abort (this w));
    [exists []; rewrite app_nil_r; auto|].
  destruct (queue (this w)); [exists []; rewrite app_nil_r; auto|].
  simpl. eexists. split; [reflexivity|]. destruct (verbose (this w)); reflexivity.
Qed.

Lemma on_return_console s v w :
  promise (quiet_return s v w) = promise w /\
  exists more,
    console (quiet_return s v w) = console w ++ more /\ filter is_status more = [].
Proof.
  split; [reflexivity|]. simpl. rewrite <- app_assoc. eexists.
  split; [reflexivity|].
  destruct (verbose (this w) && log_live w); reflexivity.
Qed.

Lemma on_throw_console s e w :
  abort (this (quiet_throw s e w)) = false ->
  promise (quiet_throw s e w) = promise w /\
  exists more,
    console (quiet_throw s e w) = console w ++ more /\ filter is_status more = [].
Proof.
  unfold quiet_throw. case_if; [discriminate|]. intros _.
  split; [reflexivity|]. simpl. eexists. split; [reflexivity|].
  destruct (verbose (this w) && log_live w); reflexivity.
Qed.

Lemma finally_Reported w :
  promise w = Pending ->
  verbose (this w) = true -> log_live w = true ->
  filter is_status (console w) = [] ->
  Reported (finally w).
Proof.
  intros P V L C. unfold finally. case_if.
  - unfold Reported. simpl. rewrite P, V, L. simpl.
    exists (console w). rewrite <- app_assoc. split; [reflexivity|exact C].
  - match goal with |- Reported (runTask ?x) =>
      destruct (runTask_console x) as (more & Hc & Hm);
      destruct (runTask_ledger x) as (_ & _ & _ & _ & Hp & _)
    end.
    unfold Reported. rewrite Hp. simpl. rewrite P, Hc. simpl.
    rewrite filter_app, C, Hm. reflexivity.
Qed.

Lemma step_Reported ev w w' :
  Control w ->
  verbose (this w) = true -> log_live w = true ->
  abort (this w') = false ->
  step ev w = Some w' ->
  Reported w -> Reported w'.
Proof.
  intros Ct V L Ab S1 R.
  pose proof (step_Extends _ _ S1) as [Mono _ _ _ _ _ _].
  assert (Ab0 : abort (this w) = false).
  { destruct (abort (this w)); [|reflexivity]. rewrite Mono in Ab; auto. }
  apply step_inv in S1.
  destruct S1 as [(-> & Hlt & ->) | (s & l1 & l2 & -> & Hs & ->)].
  - destruct (runTask_ledger w) as (_ & _ & _ & _ & Hp & _).
    destruct (runTask_console w) as (more & Hc & Hm).
    unfold Reported in *. simpl. rewrite Hp.
    destruct (promise w) eqn:P; [| |exact I].
    + rewrite Hc, filter_app, R, Hm. reflexivity.
    + destruct Ct as [_ _ _ _ Cp _]. rewrite P in Cp.
      destruct Cp as (_ & _ & Q).
      assert (E : runTask w = w).
      { unfold runTask. rewrite Q. destruct (abort (this w)); reflexivity. }
      rewrite E. exact R.
  - assert (P : promise w = Pending).
    { destruct Ct as [_ _ _ _ Cp _]. destruct (promise w); [reflexivity| |].
      - destruct Cp as (_ & Su & _). rewrite Su in Hs.
        destruct l1; discriminate.
      - congruence. }
    unfold Reported in R. rewrite P in R.
    unfold quiet_resume in *.
    match type of Ab with abort (this (finally ?x)) = false =>
      destruct (finally_ledger x) as (Hab & _); rewrite Hab in Ab end.
    destruct (s_awaited s) as [v|e].
    + destruct (on_return_console s v (set_suspended (l1 ++ l2) w))
        as (Hp & more & Hc & Hm).
      apply finally_Reported.
      * rewrite Hp. exact P.
      * exact V.
      * exact L.
      * rewrite Hc. simpl. rewrite filter_app, R, Hm. reflexivity.
    + destruct (on_throw_console s e (set_suspended (l1 ++ l2) w) Ab)
        as (Hp & more & Hc & Hm).
      destruct (on_throw_SameConfig s e (set_suspended (l1 ++ l2) w))
        as [_ Hv _ _ _ Hl].
      apply finally_Reported.
      * rewrite Hp. exact P.
      * rewrite Hv. exact V.
      * rewrite Hl. exact L.
      * rewrite Hc. simpl. rewrite filter_app, R, Hm. reflexivity.
Qed.

Lemma exec_Reported evs w w' :
  Control w ->
  verbose (this w) = true -> log_live w = true ->
  abort (this w') = false ->
  exec evs w = Some w' ->
  Reported w -> Reported w'.
Proof.
  revert w. induction evs as [|ev evs IH]; intros w Ct V L Ab; simpl.
  - intros [= <-]. auto.
  - destruct (step ev w) as [w1|] eqn:S1; [|discriminate]. intros H R.
    assert (Ab1 : abort (this w1) = false).
    { destruct (abort (this w1)) eqn:A1; [|reflexivity].
      assert (G : forall evs w1 w',
                 exec evs w1 = Some w' -> abort (this w1) = true ->
                 abort (this w') = true).
      { clear. induction evs as [|ev evs IH]; intros w1 w'; simpl.
        - intros [= <-]. auto.
        - destruct (step ev w1) as [w2|] eqn:S2; [|discriminate].
          intros H A. apply (IH _ _ H).
          destruct (step_Extends _ _ S2) as [Mono _ _ _ _ _ _]. auto. }
      rewrite (G _ _ _ H A1) in Ab. discriminate. }
    destruct (step_SameConfig _ _ S1) as [_ Hv _ _ _ Hl].
    apply (IH w1); try assumption.
    + eapply step_Control; eassumption.
    + rewrite Hv. exact V.
    + rewrite Hl. exact L.
    + eapply step_Reported; eassumption.
Qed.

(** X26: in a module whose [log] is still [l] when [runAll] is called (no
    Runner has been constructed with [verbose: false]), and in an
    undisturbed run (no such Runner is constructed meanwhile and every
    listener that is called returns), a verbose Runner that does not abort
    prints its completion status once, when the promise is resolved, and
    it is the last thing it prints: [Completed s/t] with [s] the number of
    results and [t] the
    number of tasks, followed, when some task failed, by the list of the
    failed tasks.  While the promise is pending no status line is on the
    console. *)
Theorem completion_status_is_printed_once g r acts w :
  Fresh r ->
  verbose r = true -> log_is_l g = true ->
  undisturbed acts = true ->
  perform acts (runAll g r) = Some w ->
  abort (this w) = false ->
  match promise w with
  | Resolved _ =>
      exists before,
        console w
        = before ++
          LogCompleted (len (completeTasks (this w))) (numTotal (this w)) ::
          (if 0 <? len (failedTasks (this w))
           then [LogFailedSummary
                   (map (fun e => label_or_index (meta e))
                      (failedTasks (this w)))]
           else []) /\
        filter is_status before = []
  | _ => filter is_status (console w) = []
  end.
Proof.
  intros F V L U H Ab. rewrite (perform_undisturbed _ _ U) in H.
  destruct (reached _ _ F H) as (Ct & (done & cs & fs & B) & _).
  assert (R : Reported w).
  { apply (@exec_Reported (events acts) (runAll g r) w); auto.
    - apply runAll_Control. exact F.
    - unfold Reported. simpl. rewrite L. reflexivity. }
  unfold Reported in R. destruct (promise w) eqn:P.
  - exact R.
  - destruct R as (before & Hc & Hb). exists before. split; [|exact Hb].
    rewrite Hc. unfold status_lines.
    destruct Ct as [Ha _ _ _ Cp _]. rewrite P in Cp. destruct Cp as (_ & Su & Q).
    pose proof (Books_done B) as Hd.
    destruct B as [Bq Bt _ Bc Bct Bft _ _ _].
    rewrite Q, app_nil_r in Bq. subst done.
    rewrite Ha, Su, len_nil in Hd.
    replace (numComplete (this w) - len (failedTasks (this w)))
      with (len (completeTasks (this w)))
      by (rewrite Bct, Bft, !len_map; lia).
    replace (numComplete (this w)) with (numTotal (this w)) by lia.
    reflexivity.
  - destruct Ct as [_ _ _ _ Cp _]. rewrite P in Cp. congruence.
Qed.

Lemma completion_status_is_printed_once_witness :
  let w := after [Spawn; Settle 0; Settle 0]
             (example_run 1 true (Fin 1) [succeed JsNull; fail "b"]) in
  promise w = Resolved this_completeTasks /\
  filter is_status (console w) = [LogCompleted 1 2; LogFailedSummary [inr 2]] /\
  match promise w with
  | Resolved _ =>
      exists before,
        console w
        = before ++
          LogCompleted (len (completeTasks (this w))) (numTotal (this w)) ::
          (if 0 <? len (failedTasks (this w))
           then [LogFailedSummary
                   (map (fun e => label_or_index (meta e))
                      (failedTasks (this w)))]
           else []) /\
        filter is_status before = []
  | _ => filter is_status (console w) = []
  end.
Proof.
  split; [vm_compute; reflexivity|]. split; [vm_compute; reflexivity|].
  apply (@completion_status_is_printed_once (example_module 1 true (Fin 1))
           (example_runner 1 true (Fin 1) [succeed JsNull; fail "b"])
           (map Returning [Spawn; Settle 0; Settle 0]) _).
  - apply example_runner_Fresh.
  - reflexivity.
  - reflexivity.
  - reflexivity.
  - vm_compute. reflexivity.
  - vm_compute. reflexivity.
Defined.

(* ------------------------------------------------------------------ *)
(** ** gpt.ts and index.ts *)

(** X14: [exampleMessages(prompt, ...args)] makes one conversation per
    prompt, in the order given; each has the same three opening messages
    and ends with the prompt as a user message, so the label that
    [batchGPT] gives to its task is the prompt itself. *)
Theorem exampleMessages_one_conversation_per_prompt prompt args :
  List.length (exampleMessages prompt args) = S (List.length args) /\
  map last_content (exampleMessages prompt args) = prompt :: args /\
  map (map role) (exampleMessages prompt args)
  = repeat ["system"; "user"; "assistant"; "user"]%string
      (S (List.length args)) /\
  map (firstn 3) (exampleMessages prompt args)
  = repeat (firstn 3 (hd [] (exampleMessages prompt [])))
      (S (List.length args)).
Proof.
  unfold exampleMessages. rewrite length_map. simpl List.length.
  split; [reflexivity|]. rewrite !map_map. simpl.
  split; [f_equal; apply map_id|].
  split; f_equal; induction args as [|a args IH]; simpl; congruence.
Qed.

Lemma fold_add_queue {A} (task : A -> Task) (lbl : A -> option string) xs r :
  let r' := fold_left (fun r x => add (task x) (lbl x) r) xs r in
  queue r' = queue r ++ map (fun x => {| cb := task x; task_label := lbl x |}) xs /\
  r' = set_queue (queue r') r.
Proof.
  revert r. induction xs as [|x xs IH]; intros r; simpl.
  - rewrite app_nil_r. split; [reflexivity|]. destruct r; reflexivity.
  - destruct (IH (add (task x) (lbl x) r)) as [Hq Hr]. split.
    + rewrite Hq. simpl. rewrite <- app_assoc. reflexivity.
    + rewrite Hr at 1. reflexivity.
Qed.

Lemma set_queue_Fresh q r : Fresh r -> Fresh (set_queue q r).
Proof. intros []. constructor; assumption. Qed.

Lemma batch_messages_not_empty messages args_messages :
  snd (batch_messages messages args_messages) <> [].
Proof.
  unfold batch_messages.
  destruct messages as [|m ms]; simpl.
  - destruct args_messages as [[|a given]|]; simpl; discriminate.
  - discriminate.
Qed.

(** X15: which messages [batchGPT] sends.  Its argument, when not empty,
    is used as it is and the command line is ignored; an empty argument is
    replaced by the [--messages] of the command line when these are a
    non-empty array, and otherwise by the two example conversations, with
    a notice.  In no case is the list empty: [batchGPT] never calls
    [runAll] on an empty queue. *)
Theorem batch_messages_choice messages args_messages :
  snd (batch_messages messages args_messages) <> [] /\
  batch_messages messages args_messages
  = match messages, args_messages with
    | _ :: _, _ => ([], messages)
    | [], Some (m :: given) => ([], m :: given)
    | [], _ =>
        (["using example messages"%string],
         exampleMessages "What is the best animal?"
           ["What is the best food?"%string])
    end.
Proof.
  split; [apply batch_messages_not_empty|].
  unfold batch_messages.
  destruct messages as [|m ms]; simpl; [|reflexivity].
  destruct args_messages as [[|a given]|]; reflexivity.
Qed.

(** The Runner that index.ts runs: fresh, with one task per conversation,
    labelled with the content of its last message. *)
Lemma index_run_runner dry call args g messages :
  exists r,
    index_run dry call args g messages = runAll (fst (index_runner g)) r /\
    Fresh r /\
    queue r
    = map (fun msgs => {| cb := fun _ _ => call msgs;
                          task_label := Some (last_content msgs) |})
        (snd (batch_messages messages args)) /\
    concurrentLimit r = MAX_PARALLEL_REQUESTS /\
    tolerance r = Infinity /\
    verbose r = true /\
    listeners r
    = {| on_taskCompleted := [option_onTaskComplete; push_response];
         on_taskFailed := [option_onTaskFailed; log_error] |}.
Proof.
  unfold index_run, batchGPT.
  destruct (batch_messages messages args) as [notice msgs]. cbn [run snd].
  destruct (fold_add_queue (fun msgs : list Message => fun _ _ => call msgs)
              (fun msgs => Some (last_content msgs)) msgs
              (snd (index_runner g))) as [Hq Hr].
  match goal with |- context [runAll _ ?x] => set (r := x) in * end.
  exists r. split; [reflexivity|].
  change (queue (snd (index_runner g))) with (@nil TaskObj) in Hq. simpl in Hq.
  split; [|split; [exact Hq|]].
  - rewrite Hr. apply set_queue_Fresh.
    constructor; reflexivity.
  - rewrite Hr. simpl. repeat split; reflexivity.
Qed.

(** X16: the run that index.ts starts cannot be rejected, whatever the
    requests do and in whatever order they settle: with
    [tolerance: Infinity] the abort flag stays off, at most
    [MAX_PARALLEL_REQUESTS] requests are in flight, the batch is never empty,
    and every state of the run can be continued to one in which the promise
    is resolved and every conversation has either a result or a failure. *)
Theorem batchGPT_run_never_rejects dry call args g messages evs w :
  exec evs (index_run dry call args g messages) = Some w ->
  abort (this w) = false /\
  (forall a e, promise w <> Rejected a e) /\
  numTotal (this w) = len (snd (batch_messages messages args)) /\
  1 <= numTotal (this w) /\
  numActive (this w) <= MAX_PARALLEL_REQUESTS /\
  exists evs' w',
    exec evs' w = Some w' /\
    promise w' = Resolved this_completeTasks /\
    len (deref w' this_completeTasks) + len (failedTasks (this w'))
    = numTotal (this w).
Proof.
  intros H.
  destruct (index_run_runner dry call args g messages)
    as (r & E & F & Hq & Hl & Ht & _ & _).
  rewrite E in H.
  assert (Hne : queue r <> []).
  { rewrite Hq. intros N. apply map_eq_nil in N.
    exact (batch_messages_not_empty _ _ N). }
  assert (Hl1 : 1 <= concurrentLimit r) by (rewrite Hl; unfold MAX_PARALLEL_REQUESTS; lia).
  assert (Htol : gt (len (queue r)) (tolerance r) = false) by (rewrite Ht; reflexivity).
  destruct (tolerant_run _ _ F Hne Hl1 Htol H) as (Ab & Rj & _).
  destruct (reached _ _ F H) as (C & _ & Cfg).
  destruct Cfg as [Hlim _ _ _ Htot _]. simpl in Hlim, Htot.
  assert (Hn : numTotal (this w) = len (snd (batch_messages messages args))).
  { rewrite Htot, Hq. apply len_map. }
  split; [exact Ab|]. split; [exact Rj|]. split; [exact Hn|].
  split.
  { rewrite Htot. destruct (queue r); [congruence|]. rewrite len_cons.
    pose proof (len_nonneg l0). lia. }
  split.
  { destruct C as [Ha _ Hlp _ _ _]. rewrite Ha, <- Hl, <- Hlim. lia. }
  destruct (drain w) as (evs' & w' & He & Q).
  exists evs', w'. split; [exact He|].
  assert (H' : exec (evs ++ evs') (runAll (fst (index_runner g)) r) = Some w').
  { rewrite exec_app, H. exact He. }
  destruct (tolerant_run _ _ F Hne Hl1 Htol H') as (_ & _ & R).
  destruct (R Q) as (P & L & _). split; [exact P|].
  rewrite L, Htot. lia.
Qed.

Lemma batchGPT_run_never_rejects_witness :
  let call := fun _ : list Message => Throws (JsError "429") in
  let w := after [Spawn; Spawn; Settle 1]
             (index_run true call None module_loaded []) in
  len (failedTasks (this w)) = 1 /\
  abort (this w) = false /\
  (forall a e, promise w <> Rejected a e) /\
  numTotal (this w) = 2 /\
  1 <= numTotal (this w) /\
  numActive (this w) <= MAX_PARALLEL_REQUESTS /\
  exists evs' w',
    exec evs' w = Some w' /\
    promise w' = Resolved this_completeTasks /\
    len (deref w' this_completeTasks) + len (failedTasks (this w'))
    = numTotal (this w).
Proof.
  split; [vm_compute; reflexivity|].
  apply (@batchGPT_run_never_rejects true
           (fun _ : list Message => Throws (JsError "429")) None module_loaded []
           [Spawn; Spawn; Settle 1] _).
  vm_compute. reflexivity.
Defined.

Lemma resume_Throws s e w :
  s_awaited s = Throws e ->
  invoked (quiet_resume s w)
  = invoked w ++ emit_calls (listeners (this w)) taskFailed (outcome s) /\
  completeTasks (this (quiet_resume s w)) = completeTasks (this w) /\
  failedTasks (this (quiet_resume s w)) = failedTasks (this w) ++ [outcome s].
Proof.
  intros Aw. unfold quiet_resume. rewrite Aw.
  match goal with |- context [finally ?x] =>
    destruct (finally_ledger x) as (_ & -> & -> & -> & _) end.
  rewrite (outcome_Throws _ Aw). unfold quiet_throw.
  case_if; simpl; repeat split; reflexivity.
Qed.

(** With at least as many ['taskFailed'] listeners as ['taskCompleted']
    listeners, every outcome goes to every ['taskCompleted'] listener. *)
Lemma emit_calls_all ls event e :
  instanceof_Error (result e) = false ->
  (List.length (on_taskCompleted ls) <= List.length (on_taskFailed ls))%nat ->
  emit_calls ls event e = map (fun h => (h, e)) (on_taskCompleted ls).
Proof.
  intros H Hl. rewrite (emit_calls_not_Error ls event e H).
  destruct event; simpl; [rewrite firstn_all|rewrite firstn_all2 by exact Hl];
    reflexivity.
Qed.

Lemma step_heard ev w w' :
  Forall no_Error_awaited (suspended w) ->
  (List.length (on_taskCompleted (listeners (this w)))
   <= List.length (on_taskFailed (listeners (this w))))%nat ->
  step ev w = Some w' ->
  exists settled,
    invoked w'
    = invoked w ++
      flat_map (fun e => map (fun h => (h, e))
                           (on_taskCompleted (listeners (this w)))) settled /\
    Permutation (completeTasks (this w') ++ failedTasks (this w'))
      ((completeTasks (this w) ++ failedTasks (this w)) ++ settled).
Proof.
  intros Hs Hl H. apply step_inv in H.
  destruct H as [(-> & Hlt & ->) | (s & l1 & l2 & -> & Hsu & ->)].
  - destruct (runTask_ledger w) as (_ & Hc & Hf & Hi & _).
    exists []. simpl. rewrite Hc, Hf, Hi, !app_nil_r. split; reflexivity.
  - rewrite Hsu in Hs. apply Forall_app in Hs. destruct Hs as [_ H2].
    inversion H2 as [|? ? Hs0 _]; subst.
    exists [outcome s]. simpl. rewrite app_nil_r.
    destruct (s_awaited s) as [v|e] eqn:Aw.
    + destruct (resume_Returns s (set_suspended (l1 ++ l2) w) Aw)
        as (-> & -> & -> & _).
      simpl. split.
      * f_equal. apply emit_calls_all; [|exact Hl].
        rewrite (outcome_Returns _ Aw). simpl. apply Hs0. exact Aw.
      * rewrite <- !app_assoc. apply Permutation_app_head.
        apply Permutation_app_comm.
    + destruct (resume_Throws s (set_suspended (l1 ++ l2) w) Aw)
        as (-> & -> & ->).
      simpl. split.
      * f_equal. apply emit_calls_all; [|exact Hl].
        rewrite (outcome_Throws _ Aw). reflexivity.
      * rewrite <- !app_assoc. reflexivity.
Qed.

Lemma exec_heard evs w w' :
  Forall no_Error_result (queue (this w)) ->
  Forall no_Error_awaited (suspended w) ->
  (List.length (on_taskCompleted (listeners (this w)))
   <= List.length (on_taskFailed (listeners (this w))))%nat ->
  exec evs w = Some w' ->
  exists settled,
    invoked w'
    = invoked w ++
      flat_map (fun e => map (fun h => (h, e))
                           (on_taskCompleted (listeners (this w)))) settled /\
    Permutation (completeTasks (this w') ++ failedTasks (this w'))
      ((completeTasks (this w) ++ failedTasks (this w)) ++ settled).
Proof.
  revert w. induction evs as [|ev evs IH]; intros w Hq Hs Hl; simpl.
  - intros [= <-]. exists []. simpl. rewrite !app_nil_r. split; reflexivity.
  - destruct (step ev w) as [w1|] eqn:S1; [|discriminate]. intros H.
    destruct (step_heard _ _ Hs Hl S1) as (s1 & Hi1 & Hp1).
    destruct (step_calls _ _ Hq Hs S1) as (Hq1 & Hs1 & _).
    destruct (step_SameConfig _ _ S1) as [_ _ _ Hls _ _].
    rewrite <- Hls in Hl.
    destruct (IH w1 Hq1 Hs1 Hl H) as (s2 & Hi2 & Hp2).
    rewrite Hls in Hi2.
    exists (s1 ++ s2). split.
    + rewrite Hi2, Hi1, flat_map_app, app_assoc. reflexivity.
    + rewrite Hp2. rewrite (app_assoc _ s1 s2).
      apply Permutation_app_tail. exact Hp1.
Qed.

Lemma calls_of_index settled :
  let calls :=
    flat_map (fun e : TaskEvent =>
                map (fun h => (h, e)) [option_onTaskComplete; push_response])
      settled in
  map snd (filter (fun c => Nat.eqb (fst c) push_response) calls) = settled /\
  map snd (filter (fun c => Nat.eqb (fst c) option_onTaskComplete) calls)
  = settled /\
  filter (fun c => Nat.eqb (fst c) log_error) calls = [] /\
  filter (fun c => Nat.eqb (fst c) option_onTaskFailed) calls = [].
Proof.
  induction settled as [|e settled (IH1 & IH2 & IH3 & IH4)]; simpl;
    [repeat split; reflexivity|].
  simpl in IH1, IH2, IH3, IH4. rewrite IH1, IH2, IH3, IH4.
  repeat split; reflexivity.
Qed.

(** The records in [failedTasks] have [result: null]. *)
Lemma Books_failed_null q0 done cs fs w :
  Books q0 done cs fs w ->
  map result (failedTasks (this w))
  = repeat JsNull (List.length (failedTasks (this w))).
Proof.
  intros [_ _ _ _ _ Hf _ Ht _]. rewrite Hf. clear Hf.
  induction fs as [|s fs IH]; simpl; [reflexivity|].
  simpl in Ht. apply andb_prop in Ht. destruct Ht as [Hs Ht].
  rewrite (IH Ht). f_equal. unfold outcome, returned in *.
  destruct (s_awaited s); [discriminate|reflexivity].
Qed.

(** X17: what the listeners of index.ts get.  When no request resolves
    with an [Error] object, the listener that fills [responses] is called
    for every outcome, failures included: [responses] holds the result of
    each request that succeeded and one [null] for each request that
    failed, and when the run is over it has one entry per conversation.
    The ['taskFailed'] listeners are never called: no error is printed. *)
Theorem responses_hold_every_outcome dry call args g messages evs w :
  (forall msgs v, call msgs = Returns v -> instanceof_Error v = false) ->
  exec evs (index_run dry call args g messages) = Some w ->
  Permutation (responses w)
    (map result (completeTasks (this w)) ++
     repeat JsNull (List.length (failedTasks (this w)))) /\
  calls_of option_onTaskComplete w = calls_of push_response w /\
  errors_logged w = [] /\
  calls_of option_onTaskFailed w = [] /\
  (quiescent w = true ->
   len (responses w) = len (snd (batch_messages messages args))).
Proof.
  intros Hcall H.
  destruct (index_run_runner dry call args g messages)
    as (r & E & F & Hq & Hl & Ht & _ & Hls).
  rewrite E in H.
  assert (Hne : queue r <> []).
  { rewrite Hq. intros N. apply map_eq_nil in N.
    exact (batch_messages_not_empty _ _ N). }
  assert (Hno : Forall no_Error_result (queue r)).
  { rewrite Hq. apply Forall_forall. intros t Ht'. apply in_map_iff in Ht'.
    destruct Ht' as (msgs & <- & _). intros i lbl v Hv. simpl in Hv.
    eapply Hcall. eassumption. }
  destruct (@exec_heard evs (runAll (fst (index_runner g)) r) w)
    as (settled & Hi & Hp); simpl; auto.
  { rewrite Hls. simpl. lia. }
  simpl in Hi, Hp. rewrite Hls in Hi.
  pose proof F as F'.
  destruct F as [_ _ _ Fc Ff]. rewrite Fc, Ff in Hp. simpl in Hp.
  destruct (calls_of_index settled) as (C1 & C2 & C3 & C4).
  destruct (reached _ _ F' H) as (_ & (done & cs & fs & B) & _).
  unfold responses, errors_logged, calls_of. rewrite Hi.
  cbn [on_taskCompleted]. cbv zeta in C1, C2, C3, C4. rewrite C1, C2, C3, C4.
  split; [|split; [reflexivity|split; [reflexivity|split; [reflexivity|]]]].
  - rewrite <- (Books_failed_null B), <- map_app.
    apply Permutation_map. symmetry. exact Hp.
  - intros Q.
    assert (Hl1 : 1 <= concurrentLimit r)
      by (rewrite Hl; unfold MAX_PARALLEL_REQUESTS; lia).
    assert (Htol : gt (len (queue r)) (tolerance r) = false)
      by (rewrite Ht; reflexivity).
    destruct (tolerant_run _ _ F' Hne Hl1 Htol H) as (_ & _ & R).
    destruct (R Q) as (_ & L & _). simpl in L.
    rewrite len_map. apply Permutation_length in Hp.
    rewrite length_app in Hp. rewrite Hq, len_map in L.
    unfold len in *. lia.
Qed.

Lemma responses_hold_every_outcome_witness :
  let call := fun _ : list Message => Throws (JsError "429") in
  let w := after [Spawn; Spawn; Settle 1; Settle 0]
             (index_run false call None module_loaded []) in
  responses w = [JsNull; JsNull] /\
  Permutation (responses w)
    (map result (completeTasks (this w)) ++
     repeat JsNull (List.length (failedTasks (this w)))) /\
  calls_of option_onTaskComplete w = calls_of push_response w /\
  errors_logged w = [] /\
  calls_of option_onTaskFailed w = [] /\
  (quiescent w = true -> len (responses w) = len (snd (batch_messages [] None))).
Proof.
  split; [vm_compute; reflexivity|].
  apply (@responses_hold_every_outcome false
           (fun _ : list Message => Throws (JsError "429")) None module_loaded []
           [Spawn; Spawn; Settle 1; Settle 0] _).
  - intros msgs v Hv. discriminate Hv.
  - vm_compute. reflexivity.
Defined.

(* ------------------------------------------------------------------ *)
(** ** Runner.testRun *)

Lemma In_started_from k ts s :
  In s (started_from k ts) ->
  exists j t, nth_error ts j = Some t /\ s = start (k + Z.of_nat j) t.
Proof.
  revert k. induction ts as [|t ts IH]; intros k; simpl; [tauto|].
  intros [<-|H].
  - exists 0%nat, t. split; [reflexivity|]. f_equal. lia.
  - destruct (IH _ H) as (j & t' & Hn & ->).
    exists (S j), t'. split; [exact Hn|]. f_equal. lia.
Qed.

(** Every call that has settled was made for a task of the queue, with the
    position of the task, counted from one, as its index. *)
Lemma Books_outcomes q0 done cs fs w :
  Books q0 done cs fs w ->
  Forall (fun s => exists j t, nth_error q0 j = Some t /\
                               s = start (1 + Z.of_nat j) t) (cs ++ fs).
Proof.
  intros [Hq _ _ _ _ _ _ _ Hp]. apply Forall_forall. intros s Hs.
  assert (Hin : In s (started_from 1 done)).
  { eapply Permutation_in; [exact Hp|]. apply in_or_app. right. exact Hs. }
  destruct (In_started_from _ _ _ Hin) as (j & t & Hn & ->).
  exists j, t. split; [|reflexivity].
  rewrite Hq. rewrite nth_error_app1; [exact Hn|].
  apply nth_error_Some. congruence.
Qed.

Lemma new_Runner_queue g limit options :
  queue (snd (new_Runner g limit options)) = [].
Proof.
  unfold new_Runner. simpl.
  destruct (onTaskComplete _), (onTaskFailed _); reflexivity.
Qed.

(** The Runner that [testRun] runs. *)
Lemma testRun_runner g lucky runs options :
  exists r,
    run (testRun g lucky runs options)
    = runAll (fst (new_Runner g (Some 5) options)) r /\
    Fresh r /\
    queue r
    = map (fun i =>
             {| cb := fun _ _ => randomPromise lucky (Z.of_nat i);
                task_label := Some ("Task " ++ to_string (Z.of_nat i))%string |})
        (seq 0 (Z.to_nat (or_else runs 100))).
Proof.
  unfold testRun.
  pose proof (new_Runner_Fresh g (Some 5) options) as F0.
  pose proof (new_Runner_queue g (Some 5) options) as Q0.
  destruct (new_Runner g (Some 5) options) as [g' r0]. cbn [run fst snd] in *.
  destruct (fold_add_queue
              (fun i : nat => fun _ _ => randomPromise lucky (Z.of_nat i))
              (fun i => Some ("Task " ++ to_string (Z.of_nat i))%string)
              (seq 0 (Z.to_nat (or_else runs 100))) r0) as [Hq Hr].
  change (fun r x => add _ _ r) with (testRun_add lucky) in Hq, Hr.
  eexists. split; [reflexivity|]. split.
  - apply on_Fresh, on_Fresh. rewrite Hr. apply set_queue_Fresh. exact F0.
  - simpl. rewrite Hq, Q0. reflexivity.
Qed.

Lemma nth_error_map_seq {B} (f : nat -> B) a n j t :
  nth_error (map f (seq a n)) j = Some t -> t = f (a + j)%nat /\ (j < n)%nat.
Proof.
  revert a j. induction n as [|n IH]; intros a j; simpl.
  - destruct j; discriminate.
  - destruct j as [|j]; simpl.
    + intros [= <-]. rewrite Nat.add_0_r. split; [reflexivity|lia].
    + intros H. destruct (IH _ _ H) as [-> Hj].
      split; [f_equal; lia|lia].
Qed.

(** The call that [testRun]'s task number [j] gets. *)
Lemma testRun_call lucky j :
  let s := start (1 + Z.of_nat j)
             {| cb := fun _ _ => randomPromise lucky (Z.of_nat j);
                task_label := Some ("Task " ++ to_string (Z.of_nat j))%string |} in
  index (meta (outcome s)) - 1 = Z.of_nat j /\
  label (meta (outcome s)) = Some ("Task " ++ to_string (Z.of_nat j))%string /\
  returned s = lucky (Z.of_nat j) /\
  (lucky (Z.of_nat j) = true -> error (outcome s) = JsNull) /\
  (lucky (Z.of_nat j) = false ->
   result (outcome s) = JsNull /\
   error (outcome s)
   = JsError ("Failed on task #" ++ to_string (Z.of_nat j))%string).
Proof.
  unfold start, outcome, returned, randomPromise.
  cbn [s_awaited s_index s_label cb task_label].
  destruct (lucky (Z.of_nat j)); cbn [meta index label error result];
    repeat split; try reflexivity; try discriminate; lia.
Qed.

(** X18: [testRun] numbers its tasks from zero and the Runner counts its
    calls from one.  In every run of [testRun] in which every listener that
    is called returns (the two it registers, and those given or inherited
    as options), in whatever order the tasks settle, the record of a task
    that succeeded or failed has an [index] between 1 and [runs] and the
    label [Task (index - 1)]; whether it is
    among the successes or the failures is decided by the draw for task
    [index - 1], and the error of a failure reads
    [Failed on task #(index - 1)]. *)
Theorem testRun_index_is_task_number_plus_one g lucky runs options acts w :
  listeners_return acts = true ->
  perform acts (run (testRun g lucky runs options)) = Some w ->
  Forall (fun e =>
            1 <= index (meta e) <= or_else runs 100 /\
            label (meta e)
            = Some ("Task " ++ to_string (index (meta e) - 1))%string /\
            lucky (index (meta e) - 1) = true /\
            error e = JsNull)
    (completeTasks (this w)) /\
  Forall (fun e =>
            1 <= index (meta e) <= or_else runs 100 /\
            label (meta e)
            = Some ("Task " ++ to_string (index (meta e) - 1))%string /\
            lucky (index (meta e) - 1) = false /\
            result e = JsNull /\
            error e
            = JsError ("Failed on task #" ++ to_string (index (meta e) - 1))%string)
    (failedTasks (this w)).
Proof.
  intros U H.
  destruct (testRun_runner g lucky runs options) as (r & E & F & Hq).
  rewrite E in H.
  destruct (@reached_listening _ _ _ _ F U H) as (_ & (done & cs & fs & B) & _).
  pose proof (Books_outcomes B) as Ho. apply Forall_app in Ho.
  destruct Ho as [Hc Hf].
  destruct B as [_ _ _ _ Ec Ef Hr Ht _]. rewrite Ec, Ef.
  rewrite forallb_forall in Hr, Ht. rewrite Forall_forall in Hc, Hf.
  split; apply Forall_forall; intros e He; apply in_map_iff in He;
    destruct He as (s & <- & Hs).
  - destruct (Hc s Hs) as (j & t & Hn & ->). specialize (Hr _ Hs).
    rewrite Hq in Hn. apply nth_error_map_seq in Hn. destruct Hn as [-> Hj].
    rewrite Nat.add_0_l in *.
    destruct (testRun_call lucky j) as (Hi & Hl & Hret & He & _).
    rewrite Hret in Hr. rewrite Hi, Hl, (He Hr).
    repeat split; try assumption; lia.
  - destruct (Hf s Hs) as (j & t & Hn & ->). specialize (Ht _ Hs).
    rewrite Hq in Hn. apply nth_error_map_seq in Hn. destruct Hn as [-> Hj].
    rewrite Nat.add_0_l in *.
    destruct (testRun_call lucky j) as (Hi & Hl & Hret & _ & He).
    rewrite Hret in Ht. apply negb_true_iff in Ht.
    destruct (He Ht) as [-> ->]. rewrite Hi, Hl.
    repeat split; try assumption; lia.
Qed.

Lemma testRun_index_is_task_number_plus_one_witness :
  let lucky := fun i => negb (i =? 1) in
  let w := after [Spawn; Spawn; Spawn; Settle 1; Settle 0; Settle 0]
             (run (testRun module_loaded lucky (Some 3)
                     (Some (example_options false (Fin 1))))) in
  failedTasks (this w)
  = [{| result := JsNull; error := JsError "Failed on task #1";
        meta := {| index := 2; label := Some "Task 1"%string |} |}] /\
  Forall (fun e =>
            1 <= index (meta e) <= 3 /\
            label (meta e)
            = Some ("Task " ++ to_string (index (meta e) - 1))%string /\
            lucky (index (meta e) - 1) = true /\
            error e = JsNull)
    (completeTasks (this w)) /\
  Forall (fun e =>
            1 <= index (meta e) <= 3 /\
            label (meta e)
            = Some ("Task " ++ to_string (index (meta e) - 1))%string /\
            lucky (index (meta e) - 1) = false /\
            result e = JsNull /\
            error e
            = JsError ("Failed on task #" ++ to_string (index (meta e) - 1))%string)
    (failedTasks (this w)).
Proof.
  split; [vm_compute; reflexivity|].
  apply (@testRun_index_is_task_number_plus_one module_loaded
           (fun i => negb (i =? 1)) (Some 3)
           (Some (example_options false (Fin 1)))
           (map Returning [Spawn; Spawn; Spawn; Settle 1; Settle 0; Settle 0]) _).
  - reflexivity.
  - vm_compute. reflexivity.
Defined.

(** X19: [testRun] with no runs never returns.  With [runs <= 0] no task
    is added, the promise of [runAll] stays pending whatever happens, and
    so the [await] in [testRun] never completes; no listener is called. *)
Theorem testRun_without_runs_never_returns g lucky runs options evs w :
  runs <= 0 ->
  exec evs (run (testRun g lucky (Some runs) options)) = Some w ->
  testRun_returns w = None /\ invoked w = [] /\ numTotal (this w) = 0.
Proof.
  intros Hr H.
  destruct (testRun_runner g lucky (Some runs) options) as (r & E & F & Hq).
  rewrite E in H. simpl in Hq.
  replace (Z.to_nat runs) with 0%nat in Hq by lia. simpl in Hq.
  destruct (@idle_run evs (runAll (fst (new_Runner g (Some 5) options)) r) w)
    as (Ht & Hp & _ & Hi & _); [exact Hq|reflexivity|exact H|].
  unfold testRun_returns. rewrite Hp, Hi, Ht. simpl.
  rewrite Hq. repeat split; reflexivity.
Qed.

Lemma testRun_without_runs_never_returns_witness :
  let w := after [Spawn; Spawn; Spawn; Spawn; Spawn]
             (run (testRun module_loaded (fun _ => true) (Some 0) None)) in
  quiescent w = true /\
  testRun_returns w = None /\ invoked w = [] /\ numTotal (this w) = 0.
Proof.
  split; [vm_compute; reflexivity|].
  apply (@testRun_without_runs_never_returns module_loaded (fun _ => true) 0 None
           [Spawn; Spawn; Spawn; Spawn; Spawn] _).
  - lia.
  - vm_compute. reflexivity.
Defined.

(* ------------------------------------------------------------------ *)
(** ** src/utils/color.ts *)

Lemma slice_inside {A} a b (xs : list A) :
  0 <= a <= b -> b <= len xs ->
  slice a b xs = firstn (Z.to_nat (b - a)) (skipn (Z.to_nat a) xs).
Proof.
  intros Ha Hb. unfold slice, slice_bound.
  destruct (Z.ltb_spec a 0); [lia|]. destruct (Z.ltb_spec b 0); [lia|].
  rewrite !Z.min_l by lia. reflexivity.
Qed.

Lemma slice_length {A} a b (xs : list A) :
  0 <= a <= b -> (List.length (slice a b xs) <= Z.to_nat (b - a))%nat.
Proof.
  intros Ha. unfold slice, slice_bound.
  destruct (Z.ltb_spec a 0); [lia|]. destruct (Z.ltb_spec b 0); [lia|].
  rewrite length_firstn. lia.
Qed.

Lemma slice_In {A} a b (xs : list A) x : In x (slice a b xs) -> In x xs.
Proof.
  unfold slice. intros H. apply In_firstn in H.
  rewrite <- (firstn_skipn (Z.to_nat (slice_bound (len xs) a)) xs).
  apply in_or_app. right. exact H.
Qed.

(** X20: [timestamp()] is the UTC date and time as [YYMMDDHHmm].  For an
    ISO string [YYYY-MM-DDTHH:mm...] (four characters for the year, two
    for each of month, day, hour and minute, none of them a separator)
    the result is the last two characters of the year followed by the
    month, the day, the hour and the minute; seconds and milliseconds are
    dropped, whatever they are. *)
Theorem timestamp_is_YYMMDDHHmm Y M D h m rest :
  String.length Y = 4%nat ->
  String.length M = 2%nat -> String.length D = 2%nat ->
  String.length h = 2%nat -> String.length m = 2%nat ->
  plain (Y ++ M ++ D ++ h ++ m) = true ->
  timestamp (Y ++ "-" ++ M ++ "-" ++ D ++ "T" ++ h ++ ":" ++ m ++ rest)
  = (substring 2 2 Y ++ M ++ D ++ h ++ m)%string.
Proof.
  intros HY HM HD Hh Hm P.
  destruct Y as [|y1 [|y2 [|y3 [|y4 [|]]]]]; try discriminate HY.
  destruct M as [|M1 [|M2 [|]]]; try discriminate HM.
  destruct D as [|D1 [|D2 [|]]]; try discriminate HD.
  destruct h as [|h1 [|h2 [|]]]; try discriminate Hh.
  destruct m as [|m1 [|m2 [|]]]; try discriminate Hm.
  clear HY HM HD Hh Hm.
  unfold plain in P. cbn [append list_ascii_of_string forallb] in P.
  repeat match type of P with
         | (_ && _)%bool = true =>
             let E := fresh "E" in
             apply andb_prop in P; destruct P as [E P];
             apply negb_true_iff in E
         end.
  unfold timestamp, string_slice, strip_separators.
  cbn [append list_ascii_of_string filter substring].
  repeat match goal with E : is_separator _ = false |- _ => rewrite E; clear E end.
  repeat match goal with
         | |- context [is_separator ?c] => change (is_separator c) with true
         end.
  cbn [negb]. rewrite list_ascii_of_string_of_list_ascii.
  rewrite slice_inside; [reflexivity|lia|].
  rewrite !len_cons. match goal with |- context [len ?t] =>
    pose proof (len_nonneg t) end. lia.
Qed.

Lemma timestamp_is_YYMMDDHHmm_witness :
  timestamp "2026-11-01T09:30:15.123Z" = "2611010930"%string.
Proof.
  apply (@timestamp_is_YYMMDDHHmm "2026" "11" "01" "09" "30" ":15.123Z");
    reflexivity.
Defined.

(** X21: whatever the string, [timestamp] returns at most ten characters
    and none of them is one of [-], [:], [.], [T] and [Z]. *)
Theorem timestamp_is_short_and_plain iso :
  (String.length (timestamp iso) <= 10)%nat /\
  Forall (fun c => is_separator c = false)
    (list_ascii_of_string (timestamp iso)).
Proof.
  unfold timestamp, string_slice, strip_separators.
  rewrite !list_ascii_of_string_of_list_ascii.
  match goal with |- context [slice 2 12 ?l] => set (xs := l) end.
  split.
  - rewrite <- (list_ascii_of_string_of_list_ascii (slice 2 12 xs)) at 1.
    pose proof (@slice_length _ 2 12 xs ltac:(lia)) as Hl.
    assert (Hs : forall s, String.length s = List.length (list_ascii_of_string s)).
    { induction s as [|c s IH]; simpl; congruence. }
    rewrite Hs, !list_ascii_of_string_of_list_ascii. exact Hl.
  - apply Forall_forall. intros c Hc. apply slice_In in Hc.
    unfold xs in Hc. apply filter_In in Hc. destruct Hc as [_ Hc].
    apply negb_true_iff. exact Hc.
Qed.

(* ------------------------------------------------------------------ *)
(** ** src/utils/debrief.ts *)

Lemma all_values_Some {V} (xs : list (option V)) vs :
  all_values xs = Some vs -> xs = map Some vs.
Proof.
  revert vs. induction xs as [|x xs IH]; intros vs; simpl.
  - intros [= <-]. reflexivity.
  - destruct x as [v|]; [|discriminate].
    destruct (all_values xs) as [vs'|]; [|discriminate].
    intros [= <-]. simpl. rewrite (IH vs' eq_refl). reflexivity.
Qed.

Lemma all_values_map_Some {V} (vs : list V) : all_values (map Some vs) = Some vs.
Proof. induction vs as [|v vs IH]; simpl; [|rewrite IH]; reflexivity. Qed.

Lemma all_values_total {V} (xs : list (option V)) :
  Forall (fun x => exists v, x = Some v) xs -> exists vs, all_values xs = Some vs.
Proof.
  induction 1 as [|x xs [v ->] _ [vs IH]]; simpl; [eauto|].
  rewrite IH. eauto.
Qed.

Lemma all_entries_Some {V} (es : list (string * option V)) vs :
  all_entries es = Some vs ->
  es = map (fun kv => (fst kv, Some (snd kv))) vs.
Proof.
  unfold all_entries. revert vs. induction es as [|[k x] es IH]; intros vs; simpl.
  - intros [= <-]. reflexivity.
  - destruct x as [v|]; [|discriminate].
    destruct (all_values _) as [vs'|]; [|discriminate].
    intros [= <-]. simpl. rewrite (IH vs' eq_refl). reflexivity.
Qed.

Lemma all_entries_map_Some {V} (vs : list (string * V)) :
  all_entries (map (fun kv => (fst kv, Some (snd kv))) vs) = Some vs.
Proof.
  unfold all_entries. induction vs as [|[k v] vs IH]; simpl; [reflexivity|].
  rewrite IH. reflexivity.
Qed.

Lemma all_entries_total {V} (es : list (string * option V)) :
  Forall (fun kv => exists v, snd kv = Some v) es ->
  exists vs, all_entries es = Some vs.
Proof.
  unfold all_entries.
  induction 1 as [|[k x] es [v Hv] _ [vs IH]]; simpl in *; [eauto|].
  subst x. rewrite IH. eauto.
Qed.

Lemma slice_all {A} b (xs : list A) : len xs <= b -> slice 0 b xs = xs.
Proof.
  intros Hb. pose proof (len_nonneg xs).
  unfold slice, slice_bound. simpl (0 <? 0).
  destruct (Z.ltb_spec b 0); [lia|].
  rewrite Z.min_r by lia. rewrite Z.min_l by lia.
  simpl. rewrite Z.sub_0_r. unfold len. rewrite Nat2Z.id. apply firstn_all.
Qed.

Lemma Forall_slice {A} (P : A -> Prop) a b xs :
  Forall P xs -> Forall P (slice a b xs).
Proof.
  rewrite !Forall_forall. intros H x Hx. apply H. eapply slice_In. eassumption.
Qed.

Lemma len_slice {A} b (xs : list A) : 0 <= b -> len (slice 0 b xs) <= b.
Proof.
  intros Hb. pose proof (@slice_length _ 0 b xs ltac:(lia)). unfold len. lia.
Qed.

(** [Object.fromEntries] *)
Lemma set_entry_snoc {V} k (v : V) es :
  Forall (fun k' => String.eqb k' k = false) (map fst es) ->
  set_entry k v es = es ++ [(k, v)].
Proof.
  induction es as [|[k' v'] es IH]; simpl; [reflexivity|].
  intros H. inversion H as [|? ? H1 H2]; subst. rewrite H1, (IH H2). reflexivity.
Qed.

Lemma no_repeat_before ks k rest :
  no_repeat (ks ++ k :: rest) = true ->
  Forall (fun k' => String.eqb k' k = false) ks.
Proof.
  induction ks as [|k' ks IH]; simpl; [constructor|].
  intros H. apply andb_prop in H. destruct H as [H1 H2].
  constructor; [|apply IH; exact H2].
  apply negb_true_iff in H1. rewrite existsb_app in H1.
  apply orb_false_elim in H1. destruct H1 as [_ H1]. simpl in H1.
  apply orb_false_elim in H1. tauto.
Qed.

Lemma fromEntries_distinct {V} (es : list (string * V)) :
  no_repeat (map fst es) = true -> fromEntries es = es.
Proof.
  unfold fromEntries.
  assert (G : forall acc,
             no_repeat (map fst (acc ++ es)) = true ->
             fold_left (fun o kv => set_entry (fst kv) (snd kv) o) es acc
             = acc ++ es).
  { induction es as [|[k v] es IH]; intros acc H; simpl.
    - rewrite app_nil_r. reflexivity.
    - rewrite set_entry_snoc.
      + rewrite IH; rewrite <- app_assoc; [reflexivity|exact H].
      + rewrite map_app in H. simpl in H. eapply no_repeat_before. exact H. }
  intros H. apply (G [] H).
Qed.

Lemma set_entry_members {V} k (v : V) es :
  (List.length (set_entry k v es) <= S (List.length es))%nat /\
  forall x, In x (map snd (set_entry k v es)) -> In x (map snd es) \/ x = v.
Proof.
  induction es as [|[k' v'] es [IHl IHm]]; simpl.
  - split; [lia|]. intros x [<-|[]]. right. reflexivity.
  - destruct (String.eqb k' k); simpl.
    + split; [lia|]. intros x [<-|H]; auto.
    + split; [lia|]. intros x [<-|H]; auto.
      destruct (IHm x H); auto.
Qed.

Lemma fromEntries_members {V} (es : list (string * V)) :
  (List.length (fromEntries es) <= List.length es)%nat /\
  forall x, In x (map snd (fromEntries es)) -> In x (map snd es).
Proof.
  unfold fromEntries.
  assert (G : forall acc,
             let o := fold_left (fun o kv => set_entry (fst kv) (snd kv) o) es acc in
             (List.length o <= List.length acc + List.length es)%nat /\
             forall x, In x (map snd o) -> In x (map snd acc) \/ In x (map snd es)).
  { induction es as [|[k v] es IH]; intros acc; simpl.
    - split; [lia|]. auto.
    - destruct (IH (set_entry k v acc)) as [Hl Hm].
      destruct (set_entry_members k v acc) as [Sl Sm].
      split; [lia|]. intros x Hx. destruct (Hm x Hx) as [H|H]; auto.
      destruct (Sm x H); auto. }
  destruct (G []) as [Hl Hm]. split; [exact Hl|].
  intros x Hx. destruct (Hm x Hx) as [[]|H]. exact H.
Qed.

Lemma parse_VString {Number} (ts : Number -> string) tf tn depth siblings trim s d :
  parse ts tf tn depth siblings trim (VString s) d
  = Some (parse_text depth trim s d).
Proof. unfold parse_text. simpl. destruct (d >? depth); reflexivity. Qed.

(** X22: [debrief] returns a value, for every input and every [depth] and
    [siblings], when [trim] is between 0 and 100: the [RangeError] of
    [toFixed] cannot happen. *)
Theorem debrief_returns_when_trim_in_range {Number} (ts : Number -> string) tf tn
    depth siblings trim o d :
  0 <= trim <= 100 ->
  exists v, parse ts tf tn depth siblings trim o d = Some v.
Proof.
  intros Htrim. revert d.
  induction o as [| | | |items IH|entries IH| | | |] using Value_nested_ind;
    intros d; cbn [parse]; destruct (d >? depth); eauto.
  - destruct (@all_values_total _
                (slice 0 siblings
                   (map (fun s => parse ts tf tn depth siblings trim s d) items)))
      as [vs ->]; [|simpl; eauto].
    apply Forall_slice. apply Forall_map.
    eapply Forall_impl; [|exact IH]. intros x Hx. apply Hx.
  - assert (Hp : Forall (fun kv : string * option (Value Number) =>
                           exists v, snd kv = Some v)
                   (map (fun kv : string * Value Number =>
                           let (k, v) := kv in
                           (k, parse ts tf tn depth siblings trim v (d + 1)))
                      entries)).
    { apply Forall_map. eapply Forall_impl; [|exact IH].
      intros [k x] Hx. simpl in *. apply Hx. }
    destruct (len entries <=? siblings).
    + destruct (all_entries_total Hp) as [vs ->]. simpl. eauto.
    + match goal with |- context [all_entries ?l] =>
        destruct (@all_entries_total _ l) as [vs ->]; [|simpl; eauto] end.
      apply Forall_app. split; [apply Forall_slice; exact Hp|].
      constructor; [simpl; eauto|constructor].
  - unfold parse_number. destruct (_ >? _); [|eauto].
    replace ((0 <=? trim) && (trim <=? 100)) with true; [eauto|].
    symmetry. apply andb_true_intro. split; apply Z.leb_le; lia.
Qed.

Lemma debrief_returns_when_trim_in_range_witness :
  let obj := VObject [("foo"%string, VString "foogleberry");
                      ("alphabet"%string, VString "lorem ipsum dolor sit amet")] in
  debrief to_string integer_toFixed integer_of_text obj None
  = Some (VObject [("foo"%string, VString "foogleberry");
                   ("alphabet"%string, VString "lorem ipsum dol...")]) /\
  exists v, debrief to_string integer_toFixed integer_of_text obj None = Some v.
Proof.
  split; [vm_compute; reflexivity|].
  apply (@debrief_returns_when_trim_in_range Z to_string integer_toFixed
           integer_of_text 2 4 15 _ 0).
  lia.
Defined.

Lemma not_deeper d depth : (d <=? depth) = true -> (d >? depth) = false.
Proof. intros H. apply Z.leb_le in H. rewrite Z.gtb_ltb. apply Z.ltb_ge. lia. Qed.

(** X23: [debrief] returns unchanged a value that is within its limits:
    objects nested no deeper than [depth], arrays and objects with at most
    [siblings] members, strings shorter than [trim + 3] and numbers whose
    text has at most [trim + 3] characters.  Arrays do not count as a
    level: however deep they are nested, their elements are looked at at
    the level of the array. *)
Theorem debrief_keeps_what_fits {Number} (ts : Number -> string) tf tn
    depth siblings trim o d :
  fits ts depth siblings trim o d = true ->
  distinct_keys o = true ->
  parse ts tf tn depth siblings trim o d = Some o.
Proof.
  revert d.
  induction o as [| | | |items IH|entries IH| | | |] using Value_nested_ind;
    intros d Hf Hk; cbn [fits] in Hf; apply andb_prop in Hf;
    destruct Hf as [Hd Hf]; cbn [parse]; rewrite (not_deeper _ _ Hd);
    try reflexivity; try discriminate Hf.
  - apply andb_prop in Hf. destruct Hf as [Hl Hf]. apply Z.leb_le in Hl.
    cbn [distinct_keys] in Hk.
    rewrite forallb_forall in Hf, Hk. rewrite Forall_forall in IH.
    replace (map (fun s => parse ts tf tn depth siblings trim s d) items)
      with (map Some items).
    + rewrite slice_all by (rewrite len_map; exact Hl).
      rewrite all_values_map_Some. reflexivity.
    + apply map_ext_in. intros x Hx. symmetry. apply IH; auto.
  - apply andb_prop in Hf. destruct Hf as [Hl Hf]. rewrite Hl.
    cbn [distinct_keys] in Hk. apply andb_prop in Hk. destruct Hk as [Hn Hk].
    rewrite forallb_forall in Hf, Hk. rewrite Forall_forall in IH.
    replace (map (fun kv : string * Value Number =>
                    let (k, v) := kv in
                    (k, parse ts tf tn depth siblings trim v (d + 1))) entries)
      with (map (fun kv : string * Value Number => (fst kv, Some (snd kv)))
              entries).
    + rewrite all_entries_map_Some. simpl.
      rewrite (fromEntries_distinct _ Hn). reflexivity.
    + apply map_ext_in. intros [k x] Hx. simpl. f_equal. symmetry.
      apply (IH _ Hx); [apply (Hf _ Hx)|apply (Hk _ Hx)].
  - unfold parse_string. rewrite Hf. reflexivity.
  - unfold parse_number. apply negb_true_iff in Hf. rewrite Hf. reflexivity.
Qed.

Lemma debrief_keeps_what_fits_witness :
  let results :=
    VArray
      [VArray
         [VObject
            [("result"%string, VString "ok");
             ("error"%string, VNull);
             ("meta"%string,
              VObject [("index"%string, VNumber 1);
                       ("label"%string, VString "Task 0")])]]] in
  debrief to_string integer_toFixed integer_of_text results None = Some results.
Proof.
  apply (@debrief_keeps_what_fits Z to_string integer_toFixed integer_of_text
           2 4 15 _ 0); reflexivity.
Defined.

Lemma height_members {A} (f : A -> Z) b xs :
  0 <= b -> Forall (fun x => f x <= b) xs ->
  fold_right (fun x m => Z.max (f x) m) 0 xs <= b.
Proof.
  intros Hb. induction 1 as [|x xs Hx _ IH]; simpl; [exact Hb|]. lia.
Qed.

(** The object made from entries that are bounded is bounded. *)
Lemma fromEntries_bounded {Number} n b (l : list (string * option (Value Number))) es :
  0 <= b ->
  all_entries l = Some es ->
  len l <= n + 1 ->
  (forall k x, In (k, Some x) l -> breadth n x = true /\ height x <= b) ->
  breadth n (VObject (fromEntries es)) = true /\
  height (VObject (fromEntries es)) <= 1 + b.
Proof.
  intros Hb E Hl Hm. apply all_entries_Some in E.
  destruct (fromEntries_members es) as [Fl Fm].
  assert (Hv : Forall (fun kv : string * Value Number =>
                         breadth n (snd kv) = true /\ height (snd kv) <= b)
                 (fromEntries es)).
  { apply Forall_forall. intros [k x] Hx. simpl.
    assert (Hin : In x (map snd es)).
    { apply Fm. apply in_map_iff. exists (k, x). auto. }
    apply in_map_iff in Hin. destruct Hin as ([k' x'] & Heq & Hin).
    simpl in Heq. subst x'. apply (Hm k'). rewrite E.
    apply in_map_iff. exists (k', x). auto. }
  assert (Hlen : len (fromEntries es) <= n + 1).
  { rewrite E in Hl. unfold len in *. rewrite length_map in Hl. lia. }
  cbn [breadth height]. split.
  - apply andb_true_intro. split; [apply Z.leb_le; exact Hlen|].
    apply forallb_forall. intros [k x] Hx. rewrite Forall_forall in Hv.
    apply (Hv (k, x) Hx).
  - assert (Hh : fold_right
                   (fun (kv : string * Value Number) m =>
                      let (_, x) := kv in Z.max (height x) m) 0 (fromEntries es)
                 <= b); [|lia].
    clear - Hb Hv. induction Hv as [|[k x] rest [_ Hx] _ IH]; simpl in *; lia.
Qed.

(** X24: what [debrief] returns is bounded.  With [siblings >= 0], no
    array in the result has more than [siblings] elements and no object
    more than [siblings + 1] entries, and objects are nested at most
    [depth + 1] deep below level [d = 0], whatever the input. *)
Theorem debrief_result_is_bounded {Number} (ts : Number -> string) tf tn
    depth siblings trim o d v :
  0 <= siblings ->
  parse ts tf tn depth siblings trim o d = Some v ->
  breadth siblings v = true /\ height v <= Z.max 0 (depth + 1 - d).
Proof.
  intros Hs. revert d v.
  induction o as [| | | |items IH|entries IH| | | |] using Value_nested_ind;
    intros d v; cbn [parse]; destruct (Z.gtb_spec d depth) as [Hd|Hd];
    try (intros [= <-]; simpl; split; [reflexivity|lia]).
  - destruct (all_values _) as [vs|] eqn:E; [|discriminate].
    intros [= <-]. apply all_values_Some in E.
    assert (Hv : Forall (fun x => breadth siblings x = true /\
                                  height x <= Z.max 0 (depth + 1 - d)) vs).
    { apply Forall_forall. intros x Hx.
      assert (Hin : In (Some x)
                      (map (fun s => parse ts tf tn depth siblings trim s d) items)).
      { eapply slice_In. rewrite E. apply in_map. exact Hx. }
      apply in_map_iff in Hin. destruct Hin as (x0 & Hp & H0).
      rewrite Forall_forall in IH. exact (IH _ H0 _ _ Hp). }
    assert (Hl : len vs <= siblings).
    { pose proof (len_slice
                    (map (fun s => parse ts tf tn depth siblings trim s d) items)
                    Hs) as L.
      rewrite E, len_map in L. exact L. }
    cbn [breadth height]. split.
    + apply andb_true_intro. split; [apply Z.leb_le; exact Hl|].
      apply forallb_forall. intros x Hx. rewrite Forall_forall in Hv.
      apply (Hv x Hx).
    + apply height_members; [lia|].
      eapply Forall_impl; [|exact Hv]. intros x Hx. apply Hx.
  - set (parsed := map (fun kv : string * Value Number =>
                          let (k, x) := kv in
                          (k, parse ts tf tn depth siblings trim x (d + 1)))
                     entries).
    assert (Hp : forall k x, In (k, Some x) parsed ->
                             breadth siblings x = true /\ height x <= depth - d).
    { intros k x Hin. apply in_map_iff in Hin.
      destruct Hin as ([k0 x0] & Heq & H0). injection Heq as _ Heq.
      rewrite Forall_forall in IH. destruct (IH _ H0 _ _ Heq) as [Hb Hh].
      split; [exact Hb|]. simpl in Hh. lia. }
    replace (Z.max 0 (depth + 1 - d)) with (1 + (depth - d)) by lia.
    destruct (Z.leb_spec (len entries) siblings) as [Hl|Hl].
    + destruct (all_entries parsed) as [es|] eqn:E; [|discriminate].
      intros [= <-].
      apply (@fromEntries_bounded _ siblings (depth - d) _ _ ltac:(lia) E); [|exact Hp].
      unfold parsed. rewrite len_map. lia.
    + match goal with |- context [all_entries ?l] =>
        destruct (all_entries l) as [es|] eqn:E; [|discriminate] end.
      intros [= <-].
      apply (@fromEntries_bounded _ siblings (depth - d) _ _ ltac:(lia) E).
      * pose proof (len_slice parsed Hs) as L. unfold len in *.
        rewrite length_app. simpl. lia.
      * intros k x Hin. apply in_app_or in Hin. destruct Hin as [Hin|Hin].
        -- apply (Hp k). eapply slice_In. exact Hin.
        -- destruct Hin as [[= _ <-]|[]]. unfold parse_text.
           destruct (d + 1 >? depth); simpl; split; try reflexivity; lia.
  - unfold parse_number. destruct (_ >? _); [destruct (_ && _)|];
      try discriminate; intros [= <-]; simpl; split; try reflexivity; lia.
Qed.

Lemma debrief_result_is_bounded_witness :
  let leaf := VObject [("a"%string, VNull); ("b"%string, VNull); ("c"%string, VNull)] in
  let level2 := VObject [("x"%string, VObject [("y"%string, leaf)])] in
  let obj := VObject [("one"%string, level2); ("two"%string, VArray [leaf; leaf; leaf])] in
  let v := VObject
             [("one"%string, VObject [("x"%string, VString "...")]);
              ("two"%string,
               VArray [VObject [("a"%string, VString "...");
                                ("b"%string, VString "...");
                                ("..."%string, VString "...")];
                       VObject [("a"%string, VString "...");
                                ("b"%string, VString "...");
                                ("..."%string, VString "...")]])] in
  debrief to_string integer_toFixed integer_of_text obj
    (Some {| opt_depth := Some 1; opt_siblings := Some 2;
             opt_trim := None; opt_verbose := None |})
  = Some v /\
  breadth 2 v = true /\ height v <= Z.max 0 (1 + 1 - 0).
Proof.
  intros leaf level2 obj v. split; [vm_compute; reflexivity|].
  apply (@debrief_result_is_bounded Z to_string integer_toFixed integer_of_text
           1 2 15 obj 0 v).
  - lia.
  - vm_compute. reflexivity.
Defined.

Lemma str_len_list s : str_len s = len (list_ascii_of_string s).
Proof.
  unfold str_len, len. f_equal.
  induction s as [|c s IH]; simpl; congruence.
Qed.

Lemma str_len_append a b : str_len (a ++ b) = str_len a + str_len b.
Proof.
  unfold str_len. induction a as [|c a IH]; simpl String.length; [reflexivity|].
  rewrite !Nat2Z.inj_succ. simpl in IH. rewrite IH. lia.
Qed.

(** A string comes out of [case 'string'] with at most [trim + 3]
    characters. *)
Lemma parse_string_length trim s :
  0 <= trim -> str_len (parse_string trim s) <= trim + 3.
Proof.
  intros Ht. unfold parse_string.
  destruct (Z.ltb_spec (str_len s) (trim + 3)); [lia|].
  rewrite str_len_append. unfold string_slice.
  rewrite str_len_list, list_ascii_of_string_of_list_ascii.
  pose proof (len_slice (list_ascii_of_string s) Ht).
  change (str_len "...") with 3. lia.
Qed.

Lemma parse_text_length {Number} depth trim s d :
  0 <= trim ->
  texts_within (trim + 3) (@parse_text Number depth trim s d) = true.
Proof.
  intros Ht. unfold parse_text. destruct (d >? depth); simpl; apply Z.leb_le.
  - change (str_len "...") with 3. lia.
  - apply parse_string_length. exact Ht.
Qed.

(** X25: with [trim >= 0], no string in what [debrief] returns has more
    than [trim + 3] characters, provided that the input has no function
    in it: the name of a function is returned as it is, whatever its
    length. *)
Theorem debrief_trims_every_string {Number} (ts : Number -> string) tf tn
    depth siblings trim o d v :
  0 <= trim ->
  no_functions o = true ->
  parse ts tf tn depth siblings trim o d = Some v ->
  texts_within (trim + 3) v = true.
Proof.
  intros Ht. revert d v.
  assert (Dots : texts_within (trim + 3) (@VString Number "...") = true).
  { simpl. apply Z.leb_le. change (str_len "...") with 3. lia. }
  induction o as [| | | |items IH|entries IH| | | |] using Value_nested_ind;
    intros d v Hn; cbn [parse]; destruct (d >? depth);
    try (intros [= <-]; first [exact Dots|reflexivity]).
  - destruct (all_values _) as [vs|] eqn:E; [|discriminate].
    intros [= <-]. apply all_values_Some in E.
    cbn [texts_within]. apply forallb_forall. intros x Hx.
    assert (Hin : In (Some x)
                    (map (fun s => parse ts tf tn depth siblings trim s d) items)).
    { eapply slice_In. rewrite E. apply in_map. exact Hx. }
    apply in_map_iff in Hin. destruct Hin as (x0 & Hp & H0).
    cbn [no_functions] in Hn. rewrite forallb_forall in Hn.
    rewrite Forall_forall in IH. exact (IH _ H0 _ _ (Hn _ H0) Hp).
  - set (parsed := map (fun kv : string * Value Number =>
                          let (k, x) := kv in
                          (k, parse ts tf tn depth siblings trim x (d + 1)))
                     entries).
    assert (Hp : forall k x, In (k, Some x) parsed ->
                             texts_within (trim + 3) x = true).
    { intros k x Hin. apply in_map_iff in Hin.
      destruct Hin as ([k0 x0] & Heq & H0). injection Heq as _ Heq.
      cbn [no_functions] in Hn. rewrite forallb_forall in Hn.
      rewrite Forall_forall in IH. exact (IH _ H0 _ _ (Hn _ H0) Heq). }
    assert (G : forall (l : list (string * option (Value Number))) es,
               all_entries l = Some es ->
               (forall k x, In (k, Some x) l -> texts_within (trim + 3) x = true) ->
               texts_within (trim + 3) (VObject (fromEntries es)) = true).
    { clear. intros l es E Hm. apply all_entries_Some in E.
      destruct (fromEntries_members es) as [_ Fm].
      cbn [texts_within]. apply forallb_forall. intros [k x] Hx.
      assert (Hin : In x (map snd es)).
      { apply Fm. apply in_map_iff. exists (k, x). auto. }
      apply in_map_iff in Hin. destruct Hin as ([k' x'] & Heq & Hin).
      simpl in Heq. subst x'. apply (Hm k'). rewrite E.
      apply in_map_iff. exists (k', x). auto. }
    destruct (len entries <=? siblings).
    + destruct (all_entries parsed) as [es|] eqn:E; [|discriminate].
      intros [= <-]. exact (G _ _ E Hp).
    + match goal with |- context [all_entries ?l] =>
        destruct (all_entries l) as [es|] eqn:E; [|discriminate] end.
      intros [= <-]. apply (G _ _ E).
      intros k x Hin. apply in_app_or in Hin. destruct Hin as [Hin|Hin].
      * apply (Hp k). eapply slice_In. exact Hin.
      * destruct Hin as [[= _ <-]|[]]. apply parse_text_length. exact Ht.
  - intros [= <-]. simpl. apply Z.leb_le. apply parse_string_length. exact Ht.
  - unfold parse_number. destruct (_ >? _); [destruct (_ && _)|];
      try discriminate; intros [= <-]; reflexivity.
  - discriminate Hn.
Qed.

Lemma debrief_trims_every_string_witness :
  let obj := VArray [VString "lorem ipsum dolor sit amet"; VString "foo"] in
  let v := VArray [VString "lorem ipsum dol..."; VString "foo"] in
  debrief to_string integer_toFixed integer_of_text obj None = Some v /\
  texts_within (15 + 3) v = true.
Proof.
  intros obj v. split; [vm_compute; reflexivity|].
  apply (@debrief_trims_every_string Z to_string integer_toFixed integer_of_text
           2 4 15 obj 0 v).
  - lia.
  - reflexivity.
  - vm_compute. reflexivity.
Defined.
